(** * IndonesiaLegalPdfExtraction: the text pipeline of [main.py]

    A shallow embedding of the core of [main.py]: structure detection
    ([detect_structure]), cleaning ([minimal_clean]), record construction
    ([build_records_per_pdf]), the Pasal -> Ayat explosion
    ([explode_ayat_rows_df]) and the Penjelasan filter ([drop_penjelasan_df]).

    Python strings are sequences of Unicode code points: a character is an
    [N], a string a [list N].  The regular expressions of the source are
    written as terms of a small regex syntax and run by a backtracking
    matcher with CPython's priorities (greedy repetition, left alternative
    first, leftmost match). *)

From Stdlib Require Import Ascii String.
From Stdlib Require Import NArith Arith Bool Lia List Sorted.
Import ListNotations.
Local Open Scope N_scope.
Local Open Scope list_scope.

Set Implicit Arguments.

(** ** Characters and strings *)

Definition char := N.
Definition str := list char.

(** An ASCII literal as a Python string. *)
Definition py (s : string) : str :=
  List.map N_of_ascii (list_ascii_of_string s).

Definition NUL : char := 0.
Definition TAB : char := 9.
Definition LF : char := 10.
Definition CR : char := 13.
Definition SP : char := 32.
Definition ELLIPSIS : char := 8230.   (* U+2026 *)

Definition in_range (lo hi c : char) : bool := (lo <=? c) && (c <=? hi).

Fixpoint str_eqb (a b : str) : bool :=
  match a, b with
  | [], [] => true
  | x :: a', y :: b' => (x =? y) && str_eqb a' b'
  | _, _ => false
  end.

(** [str.isspace] of one character, which is also the class [\s] of a
    [str] pattern: the characters CPython's [_PyUnicode_IsWhitespace]
    accepts. *)
Definition isspace (c : char) : bool :=
  in_range 9 13 c || in_range 28 31 c || (c =? 32) || (c =? 133)
  || (c =? 160) || (c =? 5760) || in_range 8192 8202 c || (c =? 8232)
  || (c =? 8233) || (c =? 8239) || (c =? 8287) || (c =? 12288).

(** The line boundaries of [str.splitlines]. *)
Definition is_linebreak (c : char) : bool :=
  in_range 10 13 c || in_range 28 30 c || (c =? 133) || (c =? 8232)
  || (c =? 8233).

Fixpoint dropwhile (p : char -> bool) (s : str) : str :=
  match s with
  | c :: t => if p c then dropwhile p t else s
  | [] => []
  end.

Definition lstrip (s : str) : str := dropwhile isspace s.
Definition rstrip (s : str) : str := rev (dropwhile isspace (rev s)).
Definition strip (s : str) : str := lstrip (rstrip s).

(** [a.startswith(p)] and [p in a]. *)
Fixpoint startswith (s p : str) : bool :=
  match p, s with
  | [], _ => true
  | x :: p', y :: s' => (x =? y) && startswith s' p'
  | _ :: _, [] => false
  end.

Fixpoint contains (s p : str) : bool :=
  startswith s p ||
  match s with
  | [] => false
  | _ :: t => contains t p
  end.

(** [range(start, stop, step)] for a positive step. *)
Fixpoint range_aux (n start step : nat) : list nat :=
  match n with
  | O => []
  | S k => start :: range_aux k (start + step) step
  end.

Definition range (start stop step : nat) : list nat :=
  range_aux ((stop - start + step - 1) / step) start step.

(** ** The Unicode database of the runtime

    [\d], [re.IGNORECASE], [unicodedata.normalize], [str.lower] and
    [str.upper] read the interpreter's Unicode tables, which are no part of
    this program.  They are the fields of a class; theorems hold for every
    database (under the laws they name), and [latin] below is a fragment
    of the real tables on which the functions can be run. *)

Inductive form := NFC | NFKC.

Class Unicode := {
  isdecimal : char -> bool;          (* [\d]: category Nd *)
  caseless : char -> char -> bool;   (* text char vs pattern char under (?i) *)
  normalize : form -> str -> str;    (* [unicodedata.normalize] *)
  lower : str -> str;                (* [str.lower] *)
  upper : str -> str                 (* [str.upper] *)
}.

(** ** Regular expressions

    The fragment of [re] syntax the program uses.  Repetition is over a
    character class only ([\s*], [\d+], [.*], [\n{4,}], ...).  [Bol] and
    [Eol] are [^] and [$] of a MULTILINE pattern, [Eos] is [$] without
    that flag. *)

Inductive re : Type :=
| Eps
| Cls (p : char -> bool)
| Star (p : char -> bool)
| Seq (a b : re)
| Alt (a b : re)
| Grp (i : nat) (a : re)
| Bol
| Eol
| Eos.

Definition Plus (p : char -> bool) : re := Seq (Cls p) (Star p).
Definition Opt (p : char -> bool) : re := Alt (Cls p) Eps.
Fixpoint AtLeast (n : nat) (p : char -> bool) : re :=
  match n with
  | O => Star p
  | S k => Seq (Cls p) (AtLeast k p)
  end.
Definition Chr (c : char) : re := Cls (N.eqb c).
Fixpoint Seqs (l : list re) : re :=
  match l with
  | [] => Eps
  | [a] => a
  | a :: l' => Seq a (Seqs l')
  end.

Definition is_lf (c : char) : bool := c =? LF.

(** Captured groups: group number and captured text, latest first. *)
Definition caps := list (nat * str).

Definition group (i : nat) (cs : caps) : option str :=
  option_map snd (find (fun e => Nat.eqb (fst e) i) cs).

(** [m.group(i)], the empty string for [None] *)
Definition group_or_empty (i : nat) (cs : caps) : str :=
  match group i cs with
  | Some x => x
  | None => []
  end.

Section Matcher.
Variable R : Type.

(** A continuation receives: is the cursor at a line start, the text
    still ahead, and the groups captured so far. *)
Definition cont := bool -> str -> caps -> option R.

(** Greedy [p*]: take the longest run, give characters back one by one
    while the continuation fails. *)
Fixpoint star (p : char -> bool) (k : cont) (b : bool) (s : str)
    (cs : caps) : option R :=
  match s with
  | c :: t =>
      if p c then
        match star p k (is_lf c) t cs with
        | Some r => Some r
        | None => k b s cs
        end
      else k b s cs
  | [] => k b s cs
  end.

Fixpoint run (r : re) (b : bool) (s : str) (cs : caps) (k : cont)
    : option R :=
  match r with
  | Eps => k b s cs
  | Cls p =>
      match s with
      | c :: t => if p c then k (is_lf c) t cs else None
      | [] => None
      end
  | Star p => star p k b s cs
  | Seq r1 r2 => run r1 b s cs (fun b1 s1 cs1 => run r2 b1 s1 cs1 k)
  | Alt r1 r2 =>
      match run r1 b s cs k with
      | Some x => Some x
      | None => run r2 b s cs k
      end
  | Grp i r1 =>
      run r1 b s cs
        (fun b1 s1 cs1 =>
           k b1 s1 ((i, firstn (length s - length s1) s) :: cs1))
  | Bol => if b then k b s cs else None
  | Eol =>
      match s with
      | [] => k b s cs
      | c :: _ => if is_lf c then k b s cs else None
      end
  | Eos =>
      match s with
      | [] => k b s cs
      | [c] => if is_lf c then k b s cs else None
      | _ => None
      end
  end.
End Matcher.

(** [pattern.match] at a cursor: the length of the match and its groups.
    [b] says whether the cursor is at the start of the text or just after
    a line feed (where [^] of a MULTILINE pattern matches). *)
Definition match_at (r : re) (b : bool) (s : str) : option (nat * caps) :=
  run r b s [] (fun _ s1 cs => Some ((length s - length s1)%nat, cs)).

(** ** Scanning a text for successive matches

    [finditer], [split] and [sub] share one left-to-right scan: the
    leftmost match from the current position, then on from its end.  The
    scan yields the text as alternating gaps and hits, first and last a
    gap.  No pattern of this program matches the empty string (lemma
    [patterns_nonempty] below); for such a match the scan records the
    hit and moves one character on. *)

Inductive piece :=
| Gap (s : str)
| Hit (m : str) (g : caps).

Fixpoint scan (r : re) (skip : nat) (b : bool) (gap : str) (s : str)
    : list piece :=
  match s with
  | [] => [Gap (rev gap)]
  | c :: t =>
      match skip with
      | S k => scan r k (is_lf c) [] t
      | O =>
          match match_at r b s with
          | Some (S n, g) =>
              Gap (rev gap) :: Hit (firstn (S n) s) g
                :: scan r n (is_lf c) [] t
          | Some (O, g) =>
              Gap (rev gap) :: Hit [] g :: scan r 0 (is_lf c) [c] t
          | None => scan r 0 (is_lf c) (c :: gap) t
          end
      end
  end.

Definition pieces (r : re) (s : str) : list piece := scan r 0 true [] s.

Definition piece_text (p : piece) : str :=
  match p with
  | Gap s => s
  | Hit m _ => m
  end.

(** [pattern.sub(repl, s)] for a replacement without group references. *)
Definition re_sub (r : re) (repl : str) (s : str) : str :=
  concat (List.map (fun p => match p with Gap g => g | Hit _ _ => repl end)
            (pieces r s)).

(** [pattern.split(s)] for a pattern with one group: the gaps, and
    between them the text of group 1 (the empty string stands for a
    group that took no part, which the [or] of the source makes of it
    anyway). *)
Definition re_split (r : re) (s : str) : list str :=
  List.map (fun p => match p with
                     | Gap g => g
                     | Hit _ cs => group_or_empty 1 cs
                     end) (pieces r s).

(** [pattern.finditer(s)]: start offset, matched text and groups. *)
Record rmatch := { m_start : nat; m_text : str; m_groups : caps }.

Fixpoint hits_from (pos : nat) (ps : list piece) : list rmatch :=
  match ps with
  | [] => []
  | Gap g :: ps' => hits_from (pos + length g) ps'
  | Hit m cs :: ps' =>
      {| m_start := pos; m_text := m; m_groups := cs |}
        :: hits_from (pos + length m) ps'
  end.

Definition finditer (r : re) (s : str) : list rmatch :=
  hits_from 0 (pieces r s).

(** ** The patterns of [main.py] *)

Section Patterns.
Context {U : Unicode}.

Definition ws : char -> bool := isspace.
Definition digit : char -> bool := isdecimal.
(** A literal character under [(?i)]. *)
Definition ichr (c : char) : re := Cls (fun x => caseless x c).
(** A set of characters under [(?i)]. *)
Definition iset (l : str) : char -> bool :=
  fun x => existsb (caseless x) l.
Definition iword (w : str) : re := Seqs (List.map ichr w).

(** [AYAT_SPLIT_RE = \(\s*(\d+)\s*\)] *)
Definition AYAT_SPLIT_RE : re :=
  Seqs [Chr 40; Star ws; Grp 1 (Plus digit); Star ws; Chr 41].
End Patterns.

(** A fragment of the Unicode tables, exact on ASCII text and on the
    compatibility characters listed in [nfkc_char]: ASCII and fullwidth
    digits are decimal, case is folded on ASCII letters, NFC changes
    nothing (the fragment has no combining marks), NFKC maps each
    compatibility character to its compatibility equivalent. *)
Module Latin.
Definition fold (c : char) : char :=
  if in_range 65 90 c then c + 32 else c.
Definition unfold (c : char) : char :=
  if in_range 97 122 c then c - 32 else c.

Definition nfkc_char (c : char) : str :=
  if in_range 65281 65374 c then [c - 65248]     (* fullwidth forms *)
  else if (c =? 160) || in_range 8192 8202 c || (c =? 8239)
          || (c =? 8287) || (c =? 12288) then [SP] (* space variants *)
  else if c =? ELLIPSIS then [46; 46; 46]
  else if c =? 64257 then [102; 105]              (* ligature fi *)
  else [c].

Definition normalize (f : form) (s : str) : str :=
  match f with
  | NFC => s
  | NFKC => flat_map nfkc_char s
  end.
End Latin.

#[export] Instance latin : Unicode := {|
  isdecimal := fun c => in_range 48 57 c || in_range 65296 65305 c;
  caseless := fun x c => Latin.fold x =? Latin.fold c;
  normalize := Latin.normalize;
  lower := List.map Latin.fold;
  upper := List.map Latin.unfold
|}.

(** ** Records

    A row of the DataFrame, or a dict of [build_records_per_pdf]. *)

Record record := {
  uu_code : str;
  uu_name : str;
  uu_number : str;
  year : N;
  section_type : str;
  title : str;
  pasal_number : str;
  ayat_number : option str;
  buku : option str;
  bab : option str;
  bagian : option str;
  valid_from : option str;
  valid_to : option str;
  source_file : str;
  text : str
}.

Definition set_ayat (r : record) (ay body : str) : record :=
  {| uu_code := uu_code r; uu_name := uu_name r; uu_number := uu_number r;
     year := year r; section_type := py "AYAT"; title := title r;
     pasal_number := pasal_number r; ayat_number := Some ay;
     buku := buku r; bab := bab r; bagian := bagian r;
     valid_from := valid_from r; valid_to := valid_to r;
     source_file := source_file r; text := body |}.

(** ** STEP 5: [explode_ayat_rows_df] *)

Section Explode.
Context {U : Unicode}.

(** [pd.isna(x)], or [str(x)] empty or [nan], for the [ayat_number]
    cell. *)
Definition ayat_empty (a : option str) : bool :=
  match a with
  | None => true
  | Some s => str_eqb s [] || str_eqb s (py "nan")
  end.

Definition is_pasal_row (r : record) : bool :=
  str_eqb (upper (section_type r)) (py "PASAL") && ayat_empty (ayat_number r).

(** The loop [for i in range(1, len(parts), 2)]; [None] is an
    [IndexError] of [parts[i]] or [parts[i+1]]. *)
Fixpoint explode_loop (r : record) (parts : list str) (idx : list nat)
    : option (list record) :=
  match idx with
  | [] => Some []
  | i :: idx' =>
      match nth_error parts i, nth_error parts (i + 1) with
      | Some p, Some q =>
          let ay := strip p in
          let body := strip q in
          match explode_loop r parts idx' with
          | Some rows =>
              Some (match body with
                    | [] => rows
                    | _ :: _ => set_ayat r ay body :: rows
                    end)
          | None => None
          end
      | _, _ => None
      end
  end.

(** The rows one input row contributes. *)
Definition explode_row (r : record) : option (list record) :=
  let t := strip (text r) in
  if is_pasal_row r then
    let parts := re_split AYAT_SPLIT_RE t in
    if (1 <? length parts)%nat then
      explode_loop r parts (range 1 (length parts) 2)
    else Some [r]
  else Some [r].

Fixpoint explode_ayat_rows_df (df : list record) : option (list record) :=
  match df with
  | [] => Some []
  | r :: df' =>
      match explode_row r, explode_ayat_rows_df df' with
      | Some a, Some b => Some (a ++ b)
      | _, _ => None
      end
  end.
End Explode.

(** ** STEP 3: [minimal_clean] *)

(** [s.splitlines()]: [\r\n] is one boundary, and a final boundary opens
    no further line. *)
Fixpoint splitlines_aux (cur : str) (s : str) : list str :=
  match s with
  | [] => match cur with [] => [] | _ :: _ => [rev cur] end
  | c :: t =>
      if is_linebreak c then
        match t with
        | d :: t' =>
            if (c =? CR) && (d =? LF) then rev cur :: splitlines_aux [] t'
            else rev cur :: splitlines_aux [] t
        | [] => [rev cur]
        end
      else splitlines_aux (c :: cur) t
  end.

Definition splitlines (s : str) : list str := splitlines_aux [] s.

(** [sep.join(l)] *)
Fixpoint join (sep : str) (l : list str) : str :=
  match l with
  | [] => []
  | [a] => a
  | a :: l' => a ++ sep ++ join sep l'
  end.

Definition blank (c : char) : bool := (c =? SP) || (c =? TAB).

Section Clean.
Context {U : Unicode}.

(** [-\n\s*] *)
Definition HYPHEN_RE : re := Seqs [Chr 45; Chr LF; Star ws].
(** [\s*\.\s*\.\s*\.\s*] *)
Definition DOTS_RE : re :=
  Seqs [Star ws; Chr 46; Star ws; Chr 46; Star ws; Chr 46; Star ws].
(** [\n{4,}] *)
Definition NEWLINES_RE : re := AtLeast 4 is_lf.
(** [[ \t]{2,}] *)
Definition BLANKS_RE : re := AtLeast 2 blank.

Definition remove_nul (t : str) : str :=
  filter (fun c => negb (c =? NUL)) t.

Definition rstrip_lines (t : str) : str :=
  join [LF] (List.map rstrip (splitlines t)).

(** The body of [minimal_clean] for a string ([None] is returned as it
    is; every call of the program passes a string). *)
Definition minimal_clean (t : str) : str :=
  let t := remove_nul t in
  let t := normalize NFKC t in
  let t := re_sub HYPHEN_RE [] t in
  let t := re_sub DOTS_RE [ELLIPSIS] t in
  let text := rstrip_lines t in
  let text := re_sub NEWLINES_RE [LF; LF] text in
  let text := re_sub BLANKS_RE [SP] text in
  strip text.
End Clean.

(** [txt.replace(CR, empty)] *)
Definition remove_cr (t : str) : str := filter (fun c => negb (c =? CR)) t.

(** [x or empty]: [None] and the empty string give the empty string. *)
Definition or_empty (o : option str) : str :=
  match o with
  | Some s => s
  | None => []
  end.

Definition extract_with_pypdf (pages : list (option str)) : str :=
  join [LF] (List.map (fun p => remove_cr (or_empty p)) pages).

Definition extract_with_pdfminer (raw : option str) : str :=
  remove_cr (or_empty raw).

(** The [try] around [_extract_with_pypdf]: an exception gives the
    empty text. *)
Definition try_pypdf (pypdf : option (list (option str))) : str :=
  match pypdf with
  | Some pages => extract_with_pypdf pages
  | None => []
  end.

Definition read_pdf_text (pypdf : option (list (option str)))
    (pdfminer : option (option str)) : str :=
  let txt := try_pypdf pypdf in
  if (length txt <? 500)%nat then
    match pdfminer with
    | Some raw =>
        let alt := extract_with_pdfminer raw in
        if (length txt <? length alt)%nat then alt else txt
    | None => txt
    end
  else txt.

(** ** STEP 2: [detect_structure] *)

Definition letters : str :=
  py "ABCDEFGHIJKLMNOPQRSTUVWXYZabcdefghijklmnopqrstuvwxyz".

Definition dot (c : char) : bool := negb (is_lf c).

(** A block of [detect_structure]; a tag is the triple
    [(kind, label, title)] of a BUKU, BAB or Bagian line. *)
Definition tag := (str * str * str)%type.

Record block := {
  b_pasal_number : str;
  b_text : str;
  b_buku : option tag;
  b_bab : option tag;
  b_bagian : option tag
}.

Section Structure.
Context {U : Unicode}.

(** [(?im)^\s*Pasal\s+((\d+[A-Za-z]?)|([IVXLCM]+))\s*$] *)
Definition PASAL_ANY_RE : re :=
  Seqs [Bol; Star ws; iword (py "Pasal"); Plus ws;
        Grp 1 (Alt (Grp 2 (Seq (Plus digit) (Opt (iset letters))))
                   (Grp 3 (Plus (iset (py "IVXLCM")))));
        Star ws; Eol].

(** [(?im)^\s*<word>\s+([<numerals>]+)\s*(<rest>)$], where [<rest>]
    is any run of characters other than a line feed. *)
Definition heading_re (word numerals : str) : re :=
  Seqs [Bol; Star ws; iword word; Plus ws; Grp 1 (Plus (iset numerals));
        Star ws; Grp 2 (Star dot); Eol].

Definition BUKU_RE : re := heading_re (py "BUKU") (py "IVXLC").
Definition BAB_RE : re := heading_re (py "BAB") (py "IVXLC").
Definition BAGIAN_RE : re := heading_re (py "Bagian") (py "0123456789IVXLC").

(** [(?im)^\s*Pasal\s+] + [re.escape(pasal_label)] + [\s*$]: the label is
    made of digits and letters, which [re.escape] leaves as literals. *)
Definition header_re (label : str) : re :=
  Seqs [Bol; Star ws; iword (py "Pasal"); Plus ws; iword label;
        Star ws; Eol].

(** [[ \t]+] *)
Definition BLANK_RUN_RE : re := Plus blank.

(** The marks of one kind: for each line the pattern matches, the
    line's offset and its tag.  [pos] is [line_starts[i]]. *)
Fixpoint marks_of (kind : str) (r : re) (pos : nat) (lines : list str)
    : list (nat * tag) :=
  match lines with
  | [] => []
  | ln :: lines' =>
      let rest := marks_of kind r (pos + length ln + 1) lines' in
      match match_at r true ln with
      | Some (_, cs) =>
          (pos, (kind, strip (group_or_empty 1 cs),
                 strip (group_or_empty 2 cs))) :: rest
      | None => rest
      end
  end.

Fixpoint nearest_tag_from (prev : option tag) (idx : nat)
    (marks : list (nat * tag)) : option tag :=
  match marks with
  | [] => prev
  | (p, t) :: marks' =>
      if (p <=? idx)%nat then nearest_tag_from (Some t) idx marks'
      else prev
  end.

Definition nearest_tag (idx : nat) (marks : list (nat * tag)) : option tag :=
  nearest_tag_from None idx marks.

(** [full_text[start:end]] *)
Definition slice (s : str) (start stop : nat) : str :=
  firstn (stop - start) (skipn start s).

(** Lines 109-111: the text of a block from its span. *)
Definition block_text (label span : str) : str :=
  let body := strip span in
  let body := strip (re_sub (header_re label) [] body) in
  re_sub BLANK_RUN_RE [SP] body.

(** The loop over [enumerate(matches)]: [ms] are the matches from the
    current one on. *)
Fixpoint blocks_of (full_text : str) (bukus babs bagians : list (nat * tag))
    (ms : list rmatch) : list block :=
  match ms with
  | [] => []
  | m :: ms' =>
      let start := m_start m in
      let stop := match ms' with
                  | m' :: _ => m_start m'
                  | [] => length full_text
                  end in
      let pasal_label := strip (group_or_empty 1 (m_groups m)) in
      {| b_pasal_number := pasal_label;
         b_text := block_text pasal_label (slice full_text start stop);
         b_buku := nearest_tag start bukus;
         b_bab := nearest_tag start babs;
         b_bagian := nearest_tag start bagians |}
        :: blocks_of full_text bukus babs bagians ms'
  end.

Definition detect_structure (full_text : str) : list block :=
  let lines := splitlines full_text in
  blocks_of full_text
    (marks_of (py "BUKU") BUKU_RE 0 lines)
    (marks_of (py "BAB") BAB_RE 0 lines)
    (marks_of (py "BAGIAN") BAGIAN_RE 0 lines)
    (finditer PASAL_ANY_RE full_text).

(** The offsets [(start, end)] of the blocks, as the loop computes
    them. *)
Fixpoint spans_of (n : nat) (ms : list rmatch) : list (nat * nat) :=
  match ms with
  | [] => []
  | m :: ms' =>
      (m_start m, match ms' with
                  | m' :: _ => m_start m'
                  | [] => n
                  end) :: spans_of n ms'
  end.

Definition block_spans (full_text : str) : list (nat * nat) :=
  spans_of (length full_text) (finditer PASAL_ANY_RE full_text).
End Structure.

(** ** STEP 4: [build_records_per_pdf] *)

(** An entry of [PDF_FILES]; [c_source_file] is [Path(cfg["pdf"]).name]. *)
Record config := {
  c_uu_code : str;
  c_uu_name : str;
  c_uu_number : str;
  c_year : N;
  c_valid_from : option str;
  c_valid_to : option str;
  c_source_file : str
}.

(** [tag[1] if tag else None] *)
Definition tag_label (t : option tag) : option str :=
  match t with
  | Some (_, label, _) => Some label
  | None => None
  end.

Section Build.
Context {U : Unicode}.

Definition build_record (cfg : config) (blk : block) : record :=
  let pasal := b_pasal_number blk in
  let cleaned := minimal_clean (b_text blk) in
  {| uu_code := c_uu_code cfg;
     uu_name := c_uu_name cfg;
     uu_number := c_uu_number cfg;
     year := c_year cfg;
     section_type := py "PASAL";
     title := py "Pasal " ++ pasal;
     pasal_number := pasal;
     ayat_number := None;
     buku := tag_label (b_buku blk);
     bab := tag_label (b_bab blk);
     bagian := tag_label (b_bagian blk);
     valid_from := c_valid_from cfg;
     valid_to := c_valid_to cfg;
     source_file := c_source_file cfg;
     text := cleaned |}.

(** The loop [for blk in blocks]. *)
Fixpoint build_loop (cfg : config) (blocks : list block) : list record :=
  match blocks with
  | [] => []
  | blk :: blocks' => build_record cfg blk :: build_loop cfg blocks'
  end.

(** [build_records_per_pdf], from the text [read_pdf_text] returned. *)
Definition build_records_per_pdf (cfg : config) (raw_text : str)
    : list record :=
  match raw_text with
  | [] => []
  | _ :: _ =>
      match strip raw_text with
      | [] => []
      | _ :: _ => build_loop cfg (detect_structure raw_text)
      end
  end.
End Build.

(** ** STEP 6: [drop_penjelasan_df] *)

Section Filter.
Context {U : Unicode}.

Definition is_penjelasan (row : record) : bool :=
  let t := lower (strip (text row)) in
  let ti := lower (title row) in
  if startswith t (py "cukup jelas") then true
  else if contains ti (py "penjelasan") then true
  else false.

(** [df[~mask]] keeps the rows whose mask is false, in their order. *)
Fixpoint drop_penjelasan_df (df : list record) : list record :=
  match df with
  | [] => []
  | row :: df' =>
      if is_penjelasan row then drop_penjelasan_df df'
      else row :: drop_penjelasan_df df'
  end.
End Filter.

(** ** The main flow *)

(** [\.0$] *)
Definition DOT_ZERO_RE : re := Seqs [Chr 46; Chr 48; Eos].

(** [astype(str)] of a cell of an object column. *)
Definition astype_str (a : option str) : str :=
  match a with
  | Some s => s
  | None => py "None"
  end.

Definition set_numbers (r : record) (p : str) (a : option str) : record :=
  {| uu_code := uu_code r; uu_name := uu_name r; uu_number := uu_number r;
     year := year r; section_type := section_type r; title := title r;
     pasal_number := p; ayat_number := a;
     buku := buku r; bab := bab r; bagian := bagian r;
     valid_from := valid_from r; valid_to := valid_to r;
     source_file := source_file r; text := text r |}.

Section Main.
Context {U : Unicode}.

(** Lines 253-256: both number columns as strings without a final
    [.0]. *)
Definition normalize_numbers (r : record) : record :=
  set_numbers r
    (re_sub DOT_ZERO_RE [] (pasal_number r))
    (Some (re_sub DOT_ZERO_RE [] (astype_str (ayat_number r)))).

Fixpoint all_records (docs : list (config * str)) : list record :=
  match docs with
  | [] => []
  | (cfg, raw_text) :: docs' =>
      build_records_per_pdf cfg raw_text ++ all_records docs'
  end.

(** [main], from the texts of the documents to the rows handed to
    [write_jsonl_from_df]; [None] is an [IndexError] of the explosion. *)
Definition pipeline (docs : list (config * str)) : option (list record) :=
  match all_records docs with
  | [] => Some []
  | recs =>
      match explode_ayat_rows_df recs with
      | Some df => Some (drop_penjelasan_df (List.map normalize_numbers df))
      | None => None
      end
  end.
End Main.

(** ** Sample inputs *)

Definition cfgX : config :=
  {| c_uu_code := py "X"; c_uu_name := py "N"; c_uu_number := py "1";
     c_year := 2023; c_valid_from := None; c_valid_to := None;
     c_source_file := py "x.pdf" |}.

(** Lines joined by line feeds. *)
Definition doc (l : list string) : str := join [LF] (List.map py l).

(** * The words of the statements

    Relations, predicates and sample values the lemmas and theorems
    below are stated with, and the tactics their proofs share. *)

(** What a pattern can match: [rm r b s b' s'] says that [r], started at
    the text [s] (at a line start iff [b]), can stop with [s'] still
    ahead (at a line start iff [b']). *)
Inductive rm : re -> bool -> str -> bool -> str -> Prop :=
| rm_eps b s : rm Eps b s b s
| rm_cls p b c t : p c = true -> rm (Cls p) b (c :: t) (is_lf c) t
| rm_star0 p b s : rm (Star p) b s b s
| rm_starS p b c t b' s' :
    p c = true -> rm (Star p) (is_lf c) t b' s' -> rm (Star p) b (c :: t) b' s'
| rm_seq r1 r2 b s b1 s1 b2 s2 :
    rm r1 b s b1 s1 -> rm r2 b1 s1 b2 s2 -> rm (Seq r1 r2) b s b2 s2
| rm_altl r1 r2 b s b' s' : rm r1 b s b' s' -> rm (Alt r1 r2) b s b' s'
| rm_altr r1 r2 b s b' s' : rm r2 b s b' s' -> rm (Alt r1 r2) b s b' s'
| rm_grp i r b s b' s' : rm r b s b' s' -> rm (Grp i r) b s b' s'
| rm_bol s : rm Bol true s true s
| rm_eol_end b : rm Eol b [] b []
| rm_eol_lf b c t : is_lf c = true -> rm Eol b (c :: t) b (c :: t)
| rm_eos_end b : rm Eos b [] b []
| rm_eos_lf b c : is_lf c = true -> rm Eos b [c] b [c].

#[local] Hint Constructors rm : core.

(** The line-start flag after a cursor has moved over [m]. *)
Definition bol_after (b : bool) (m : str) : bool :=
  fold_left (fun _ c => is_lf c) m b.

(** Every class of the pattern accepts only characters of [P]. *)
Fixpoint re_within (P : char -> Prop) (r : re) : Prop :=
  match r with
  | Cls p | Star p => forall c, p c = true -> P c
  | Seq a b | Alt a b => re_within P a /\ re_within P b
  | Grp _ a => re_within P a
  | Eps | Bol | Eol | Eos => True
  end.

(** The pattern consumes at least one character. *)
Fixpoint re_nonempty (r : re) : bool :=
  match r with
  | Cls _ => true
  | Seq a b => re_nonempty a || re_nonempty b
  | Alt a b => re_nonempty a && re_nonempty b
  | Grp _ a => re_nonempty a
  | Eps | Star _ | Bol | Eol | Eos => false
  end.

(** The text a list of pieces stands for, once each hit is rendered by
    [h]. *)
Definition render (h : str -> caps -> str) (ps : list piece) : str :=
  concat (List.map (fun p => match p with
                             | Gap g => g
                             | Hit m cs => h m cs
                             end) ps).

(** [re.sub] by [repl] on the text from a cursor on, the first [k]
    characters belonging to a match already replaced. *)
Definition sub_from (r : re) (repl : str) (k : nat) (b : bool) (s : str)
    : str :=
  render (fun _ _ => repl) (scan r k b [] s).

(** Boolean character tests as arithmetic. *)
Ltac chars :=
  unfold isspace, is_linebreak, blank, is_lf, dot, in_range,
    NUL, TAB, LF, CR, SP, ELLIPSIS in *;
  repeat match goal with
  | H : _ = true |- _ =>
      rewrite ?orb_true_iff, ?andb_true_iff, ?negb_true_iff,
        ?N.leb_le, ?N.eqb_eq, ?N.eqb_neq in H
  | H : _ = false |- _ =>
      rewrite ?orb_false_iff, ?andb_false_iff, ?negb_false_iff,
        ?N.leb_gt, ?N.eqb_eq, ?N.eqb_neq in H
  end;
  rewrite ?orb_true_iff, ?andb_true_iff, ?negb_true_iff, ?orb_false_iff,
    ?andb_false_iff, ?negb_false_iff, ?N.leb_le, ?N.leb_gt, ?N.eqb_eq,
    ?N.eqb_neq;
  try lia.

(** Unfolds a pattern into its classes, one goal per class. *)
Ltac within :=
  unfold re_within, Seqs, AtLeast, Plus, Opt, Chr; repeat split;
  let c := fresh "c" in let H := fresh "H" in intros c H.

(** The characters some step of [minimal_clean] may remove or rewrite on
    its own: whitespace, the hyphen, the full stop and NUL. *)
Definition touchable (c : char) : Prop :=
  isspace c = true \/ c = 45 \/ c = 46 \/ c = NUL.

Definition inert (c : char) : Prop := ~ touchable c.

(** A marker as the program's own comments write it: [(], ASCII digits,
    [)], nothing in between. *)
Definition ascii_marker (m : str) : Prop :=
  exists ds, ds <> [] /\ Forall (fun d => in_range 48 57 d = true) ds
             /\ m = 40 :: ds ++ [41].

Section NormalisationWords.
Context {U : Unicode}.

(** Unicode normalisation leaves the run [m] in place, whatever is
    around it. *)
Definition nfkc_keeps (m : str) : Prop :=
  forall a z, exists a' z', normalize NFKC (a ++ m ++ z) = a' ++ m ++ z'.

End NormalisationWords.

(** Gaps and hits alternate, from a gap to a gap. *)
Inductive shaped : list piece -> Prop :=
| shaped_end g : shaped [Gap g]
| shaped_hit g m cs ps : shaped ps -> shaped (Gap g :: Hit m cs :: ps).

Definition hit_nonempty (p : piece) : Prop :=
  match p with
  | Hit m _ => m <> []
  | Gap _ => True
  end.

Ltac inv H := inversion H; subst; clear H.

(** The strings a pattern matches, anchors left aside. *)
Fixpoint lang (r : re) (m : str) : Prop :=
  match r with
  | Eps | Bol | Eol | Eos => m = []
  | Cls p => exists c, m = [c] /\ p c = true
  | Star p => Forall (fun c => p c = true) m
  | Seq a b => exists m1 m2, m = m1 ++ m2 /\ lang a m1 /\ lang b m2
  | Alt a b => lang a m \/ lang b m
  | Grp _ a => lang a m
  end.

Fixpoint anchor_free (r : re) : bool :=
  match r with
  | Eps | Cls _ | Star _ => true
  | Seq a b | Alt a b => anchor_free a && anchor_free b
  | Grp _ a => anchor_free a
  | Bol | Eol | Eos => false
  end.

Section MarkerWords.
Context {U : Unicode}.

(** The marker pattern in words: [(], optional whitespace, one or more
    digits, optional whitespace, [)]. *)
Definition is_marker (m : str) : Prop :=
  exists w1 ds w2,
    Forall (fun c => isspace c = true) w1 /\ ds <> []
    /\ Forall (fun c => isdecimal c = true) ds
    /\ Forall (fun c => isspace c = true) w2
    /\ m = 40 :: w1 ++ ds ++ w2 ++ [41].

(** The text has a substring that matches the marker pattern. *)
Definition has_marker (t : str) : Prop :=
  exists a m z, t = a ++ m ++ z /\ is_marker m.

End MarkerWords.

(** Each hit with the gap that follows it: the captured number and the
    run up to the next marker. *)
Fixpoint pairs_of (ps : list piece) : list (str * str) :=
  match ps with
  | [] => []
  | Hit _ cs :: ((Gap g :: _) as ps') => (group_or_empty 1 cs, g) :: pairs_of ps'
  | _ :: ps' => pairs_of ps'
  end.

(** The Ayat rows of a list of pairs: runs that are empty once stripped
    give no row. *)
Definition child (r : record) (p : str * str) : list record :=
  match strip (snd p) with
  | [] => []
  | _ :: _ => [set_ayat r (strip (fst p)) (strip (snd p))]
  end.

Definition children (r : record) (prs : list (str * str)) : list record :=
  flat_map (child r) prs.

Definition flat_pairs (prs : list (str * str)) : list str :=
  flat_map (fun p => [fst p; snd p]) prs.

Definition split_field (p : piece) : str :=
  match p with
  | Gap g => g
  | Hit _ cs => group_or_empty 1 cs
  end.

Section RunWords.
Context {U : Unicode}.

(** The runs of text after the markers of [t]. *)
Definition runs (t : str) : list str :=
  List.map snd (pairs_of (pieces AYAT_SPLIT_RE t)).

End RunWords.

(** A Pasal row as [build_records_per_pdf] makes it. *)
Definition pasal_row (t : str) : record :=
  {| uu_code := py "X"; uu_name := py "N"; uu_number := py "1"; year := 2023;
     section_type := py "PASAL"; title := py "Pasal 1";
     pasal_number := py "1"; ayat_number := None;
     buku := None; bab := None; bagian := None;
     valid_from := None; valid_to := None;
     source_file := py "x.pdf"; text := t |}.

Definition starts_before (a b : rmatch) : Prop := (m_start a < m_start b)%nat.

Definition span_slice (t : str) (p : nat * nat) : str :=
  firstn (snd p - fst p) (skipn (fst p) t).

Definition ends_before (a b : nat * nat) : Prop := (snd a <= fst b)%nat.

Definition starts_ascend (a b : nat * nat) : Prop := (fst a < fst b)%nat.

Definition block_1 : block :=
  {| b_pasal_number := py "1"; b_text := py "(1)  Setiap orang.";
     b_buku := None; b_bab := Some (py "BAB", py "I", py "KETENTUAN UMUM");
     b_bagian := None |}.

Section FilterWords.
Context {U : Unicode}.

(** What makes a row explanatory, in words: the lowercased title has
    ["penjelasan"] somewhere, or the stripped, lowercased text begins
    with ["cukup jelas"]. *)
Definition explanatory (row : record) : Prop :=
  (exists a z, lower (title row) = a ++ py "penjelasan" ++ z)
  \/ (exists z, lower (strip (text row)) = py "cukup jelas" ++ z).

End FilterWords.

Section CanonicalWords.
Context {U : Unicode}.

(** Modelled on the spec's words for step 2, "canonical-composition
    normalization": [minimal_clean] with NFC in the place of NFKC. *)
Definition minimal_clean_canonical (t : str) : str :=
  let t := remove_nul t in
  let t := normalize NFC t in
  let t := re_sub HYPHEN_RE [] t in
  let t := re_sub DOTS_RE [ELLIPSIS] t in
  let text := rstrip_lines t in
  let text := re_sub NEWLINES_RE [LF; LF] text in
  let text := re_sub BLANKS_RE [SP] text in
  strip text.

End CanonicalWords.

(** What becomes of a run of class characters: [repl] if it has [n]
    characters or more, itself otherwise. *)
Definition flush (n : nat) (repl held : str) : str :=
  if (n <=? length held)%nat then repl else held.

(** [re.sub] of [p{n,}] by [repl], as one pass that gathers the current
    run of [p] (in [held], latest first). *)
Fixpoint squeeze (p : char -> bool) (n : nat) (repl held s : str) : str :=
  match s with
  | [] => flush n repl (rev held)
  | c :: t =>
      if p c then squeeze p n repl (c :: held) t
      else flush n repl (rev held) ++ c :: squeeze p n repl [] t
  end.

Definition takewhile (p : char -> bool) : str -> str :=
  fix go s := match s with
              | c :: t => if p c then c :: go t else []
              | [] => []
              end.

(** Every maximal run of [p] in [s] is shorter than [n]; [cur] is the
    length of the run that [s] continues. *)
Fixpoint runs_below (p : char -> bool) (n cur : nat) (s : str) : Prop :=
  match s with
  | [] => (cur < n)%nat
  | c :: t =>
      if p c then runs_below p n (S cur) t
      else (cur < n)%nat /\ runs_below p n 0 t
  end.

(** No whitespace other than a line feed stands right before a line
    feed; [prev] says whether such a character came last. *)
Fixpoint tidy (prev : bool) (s : str) : Prop :=
  match s with
  | [] => True
  | c :: t => (is_lf c = true -> prev = false)
              /\ tidy (isspace c && negb (is_lf c)) t
  end.

(** The two substitutions of the tail of [minimal_clean]. *)
Definition squeeze_newlines : str -> str := squeeze is_lf 4 [LF; LF] [].

Definition squeeze_blanks : str -> str := squeeze blank 2 [SP] [].

Definition nonbreak (l : str) : Prop :=
  Forall (fun c => is_linebreak c = false) l.

(** The only line boundary in the text is the line feed. *)
Definition only_lf (s : str) : Prop :=
  Forall (fun c => is_linebreak c = true -> c = LF) s.

(** The text does not end, or begin, with whitespace. *)
Definition ends_clean (s : str) : Prop :=
  match rev s with
  | [] => True
  | c :: _ => isspace c = false
  end.

Definition starts_clean (s : str) : Prop :=
  match s with
  | [] => True
  | c :: _ => isspace c = false
  end.

Definition ws_state (l : str) : bool :=
  fold_left (fun _ c => isspace c && negb (is_lf c)) l false.

(** Steps 5 to 8. *)
Definition clean_tail (t : str) : str :=
  strip (squeeze_blanks (squeeze_newlines (rstrip_lines t))).

(** An ASCII character other than the hyphen and the full stop. *)
Definition plain (c : char) : Prop :=
  (c <? 128) && negb (c =? 45) && negb (c =? 46) = true.

(** A plain text with trailing blanks, runs of blanks and five line
    feeds in a row. *)
Definition sample_plain : str :=
  join [LF] [py "Pasal  5 "; []; []; []; []; py " (1)  Setiap   orang berhak ";
             []].

(** ** Words of the further properties *)

(** [line_starts] of [detect_structure]: the offset the loop gives each
    line. *)
Fixpoint line_starts_from (pos : nat) (lines : list str) : list nat :=
  match lines with
  | [] => []
  | ln :: lines' => pos :: line_starts_from (pos + length ln + 1) lines'
  end.

(** The line [ln] stands in [t] at offset [pos]. *)
Definition located (t : str) (pos : nat) (ln : str) : Prop :=
  firstn (length ln) (skipn pos t) = ln.

Definition mark_before (a b : nat * tag) : Prop := (fst a < fst b)%nat.

(** The metadata a row has from its entry of [PDF_FILES]. *)
Definition row_origin (r : record) :=
  (uu_code r, uu_name r, uu_number r, year r,
   (valid_from r, valid_to r, source_file r)).

Definition config_origin (cfg : config) :=
  (c_uu_code cfg, c_uu_name cfg, c_uu_number cfg, c_year cfg,
   (c_valid_from cfg, c_valid_to cfg, c_source_file cfg)).

(** What [nearest_tag] returns for marks in ascending order: the tag of
    the mark with the greatest offset at or before [idx], and nothing
    exactly when every mark lies after [idx]. *)
Definition enclosing (idx : nat) (marks : list (nat * tag))
    (res : option tag) : Prop :=
  match res with
  | Some tg =>
      exists p, In (p, tg) marks /\ (p <= idx)%nat
                /\ forall p' tg', In (p', tg') marks -> (p' <= idx)%nat ->
                                  (p' <= p)%nat
  | None => forall p' tg', In (p', tg') marks -> (idx < p')%nat
  end.

Definition sample_statute : str :=
  doc ["BAB I"; "Pasal 1"; "satu"; "BAB II"; "Pasal 2"; "dua"]%string.

Section ExplodeWords.
Context {U : Unicode}.

(** [x] is an Ayat row of the Pasal row [r]: [r] with the section type
    AYAT, some [ayat_number], and as text one of the runs after the
    markers of [r], stripped and not empty. *)
Definition ayat_of (r x : record) : Prop :=
  is_pasal_row r = true
  /\ (exists ay, x = set_ayat r ay (text x))
  /\ text x <> []
  /\ exists held, In held (runs (strip (text r))) /\ text x = strip held.
End ExplodeWords.

Section MainWords.
Context {U : Unicode}.

(** The row [x] was made from a block of one of the documents: its
    metadata are the document's, its title, Pasal number and BUKU, BAB and
    Bagian labels the block's, and it is either the Pasal row of the
    block, with the cleaned text of the block, or an Ayat row with a
    stripped, non-empty run after a marker of that text. *)
Definition made_from (docs : list (config * str)) (x : record) : Prop :=
  exists cfg raw blk,
    In (cfg, raw) docs /\ strip raw <> [] /\ In blk (detect_structure raw)
    /\ row_origin x = config_origin cfg
    /\ title x = py "Pasal " ++ b_pasal_number blk
    /\ pasal_number x = re_sub DOT_ZERO_RE [] (b_pasal_number blk)
    /\ (buku x, bab x, bagian x)
       = (tag_label (b_buku blk), tag_label (b_bab blk),
          tag_label (b_bagian blk))
    /\ (section_type x = py "PASAL" /\ text x = minimal_clean (b_text blk)
        \/ section_type x = py "AYAT" /\ text x <> []
           /\ exists held, In held (runs (minimal_clean (b_text blk)))
                           /\ text x = strip held).
End MainWords.

(** What a match captures: [langc r m new] says that [r] can match the
    string [m] (anchors left aside) capturing the groups [new], latest
    first. *)
Fixpoint langc (r : re) (m : str) (new : caps) : Prop :=
  match r with
  | Eps | Bol | Eol | Eos => m = [] /\ new = []
  | Cls p => (exists c, m = [c] /\ p c = true) /\ new = []
  | Star p => Forall (fun c => p c = true) m /\ new = []
  | Seq a b =>
      exists m1 m2 n1 n2,
        m = m1 ++ m2 /\ langc a m1 n1 /\ langc b m2 n2 /\ new = n2 ++ n1
  | Alt a b => langc a m new \/ langc b m new
  | Grp i a => exists n1, langc a m n1 /\ new = (i, m) :: n1
  end.

Definition hit_langc (r : re) (p : piece) : Prop :=
  match p with
  | Hit m cs => langc r m cs
  | Gap _ => True
  end.

(** No match starts in the gap [g], which [rest] follows, from its
    character number [e] on. *)
Definition gap_fail (r : re) (e : nat) (g rest : str) : Prop :=
  forall a c s', g = a ++ c :: s' -> (e <= length a)%nat ->
                 exists b', match_at r b' (c :: s' ++ rest) = None.

Fixpoint gaps_fail (r : re) (e : nat) (ps : list piece) : Prop :=
  match ps with
  | [] => True
  | Gap g :: rest =>
      gap_fail r e g (render (fun m _ => m) rest) /\ gaps_fail r 0 rest
  | Hit _ _ :: rest => gaps_fail r 0 rest
  end.

Section LayoutWords.
Context {U : Unicode}.

(** [m] is a marker with the digits [ds]: [(], optional whitespace,
    [ds], optional whitespace, [)]. *)
Definition marker_of (ds m : str) : Prop :=
  exists w1 w2,
    Forall (fun c => isspace c = true) w1 /\ ds <> []
    /\ Forall (fun c => isdecimal c = true) ds
    /\ Forall (fun c => isspace c = true) w2
    /\ m = 40 :: w1 ++ ds ++ w2 ++ [41].

(** The text [z] is empty or begins with a marker. *)
Definition at_marker (z : str) : Prop :=
  z = [] \/ exists ds m z', marker_of ds m /\ z = m ++ z'.

(** [x] is the Ayat row of [r] for the marker [m] that stands in the
    stripped text of [r] right before the run [held]: its number are the
    digits of the marker, its text the run, stripped and not empty, and
    the run holds no marker and goes on to the next marker or to the end
    of the text. *)
Definition ayat_at (r x : record) : Prop :=
  exists a ds m held z,
    strip (text r) = a ++ m ++ held ++ z
    /\ marker_of ds m /\ ~ has_marker held /\ at_marker z
    /\ strip held <> []
    /\ x = set_ayat r (strip ds) (strip held).
End LayoutWords.

Fixpoint ends_eol (r : re) : bool :=
  match r with
  | Eol => true
  | Seq _ b => ends_eol b
  | Alt a b => ends_eol a && ends_eol b
  | Grp _ a => ends_eol a
  | _ => false
  end.

Fixpoint no_grp (r : re) : bool :=
  match r with
  | Grp _ _ => false
  | Seq a b | Alt a b => no_grp a && no_grp b
  | _ => true
  end.

(** The text [s] is at a line end: nothing is left, or a line feed
    comes next. *)
Definition at_line_end (s : str) : Prop :=
  match s with
  | [] => True
  | c :: _ => is_lf c = true
  end.

Definition spaces (w : str) : Prop := Forall (fun c => isspace c = true) w.

Section HeaderWords.
Context {U : Unicode}.

(** [kw] is the word [w], whatever the case of its letters. *)
Definition spelled (kw w : str) : Prop :=
  Forall2 (fun x c => caseless x c = true) kw w.

(** A Pasal label: digits with at most one letter after them, or a run
    of roman numeral letters. *)
Definition pasal_label (g : str) : Prop :=
  (exists ds l,
     g = ds ++ l /\ ds <> [] /\ Forall (fun c => isdecimal c = true) ds
     /\ (l = [] \/ exists c, l = [c] /\ iset letters c = true))
  \/ (g <> [] /\ Forall (fun c => iset (py "IVXLCM") c = true) g).

(** [hd] is a header with the label [g]: optional whitespace, the word
    Pasal, whitespace, [g], optional whitespace. *)
Definition pasal_header (g hd : str) : Prop :=
  exists w0 kw w1 w2,
    hd = w0 ++ kw ++ w1 ++ g ++ w2
    /\ spaces w0 /\ spelled kw (py "Pasal") /\ w1 <> [] /\ spaces w1
    /\ pasal_label g /\ spaces w2.

(** [ln] is a heading with the numeral [g] and the title [ti]: optional
    whitespace, the word, whitespace, [g], optional whitespace, [ti]. *)
Definition heading_line (word numerals g ti ln : str) : Prop :=
  exists w0 kw w1 w2,
    ln = w0 ++ kw ++ w1 ++ g ++ w2 ++ ti
    /\ spaces w0 /\ spelled kw word /\ w1 <> [] /\ spaces w1
    /\ g <> [] /\ Forall (fun c => iset numerals c = true) g /\ spaces w2.
End HeaderWords.

(** A hit [m] with groups [cs], followed in the text by [z], is a match
    of [r] there. *)
Definition hit_sound (r : re) (m : str) (cs : caps) (z : str) : Prop :=
  langc r m cs /\ exists b b', rm r b (m ++ z) b' z.

Fixpoint hits_ok (r : re) (ps : list piece) : Prop :=
  match ps with
  | [] => True
  | Gap _ :: rest => hits_ok r rest
  | Hit m cs :: rest =>
      hit_sound r m cs (render (fun m _ => m) rest) /\ hits_ok r rest
  end.

(** A marker, its digits and the run up to the next marker. *)
Definition seg := (str * str * str)%type.

Definition seg_text (s : seg) : str := fst (fst s) ++ snd s.

(** The Ayat row of a marker and its run: none when the run is blank. *)
Definition seg_rows (r : record) (s : seg) : list record :=
  child r (snd (fst s), snd s).

(** Each hit with the gap that follows it. *)
Fixpoint segs_of (ps : list piece) : list seg :=
  match ps with
  | [] => []
  | Hit m cs :: ((Gap g :: _) as ps') =>
      (m, group_or_empty 1 cs, g) :: segs_of ps'
  | _ :: ps' => segs_of ps'
  end.

Section MarkedWords.
Context {U : Unicode}.

(** The text [t] read marker by marker: the text [g0] before the first
    marker, then each marker [m] with its digits [ds] and the run [held]
    that follows it; neither [g0] nor a run holds a marker. *)
Definition laid_out (t g0 : str) (segs : list seg) : Prop :=
  t = g0 ++ concat (List.map seg_text segs)
  /\ ~ has_marker g0
  /\ Forall (fun s : seg => marker_of (snd (fst s)) (fst (fst s))
                            /\ ~ has_marker (snd s)) segs.
End MarkedWords.

Section SpanWords.
Context {U : Unicode}.

(** Modelled on the words of the claim, "the block's raw text span
    (header line removed)": the span without the lines that are its
    header, and nothing else done to it. *)
Definition span_without_header (label span : str) : str :=
  re_sub (header_re label) [] span.
End SpanWords.

(** A Pasal whose line has a tab. *)
Definition raw_tab : str := join [LF] [py "Pasal 1"; [97; TAB; 98]].

(** A Pasal row that already has an [ayat_number]. *)
Definition numbered_row : record :=
  set_numbers (pasal_row (py "(1) foo")) (py "1") (Some (py "3")).

(** ** Words of the idempotence of [minimal_clean] *)

(** What NFKC makes of a character of cleaned ASCII text: the ellipsis
    is written as three full stops, and nothing else changes. *)
Definition expand (c : char) : str :=
  if c =? ELLIPSIS then [46; 46; 46] else [c].

Definition expand_all (s : str) : str := flat_map expand s.

Definition ascii_or_ellipsis (c : char) : bool :=
  (c <? 128) || (c =? ELLIPSIS).

Section NfkcWords.
Context {U : Unicode}.

(** The NFKC tables on ASCII text with ellipses. *)
Definition nfkc_on_ascii : Prop :=
  forall s, Forall (fun c => ascii_or_ellipsis c = true) s ->
            normalize NFKC s = expand_all s.
End NfkcWords.

(** The text has a hyphen directly before a line feed. *)
Fixpoint has_hl (s : str) : bool :=
  match s with
  | [] => false
  | c :: t =>
      ((c =? 45) && match t with d :: _ => d =? LF | [] => false end)
      || has_hl t
  end.

(** Whitespace, then [n] times a full stop and whitespace: [DOTS_RE]
    is the case of three. *)
Fixpoint dots_re (n : nat) : re :=
  match n with
  | O => Star ws
  | S k => Seq (Star ws) (Seq (Chr 46) (dots_re k))
  end.

(** The match of [dots_re n] at the head of [s], read off the text:
    whitespace, a full stop, [n] times, and the whitespace after; the
    result is what follows the match. *)
Fixpoint dsplit (n : nat) (s : str) : option str :=
  match n with
  | O => Some (dropwhile ws s)
  | S k =>
      match dropwhile ws s with
      | c :: t => if 46 =? c then dsplit k t else None
      | [] => None
      end
  end.

(** The full stops ahead with nothing but whitespace between them. *)
Fixpoint dots_ahead (s : str) : nat :=
  match s with
  | [] => O
  | c :: t =>
      if c =? 46 then S (dots_ahead t)
      else if isspace c then dots_ahead t
      else O
  end.

Definition wsdot (c : char) : bool := isspace c || (c =? 46).

Definition starts_ws (s : str) : bool :=
  match s with
  | c :: _ => isspace c
  | [] => false
  end.

(** A text as step 4 leaves it: no three full stops in a row (whitespace
    aside), and each ellipsis right after a character that is neither
    whitespace nor a full stop ([prev] says whether the character before
    the text is one) and not before whitespace. *)
Fixpoint normal (prev : bool) (z : str) : Prop :=
  match z with
  | [] => True
  | c :: z' =>
      (if c =? ELLIPSIS then prev = false /\ starts_ws z' = false
       else (dots_ahead z < 3)%nat)
      /\ normal (wsdot c) z'
  end.

(** [re.sub] by [DOTS_RE] from a cursor on. *)
Definition dsub (s : str) : str := sub_from DOTS_RE [ELLIPSIS] 0 true s.

(** A text with a hyphen at a line end, a hyphen inside a word, an
    ellipsis written with blanks and four full stops in a row. *)
Definition sample_dots : str :=
  py "hak-" ++ [LF] ++ py "nya . . . dan  a-b ....  x" ++ [TAB; LF] ++ py "y".

(** * Properties of the matcher *)

Section MatcherFacts.
Variable R : Type.
Implicit Types (k : cont R) (r : re).

Lemma star_sound p k : forall s b cs x,
  star p k b s cs = Some x ->
  exists b' s' , rm (Star p) b s b' s' /\ k b' s' cs = Some x.
Proof.
  induction s as [|c t IH]; simpl; intros b cs x H.
  - eauto.
  - destruct (p c) eqn:Hp; [|eauto].
    destruct (star p k (is_lf c) t cs) eqn:Hs.
    + inversion H; subst. apply IH in Hs as (b' & s' & Hr & Hk). eauto.
    + eauto.
Qed.

Lemma run_sound r : forall b s cs k x,
  run r b s cs k = Some x ->
  exists b' s' cs', rm r b s b' s' /\ k b' s' cs' = Some x.
Proof.
  induction r; simpl; intros b s cs k x H.
  - eauto.
  - destruct s as [|c t]; [discriminate|].
    destruct (p c) eqn:Hp; [|discriminate]. eauto 6.
  - apply star_sound in H as (b' & s' & Hr & Hk). eauto.
  - apply IHr1 in H as (b1 & s1 & cs1 & H1 & H).
    apply IHr2 in H as (b2 & s2 & cs2 & H2 & H). eauto 7.
  - destruct (run r1 b s cs k) eqn:H1.
    + inversion H; subst. apply IHr1 in H1 as (b' & s' & cs' & Hr & Hk).
      eauto 6.
    + apply IHr2 in H as (b' & s' & cs' & Hr & Hk). eauto 6.
  - apply IHr in H as (b' & s' & cs' & Hr & Hk). eauto 6.
  - destruct b; [|discriminate]. eauto 6.
  - destruct s as [|c t]; [eauto 6|].
    destruct (is_lf c) eqn:Hc; [|discriminate]. eauto 6.
  - destruct s as [|c [|d t]]; [eauto 6| |discriminate].
    destruct (is_lf c) eqn:Hc; [|discriminate]. eauto 6.
Qed.

Lemma star_complete p k b s b' s' :
  rm (Star p) b s b' s' ->
  forall cs, k b' s' cs <> None -> star p k b s cs <> None.
Proof.
  intros H. remember (Star p) as r eqn:Er.
  induction H; inversion Er; subst; intros cs Hk.
  - destruct s as [|c t]; simpl; auto.
    destruct (p c); auto.
    destruct (star p k (is_lf c) t cs); auto. discriminate.
  - simpl. rewrite H.
    specialize (IHrm eq_refl cs Hk).
    destruct (star p k (is_lf c) t cs); [discriminate|contradiction].
Qed.

Lemma run_complete r b s b' s' :
  rm r b s b' s' ->
  forall k, (forall cs, k b' s' cs <> None) ->
  forall cs, run r b s cs k <> None.
Proof.
  induction 1; intros k Hk cs.
  - simpl. auto.
  - simpl. rewrite H. auto.
  - apply (@star_complete p k b s b s); auto.
  - apply (@star_complete p k b (c :: t) b' s'); eauto.
  - simpl. apply IHrm1. intros cs1. apply IHrm2. auto.
  - simpl. destruct (run r1 b s cs k) eqn:E; [discriminate|].
    exfalso. revert E. apply IHrm. auto.
  - simpl. destruct (run r1 b s cs k); [discriminate|]. apply IHrm. auto.
  - simpl. apply IHrm. intros cs1. apply Hk.
  - simpl. auto.
  - simpl. auto.
  - simpl. rewrite H. auto.
  - simpl. auto.
  - simpl. rewrite H. auto.
Qed.
End MatcherFacts.

Lemma rm_consumed r b s b' s' :
  rm r b s b' s' -> exists m, s = m ++ s' /\ b' = bol_after b m.
Proof.
  induction 1; try (exists []; split; reflexivity).
  - exists [c]. auto.
  - destruct IHrm as (m & -> & ->). exists (c :: m). auto.
  - destruct IHrm1 as (m1 & -> & ->). destruct IHrm2 as (m2 & -> & ->).
    exists (m1 ++ m2). unfold bol_after. rewrite fold_left_app, app_assoc. auto.
  - auto.
  - auto.
  - auto.
Qed.

Lemma rm_within P r b s b' s' :
  rm r b s b' s' -> re_within P r ->
  exists m, s = m ++ s' /\ Forall P m.
Proof.
  induction 1; simpl; intros W; try (exists []; split; [reflexivity|constructor]).
  - exists [c]. auto.
  - destruct (IHrm W) as (m & -> & Hm). exists (c :: m). auto.
  - destruct W as [W1 W2].
    destruct (IHrm1 W1) as (m1 & -> & F1). destruct (IHrm2 W2) as (m2 & -> & F2).
    exists (m1 ++ m2). rewrite app_assoc. split; auto. apply Forall_app; auto.
  - apply IHrm, W.
  - apply IHrm, W.
  - auto.
Qed.

Lemma rm_nonempty r b s b' s' :
  rm r b s b' s' -> re_nonempty r = true -> (length s' < length s)%nat.
Proof.
  intros H. assert (L : (length s' <= length s)%nat).
  { apply rm_consumed in H as (m & -> & _). rewrite length_app. lia. }
  revert L. induction H; simpl; intros L N; try discriminate.
  - lia.
  - apply rm_consumed in H as H1'. apply rm_consumed in H0 as H2'.
    destruct H1' as (m1 & E1 & _), H2' as (m2 & E2 & _).
    assert ((length s1 <= length s)%nat) by (subst s; rewrite length_app; lia).
    assert ((length s2 <= length s1)%nat) by (subst s1; rewrite length_app; lia).
    apply orb_true_iff in N as [N|N]; [apply IHrm1 in N|apply IHrm2 in N]; lia.
  - apply andb_true_iff in N as [N _]. auto.
  - apply andb_true_iff in N as [_ N]. auto.
  - auto.
Qed.

(** [match_at] finds a match exactly where the pattern has one. *)
Lemma match_at_sound r b s n cs :
  match_at r b s = Some (n, cs) ->
  exists b' s', rm r b s b' s' /\ n = (length s - length s')%nat.
Proof.
  unfold match_at. intros H. apply run_sound in H as (b' & s' & cs' & Hr & Hk).
  inversion Hk; subst. eauto.
Qed.

Lemma match_at_complete r b s b' s' :
  rm r b s b' s' -> match_at r b s <> None.
Proof.
  intros H. unfold match_at. eapply run_complete; eauto. discriminate.
Qed.

(** * Properties of the scan *)

Lemma re_sub_render r repl s :
  re_sub r repl s = render (fun _ _ => repl) (pieces r s).
Proof. reflexivity. Qed.

Lemma render_gap h g ps : render h (Gap g :: ps) = g ++ render h ps.
Proof. reflexivity. Qed.

Lemma render_hit h m cs ps : render h (Hit m cs :: ps) = h m cs ++ render h ps.
Proof. reflexivity. Qed.

Lemma render_scan_gap h r : forall s b gap,
  render h (scan r 0 b gap s) = rev gap ++ render h (scan r 0 b [] s).
Proof.
  unfold render.
  induction s as [|c t IH]; intros b gap; simpl.
  - now rewrite !app_nil_r.
  - destruct (match_at r b (c :: t)) as [[[|n] g]|]; simpl; auto.
    rewrite (IH _ (c :: gap)), (IH _ [c]). simpl. now rewrite <- app_assoc.
Qed.

(** The pieces are the text, cut up. *)
Lemma scan_text r : forall s k b gap,
  k = O \/ gap = [] ->
  render (fun m _ => m) (scan r k b gap s) = rev gap ++ skipn k s.
Proof.
  unfold render.
  induction s as [|c t IH]; intros k b gap Hk; simpl.
  - destruct k; simpl; now rewrite app_nil_r.
  - destruct k as [|k].
    + destruct (match_at r b (c :: t)) as [[[|n] g]|]; simpl.
      * rewrite IH by auto. reflexivity.
      * rewrite IH by auto. simpl. now rewrite firstn_skipn.
      * rewrite IH by auto. simpl. now rewrite <- app_assoc.
    + destruct Hk as [Hk| ->]; [discriminate|]. rewrite IH by auto. reflexivity.
Qed.

Lemma pieces_text r s : render (fun m _ => m) (pieces r s) = s.
Proof. unfold pieces. now rewrite scan_text by auto. Qed.

Section Keeps.
(** A pattern made of characters of [P] that matches no empty string
    leaves every run [m] of characters outside [P] in place. *)
Variables (P : char -> Prop) (r : re) (h : str -> caps -> str).
Hypothesis r_within : re_within P r.
Hypothesis r_nonempty : re_nonempty r = true.

Lemma match_at_prefix b s n g :
  match_at r b s = Some (n, g) ->
  exists mm s', s = mm ++ s' /\ Forall P mm /\ length mm = n /\ (0 < n)%nat.
Proof.
  intros H. apply match_at_sound in H as (b' & s' & Hr & ->).
  pose proof (rm_nonempty Hr r_nonempty) as L.
  destruct (rm_within P Hr r_within) as (mm & -> & F).
  exists mm, s'. rewrite length_app in *. repeat split; auto; lia.
Qed.

Lemma scan_keeps_run z : forall m b,
  Forall (fun c => ~ P c) m ->
  exists b', render h (scan r 0 b [] (m ++ z))
             = m ++ render h (scan r 0 b' [] z).
Proof.
  induction m as [|c m IH]; intros b F.
  - exists b. reflexivity.
  - inversion F as [|? ? Hc F']; subst. simpl.
    destruct (match_at r b (c :: m ++ z)) as [[n g]|] eqn:E.
    + apply match_at_prefix in E as (mm & s' & E & Fm & L & Hn).
      destruct mm as [|x mm]; [simpl in L; lia|].
      inversion E; subst. inversion Fm; subst. contradiction.
    + rewrite render_scan_gap. destruct (IH (is_lf c) F') as (b' & ->).
      exists b'. reflexivity.
Qed.

Lemma scan_keeps m z :
  m <> [] -> Forall (fun c => ~ P c) m ->
  forall a k b, (k <= length a)%nat ->
  exists a' b', render h (scan r k b [] (a ++ m ++ z))
                = a' ++ m ++ render h (scan r 0 b' [] z).
Proof.
  intros Hm F. induction a as [|c a IH]; intros k b Hk.
  - assert (k = O) by (simpl in Hk; lia). subst.
    destruct (scan_keeps_run z b F) as (b' & E). exists [], b'. exact E.
  - destruct k as [|k]; simpl.
    + destruct (match_at r b (c :: a ++ m ++ z)) as [[n g]|] eqn:E.
      * apply match_at_prefix in E as E'.
        destruct E' as (mm & s' & E' & Fm & L & Hn).
        destruct n as [|n]; [lia|].
        assert (Hl : (n <= length a)%nat).
        { destruct (Nat.le_gt_cases n (length a)) as [|G]; auto. exfalso.
          change (c :: a ++ m ++ z) with ((c :: a) ++ m ++ z) in E'.
          apply app_eq_app in E' as (l & [[E1 E2]|[E1 E2]]).
          - apply (f_equal (@length _)) in E1.
            rewrite length_app in E1. simpl in E1. lia.
          - destruct l as [|x l].
            + rewrite app_nil_r in E1. subst mm. simpl in L. lia.
            + destruct m as [|y m]; [contradiction|].
              inversion E2; subst. inversion F; subst.
              apply Forall_app in Fm as [_ Fm]. inversion Fm; subst.
              contradiction. }
        rewrite render_gap, render_hit.
        destruct (IH n (is_lf c) Hl) as (a' & b' & ->).
        exists (h (firstn (S n) (c :: a ++ m ++ z)) g ++ a'), b'.
        simpl. now rewrite <- app_assoc.
      * rewrite render_scan_gap.
        destruct (IH O (is_lf c) (Nat.le_0_l _)) as (a' & b' & ->).
        exists (c :: a'), b'. reflexivity.
    + simpl in Hk. destruct (IH k (is_lf c)) as (a' & b' & ->); [lia|].
      exists a', b'. reflexivity.
Qed.
End Keeps.

Lemma re_sub_keeps (P : char -> Prop) r repl a m z :
  re_within P r -> re_nonempty r = true ->
  m <> [] -> Forall (fun c => ~ P c) m ->
  exists a' z', re_sub r repl (a ++ m ++ z) = a' ++ m ++ z'.
Proof.
  intros W N Hm F. rewrite re_sub_render. unfold pieces.
  destruct (@scan_keeps P r (fun _ _ => repl) W N m z Hm F a O true
              (Nat.le_0_l _)) as (a' & b' & ->).
  eauto.
Qed.

(** * Properties of the string functions *)

Lemma linebreak_isspace c : is_linebreak c = true -> isspace c = true.
Proof. intros H. chars. Qed.

Lemma blank_isspace c : blank c = true -> isspace c = true.
Proof. intros H. chars. Qed.

Lemma lf_isspace c : is_lf c = true -> isspace c = true.
Proof. intros H. chars. Qed.

Lemma dropwhile_keeps p x : p x = false ->
  forall a t, exists a', dropwhile p (a ++ x :: t) = a' ++ x :: t.
Proof.
  intros Hx. induction a as [|c a IH]; intros t; simpl.
  - rewrite Hx. now exists [].
  - destruct (p c).
    + apply IH.
    + now exists (c :: a).
Qed.

Lemma rstrip_keeps a y z :
  isspace y = false -> exists z', rstrip (a ++ y :: z) = a ++ y :: z'.
Proof.
  intros Hy. unfold rstrip. rewrite rev_app_distr. simpl. rewrite <- app_assoc.
  simpl. destruct (dropwhile_keeps isspace y Hy (rev z) (rev a)) as (w & ->).
  exists (rev w). rewrite rev_app_distr. simpl.
  now rewrite rev_involutive, <- app_assoc.
Qed.

(** A run that neither begins nor ends with whitespace survives
    [strip] wherever it stands. *)
Lemma strip_keeps a m z x y m0 :
  m = x :: m0 -> last m x = y -> isspace x = false -> isspace y = false ->
  exists a' z', strip (a ++ m ++ z) = a' ++ m ++ z'.
Proof.
  intros Em El Hx Hy.
  assert (Hm : m <> []) by (subst m; discriminate).
  destruct (exists_last Hm) as (m1 & y' & E1).
  assert (y' = y) by (rewrite E1, last_last in El; auto). subst y'.
  unfold strip.
  destruct (@rstrip_keeps (a ++ m1) y z Hy) as (z' & Ez).
  replace (a ++ m ++ z) with ((a ++ m1) ++ y :: z)
    by (rewrite E1, <- !app_assoc; reflexivity).
  rewrite Ez.
  replace ((a ++ m1) ++ y :: z') with (a ++ x :: (m0 ++ z')).
  - unfold lstrip. destruct (dropwhile_keeps isspace x Hx a (m0 ++ z')) as (a' & ->).
    exists a', z'. rewrite Em. reflexivity.
  - rewrite <- app_assoc. f_equal.
    change (x :: m0 ++ z') with ((x :: m0) ++ z'). rewrite <- Em, E1.
    now rewrite <- app_assoc.
Qed.

Lemma remove_nul_keeps a m z :
  Forall (fun c => c <> NUL) m ->
  remove_nul (a ++ m ++ z) = remove_nul a ++ m ++ remove_nul z.
Proof.
  intros F. unfold remove_nul. rewrite !filter_app. f_equal. f_equal.
  induction F as [|c m Hc F IH]; simpl; auto.
  destruct (N.eqb_spec c NUL); [contradiction|]. simpl. now rewrite IH.
Qed.

Lemma join_keeps sep l : forall L1 L2,
  exists A B, join sep (L1 ++ l :: L2) = A ++ l ++ B.
Proof.
  induction L1 as [|a L1 IH]; intros L2.
  - exists []. destruct L2; simpl; eauto. exists []. now rewrite app_nil_r.
  - destruct (IH L2) as (A & B & E). simpl.
    destruct (L1 ++ l :: L2) eqn:E'.
    + destruct L1; discriminate.
    + rewrite E. exists (a ++ sep ++ A), B. now rewrite <- !app_assoc.
Qed.

Section Splitlines.
Variables (m z : str).
Hypothesis m_nonspace : Forall (fun c => isspace c = false) m.
Hypothesis m_nonempty : m <> [].

Lemma splitlines_run : forall m' cur,
  Forall (fun c => isspace c = false) m' ->
  splitlines_aux cur (m' ++ z) = splitlines_aux (rev m' ++ cur) z.
Proof.
  induction m' as [|c m' IH]; intros cur F; auto.
  inversion F as [|? ? Hc F']; subst. simpl.
  destruct (is_linebreak c) eqn:Hl.
  - apply linebreak_isspace in Hl. congruence.
  - rewrite IH by auto. now rewrite <- app_assoc.
Qed.

Lemma splitlines_open : forall t cur, cur <> [] ->
  exists y L, splitlines_aux cur t = (rev cur ++ y) :: L.
Proof.
  induction t as [|c t IH]; intros cur Hc; simpl.
  - destruct cur; [contradiction|]. exists [], []. now rewrite app_nil_r.
  - destruct (is_linebreak c).
    + destruct t as [|d t'].
      * exists [], []. now rewrite app_nil_r.
      * destruct ((c =? CR) && (d =? LF)); eexists [], _;
          rewrite app_nil_r; reflexivity.
    + destruct (IH (c :: cur)) as (y & L & ->); [discriminate|].
      exists (c :: y), L. simpl. now rewrite <- app_assoc.
Qed.

Lemma splitlines_reach : forall n a cur, (length a <= n)%nat ->
  exists L1 cur', splitlines_aux cur (a ++ m ++ z)
                  = L1 ++ splitlines_aux cur' (m ++ z).
Proof.
  induction n as [|n IH]; intros a cur Hn.
  - destruct a; [|simpl in Hn; lia]. now exists [], cur.
  - destruct a as [|c a]; [now exists [], cur|]. simpl in Hn. simpl.
    destruct (is_linebreak c) eqn:Hl.
    + destruct a as [|d a'].
      * destruct m as [|x m'] eqn:Em; [contradiction|]. simpl.
        inversion m_nonspace as [|? ? Hx _]; subst.
        assert ((c =? CR) && (x =? LF) = false) as ->.
        { destruct (x =? LF) eqn:E; [|apply andb_false_r].
          apply lf_isspace in E. congruence. }
        exists [rev cur], []. reflexivity.
      * simpl. destruct ((c =? CR) && (d =? LF)).
        -- destruct (IH a' [] ) as (L1 & cur' & ->); [simpl in Hn; lia|].
           now exists (rev cur :: L1), cur'.
        -- destruct (IH (d :: a') []) as (L1 & cur' & E); [lia|].
           simpl in E. rewrite E. now exists (rev cur :: L1), cur'.
    + destruct (IH a (c :: cur)) as (L1 & cur' & ->); [lia|].
      now exists L1, cur'.
Qed.

Lemma rstrip_lines_keeps a :
  exists a' z', rstrip_lines (a ++ m ++ z) = a' ++ m ++ z'.
Proof.
  unfold rstrip_lines, splitlines.
  destruct (@splitlines_reach (length a) a [] (le_n _)) as (L1 & cur & ->).
  rewrite splitlines_run by exact m_nonspace.
  destruct (@splitlines_open z (rev m ++ cur)) as (y & L2 & ->).
  { destruct m; [contradiction|]. simpl.
    intros E. apply (f_equal (@length _)) in E.
    rewrite !length_app in E. simpl in E. lia. }
  rewrite map_app. simpl.
  rewrite rev_app_distr, rev_involutive.
  destruct (exists_last m_nonempty) as (m1 & x & Em).
  assert (Hx : isspace x = false).
  { rewrite Em in m_nonspace. apply Forall_app in m_nonspace as [_ F].
    now inversion F. }
  replace ((rev cur ++ m) ++ y) with ((rev cur ++ m1) ++ x :: y)
    by (rewrite Em, <- !app_assoc; reflexivity).
  destruct (@rstrip_keeps (rev cur ++ m1) x y Hx) as (y' & ->).
  destruct (join_keeps [LF] ((rev cur ++ m1) ++ x :: y')
              (List.map rstrip L1) (List.map rstrip L2)) as (A & B & ->).
  exists (A ++ rev cur), (y' ++ B). rewrite Em, <- !app_assoc. reflexivity.
Qed.
End Splitlines.

(** * [minimal_clean] and the numbering markers *)

Section CleanKeeps.
Context {U : Unicode}.

Lemma HYPHEN_RE_within : re_within touchable HYPHEN_RE.
Proof. within; unfold touchable, ws in *; chars. Qed.

Lemma DOTS_RE_within : re_within touchable DOTS_RE.
Proof. within; unfold touchable, ws in *; chars. Qed.

Lemma NEWLINES_RE_within : re_within touchable NEWLINES_RE.
Proof. within; unfold touchable in *; chars. Qed.

Lemma BLANKS_RE_within : re_within touchable BLANKS_RE.
Proof. within; unfold touchable in *; chars. Qed.

Lemma inert_nonspace m :
  Forall inert m -> Forall (fun c => isspace c = false) m.
Proof.
  apply Forall_impl. intros c H. destruct (isspace c) eqn:E; auto.
  exfalso. apply H. now left.
Qed.

Lemma minimal_clean_keeps_inert m :
  m <> [] -> Forall inert m -> nfkc_keeps m ->
  forall a z, exists a' z', minimal_clean (a ++ m ++ z) = a' ++ m ++ z'.
Proof.
  intros Hm F K a z. unfold minimal_clean.
  assert (Fn : Forall (fun c => c <> NUL) m).
  { revert F. apply Forall_impl. intros c H E. apply H. now do 3 right. }
  pose proof (inert_nonspace F) as Fs.
  rewrite remove_nul_keeps by exact Fn.
  destruct (K (remove_nul a) (remove_nul z)) as (a1 & z1 & ->).
  destruct (@re_sub_keeps touchable HYPHEN_RE [] a1 m z1
              HYPHEN_RE_within eq_refl Hm F) as (a2 & z2 & ->).
  destruct (@re_sub_keeps touchable DOTS_RE [ELLIPSIS] a2 m z2
              DOTS_RE_within eq_refl Hm F) as (a3 & z3 & ->).
  destruct (@rstrip_lines_keeps m z3 Fs Hm a3) as (a4 & z4 & ->).
  destruct (@re_sub_keeps touchable NEWLINES_RE [LF; LF] a4 m z4
              NEWLINES_RE_within eq_refl Hm F) as (a5 & z5 & ->).
  destruct (@re_sub_keeps touchable BLANKS_RE [SP] a5 m z5
              BLANKS_RE_within eq_refl Hm F) as (a6 & z6 & ->).
  destruct m as [|x m0] eqn:Em; [contradiction|]. rewrite <- Em in *.
  apply (@strip_keeps a6 m z6 x (last m x) m0); auto.
  - rewrite Em in Fs. now inversion Fs.
  - assert (In (last m x) m).
    { rewrite Em. destruct (@exists_last _ (x :: m0)) as (l & y & E);
        [discriminate|]. rewrite E, last_last. apply in_or_app. right.
      now left. }
    rewrite Forall_forall in Fs. auto.
Qed.

Lemma ascii_marker_inert m : ascii_marker m -> m <> [] /\ Forall inert m.
Proof.
  intros (ds & Hd & F & ->). split; [discriminate|].
  assert (I40 : inert 40) by (intros [H|[H|[H|H]]]; discriminate).
  assert (I41 : inert 41) by (intros [H|[H|[H|H]]]; discriminate).
  constructor; auto. apply Forall_app. split; [|auto].
  revert F. apply Forall_impl. intros c H [T|[T|[T|T]]]; chars.
Qed.
End CleanKeeps.

(** C2, as amended: whatever the input, every marker written [(], ASCII
    digits, [)] that occurs in it is still there, character for character,
    in the output of [minimal_clean], for every Unicode database whose
    normalisation leaves such markers alone.  (Markers with whitespace
    inside the parentheses, or with other decimal digits, match the
    marker pattern too, and those may be rewritten.) *)
Theorem minimal_clean_keeps_ascii_marker (U : Unicode) :
  (forall m, ascii_marker m -> nfkc_keeps m) ->
  forall t a m z, ascii_marker m -> t = a ++ m ++ z ->
  exists a' z', minimal_clean t = a' ++ m ++ z'.
Proof.
  intros K t a m z Hm ->.
  destruct (ascii_marker_inert Hm) as [Hne F].
  apply minimal_clean_keeps_inert; auto.
Qed.

Lemma latin_nfkc_ascii m :
  Forall (fun c => c < 128) m -> flat_map Latin.nfkc_char m = m.
Proof.
  induction 1 as [|c m Hc F IH]; simpl; auto.
  rewrite IH. unfold Latin.nfkc_char.
  assert (in_range 65281 65374 c = false) as -> by chars.
  assert ((c =? 160) || in_range 8192 8202 c || (c =? 8239)
          || (c =? 8287) || (c =? 12288) = false) as -> by chars.
  assert ((c =? ELLIPSIS) = false) as -> by chars.
  assert ((c =? 64257) = false) as -> by chars.
  reflexivity.
Qed.

Lemma latin_nfkc_keeps m : ascii_marker m -> @nfkc_keeps latin m.
Proof.
  intros (ds & Hd & F & E) a z.
  change (@normalize latin NFKC (a ++ m ++ z))
    with (flat_map Latin.nfkc_char (a ++ m ++ z)).
  rewrite !flat_map_app.
  exists (flat_map Latin.nfkc_char a), (flat_map Latin.nfkc_char z).
  rewrite (@latin_nfkc_ascii m); auto.
  subst m. constructor; [lia|]. apply Forall_app. split.
  - revert F. apply Forall_impl. intros c H. chars.
  - constructor; [lia|constructor].
Qed.

Lemma minimal_clean_keeps_ascii_marker_witness :
  exists a' z',
    @minimal_clean latin (py "Pasal 5 ayat (12) huruf a") = a' ++ py "(12)" ++ z'.
Proof.
  apply (@minimal_clean_keeps_ascii_marker latin latin_nfkc_keeps
           (py "Pasal 5 ayat (12) huruf a") (py "Pasal 5 ayat ") (py "(12)")
           (py " huruf a")).
  - exists (py "12"). repeat split; [discriminate|].
    repeat constructor.
  - reflexivity.
Defined.

(** C2, as stated, fails: ["(  1)"] matches the marker pattern in full
    and [minimal_clean] turns it into ["( 1)"], so that the matched
    substring is no longer in the output. *)
Lemma minimal_clean_alters_marker :
  let t := py "(  1)" in
  option_map fst (match_at (@AYAT_SPLIT_RE latin) true t) = Some (length t)
  /\ @minimal_clean latin t = py "( 1)"
  /\ contains (@minimal_clean latin t) t = false.
Proof. vm_compute. repeat split. Qed.

(** * The shape of a scan *)

Lemma scan_shaped r : forall s k b gap, shaped (scan r k b gap s).
Proof.
  induction s as [|c t IH]; intros k b gap; simpl.
  - constructor.
  - destruct k as [|k]; auto.
    destruct (match_at r b (c :: t)) as [[[|n] g]|]; auto; now constructor.
Qed.

Lemma scan_hits_nonempty r :
  (forall b s g, match_at r b s <> Some (O, g)) ->
  forall s k b gap, Forall hit_nonempty (scan r k b gap s).
Proof.
  intros N. induction s as [|c t IH]; intros k b gap; simpl.
  - repeat constructor.
  - destruct k as [|k]; auto.
    destruct (match_at r b (c :: t)) as [[[|n] g]|] eqn:E; auto.
    + now apply N in E.
    + repeat constructor; auto. discriminate.
Qed.

Lemma nonempty_no_empty_match r :
  re_nonempty r = true -> forall b s g, match_at r b s <> Some (O, g).
Proof.
  intros N b s g H. apply match_at_sound in H as (b' & s' & Hr & E).
  apply (rm_nonempty Hr) in N. lia.
Qed.

(** Without a match anywhere, the text is one gap. *)
Lemma scan_no_match r : forall s b gap,
  (forall a s' b', s = a ++ s' -> match_at r b' s' = None) ->
  scan r 0 b gap s = [Gap (rev gap ++ s)].
Proof.
  induction s as [|c t IH]; intros b gap H; simpl.
  - now rewrite app_nil_r.
  - rewrite (H [] (c :: t) b eq_refl). rewrite IH.
    + simpl. now rewrite <- app_assoc.
    + intros a s' b' ->. apply (H (c :: a)). reflexivity.
Qed.

(** With a match somewhere, the scan has a hit. *)
Lemma scan_some_match r : forall s b gap a s',
  s = a ++ s' -> s' <> [] -> (forall b', match_at r b' s' <> None) ->
  exists g0 m cs ps, scan r 0 b gap s = Gap g0 :: Hit m cs :: ps.
Proof.
  induction s as [|c t IH]; intros b gap a s' E Hs H.
  - destruct a, s'; try discriminate. contradiction.
  - simpl. destruct (match_at r b (c :: t)) as [[[|n] g]|] eqn:E'; eauto.
    destruct a as [|x a].
    + simpl in E. subst s'. now apply H in E'.
    + inversion E; subst. eapply IH; eauto.
Qed.

(** * Numbering markers *)

Lemma rm_lang r b s b' s' :
  rm r b s b' s' -> exists m, s = m ++ s' /\ lang r m.
Proof.
  induction 1; simpl; try (exists []; split; reflexivity).
  - exists [c]. eauto.
  - exists []. split; auto.
  - destruct IHrm as (m & -> & F). exists (c :: m). split; auto.
  - destruct IHrm1 as (m1 & -> & L1). destruct IHrm2 as (m2 & -> & L2).
    exists (m1 ++ m2). rewrite app_assoc. eauto 6.
  - destruct IHrm as (m & -> & L). eauto.
  - destruct IHrm as (m & -> & L). eauto.
  - auto.
Qed.

Lemma lang_rm r : anchor_free r = true ->
  forall m, lang r m -> forall b s', rm r b (m ++ s') (bol_after b m) s'.
Proof.
  induction r; simpl; intros A m L b s'; try discriminate.
  - subst. constructor.
  - destruct L as (c & -> & Hc). now constructor.
  - revert b. induction L as [|c m Hc F IH]; intros b; simpl.
    + constructor.
    + apply rm_starS; auto.
  - apply andb_true_iff in A as [A1 A2].
    destruct L as (m1 & m2 & -> & L1 & L2).
    rewrite <- app_assoc. unfold bol_after. rewrite fold_left_app.
    eapply rm_seq; [apply IHr1|apply IHr2]; auto.
  - apply andb_true_iff in A as [A1 A2].
    destruct L as [L|L]; [apply rm_altl|apply rm_altr]; auto.
  - constructor. auto.
Qed.

Section Markers.
Context {U : Unicode}.

Lemma AYAT_lang m : lang AYAT_SPLIT_RE m <-> is_marker m.
Proof.
  unfold AYAT_SPLIT_RE, Seqs, Plus, Chr, ws, digit, is_marker. cbn [lang]. split.
  - intros (m1 & r1 & -> & (c1 & -> & H1) & w1 & r2 & -> & F1
            & m3 & r3 & -> & (md & ds & -> & (d & -> & Hd) & Fd)
            & w2 & m5 & -> & F2 & c2 & -> & H2).
    apply N.eqb_eq in H1, H2. subst.
    exists w1, (d :: ds), w2. repeat split; auto; try discriminate.
  - intros (w1 & ds & w2 & F1 & Hd & Fd & F2 & ->).
    destruct ds as [|d ds]; [contradiction|]. inv Fd.
    exists [40], (w1 ++ (d :: ds) ++ w2 ++ [41]). repeat split; eauto.
    exists w1, ((d :: ds) ++ w2 ++ [41]). repeat split; auto.
    exists (d :: ds), (w2 ++ [41]). repeat split; eauto.
    + exists [d], ds. eauto.
    + exists w2, [41]. eauto.
Qed.

Lemma AYAT_sound b s b' s' :
  rm AYAT_SPLIT_RE b s b' s' -> exists m, is_marker m /\ s = m ++ s'.
Proof.
  intros H. apply rm_lang in H as (m & -> & L). apply AYAT_lang in L. eauto.
Qed.

Lemma AYAT_complete m s' b :
  is_marker m -> exists b', rm AYAT_SPLIT_RE b (m ++ s') b' s'.
Proof.
  intros H. apply AYAT_lang in H. eexists. apply lang_rm; eauto.
Qed.

Lemma AYAT_nonempty : re_nonempty AYAT_SPLIT_RE = true.
Proof. reflexivity. Qed.

(** The scan for markers finds none iff the text has none. *)
Lemma no_marker_pieces t :
  ~ has_marker t -> pieces AYAT_SPLIT_RE t = [Gap t].
Proof.
  intros H. unfold pieces. rewrite scan_no_match; auto.
  intros a s' b' -> . destruct (match_at AYAT_SPLIT_RE b' s') as [[n g]|] eqn:E;
    auto.
  exfalso. apply H. apply match_at_sound in E as (b1 & s1 & Hr & _).
  apply AYAT_sound in Hr as (m & Hm & ->). now exists a, m, s1.
Qed.

Lemma marker_pieces t :
  has_marker t ->
  exists g0 m cs ps, pieces AYAT_SPLIT_RE t = Gap g0 :: Hit m cs :: ps.
Proof.
  intros (a & m & z & -> & Hm). unfold pieces.
  apply scan_some_match with (a := a) (s' := m ++ z); auto.
  - destruct Hm as (? & ? & ? & _ & _ & _ & _ & ->). discriminate.
  - intros b'. destruct (AYAT_complete z b' Hm) as (b1 & Hr).
    eapply match_at_complete; eauto.
Qed.
End Markers.

(** * The explosion of a Pasal row *)

Lemma split_shaped ps :
  shaped ps ->
  exists g0, List.map split_field ps = g0 :: flat_pairs (pairs_of ps).
Proof.
  induction 1 as [g|g m cs ps Hs (g1 & IH)].
  - now exists g.
  - exists g.
    assert (E : exists ps', ps = Gap g1 :: ps').
    { inv Hs; simpl in IH; inv IH; eauto. }
    destruct E as (ps' & ->). cbn [List.map split_field] in *.
    inversion IH as [IH']. rewrite IH'.
    reflexivity.
Qed.

Lemma range_odd n : range 1 (1 + 2 * n) 2 = range_aux n 1 2.
Proof.
  unfold range. f_equal.
  replace (1 + 2 * n - 1 + 2 - 1)%nat with (1 + n * 2)%nat by lia.
  rewrite Nat.div_add by lia. reflexivity.
Qed.

Lemma length_flat_pairs prs : length (flat_pairs prs) = (2 * length prs)%nat.
Proof. induction prs; simpl; lia. Qed.

Lemma explode_loop_pairs r : forall prs pre,
  explode_loop r (pre ++ flat_pairs prs)
    (range_aux (length prs) (length pre) 2) = Some (children r prs).
Proof.
  induction prs as [|[d g] prs IH]; intros pre; simpl; auto.
  rewrite nth_error_app2, Nat.sub_diag by lia. simpl.
  rewrite nth_error_app2 by lia.
  replace (length pre + 1 - length pre)%nat with 1%nat by lia. simpl.
  specialize (IH (pre ++ [d; g])).
  rewrite <- app_assoc, length_app in IH. simpl in IH. rewrite IH.
  unfold child. simpl. destruct (strip g); reflexivity.
Qed.

Section ExplodeFacts.
Context {U : Unicode}.

(** The index loop of the source is the pairing of each number with
    its run, and it never leaves the list. *)
Lemma explode_row_pairs r :
  explode_row r =
  Some (if is_pasal_row r then
          match pairs_of (pieces AYAT_SPLIT_RE (strip (text r))) with
          | [] => [r]
          | prs => children r prs
          end
        else [r]).
Proof.
  unfold explode_row. destruct (is_pasal_row r); auto.
  unfold re_split. fold split_field.
  destruct (split_shaped (scan_shaped AYAT_SPLIT_RE (strip (text r)) 0 true []))
    as (g0 & E).
  fold (pieces AYAT_SPLIT_RE (strip (text r))) in E. rewrite E.
  simpl length. rewrite length_flat_pairs.
  destruct (pairs_of (pieces AYAT_SPLIT_RE (strip (text r)))) as [|p prs];
    [reflexivity|].
  replace (1 <? S (2 * length (p :: prs)))%nat with true
    by (symmetry; apply Nat.ltb_lt; simpl; lia).
  change (S (2 * length (p :: prs))) with (1 + 2 * length (p :: prs))%nat.
  rewrite range_odd.
  apply (explode_loop_pairs r (p :: prs) [g0]).
Qed.

Lemma explode_row_total r : explode_row r <> None.
Proof. rewrite explode_row_pairs. discriminate. Qed.

Lemma explode_total df : explode_ayat_rows_df df <> None.
Proof.
  induction df as [|r df IH]; simpl; [discriminate|].
  pose proof (explode_row_total r).
  destruct (explode_row r), (explode_ayat_rows_df df); congruence.
Qed.

Lemma explode_app df1 df2 o1 o2 :
  explode_ayat_rows_df df1 = Some o1 -> explode_ayat_rows_df df2 = Some o2 ->
  explode_ayat_rows_df (df1 ++ df2) = Some (o1 ++ o2).
Proof.
  revert o1. induction df1 as [|r df1 IH]; simpl; intros o1 H1 H2.
  - inv H1. auto.
  - destruct (explode_row r) as [a|]; [|discriminate].
    destruct (explode_ayat_rows_df df1) as [b|]; [|discriminate].
    inv H1. rewrite (IH b eq_refl H2). now rewrite app_assoc.
Qed.
End ExplodeFacts.

Lemma dropwhile_suffix p : forall s, exists a, s = a ++ dropwhile p s.
Proof.
  induction s as [|c s (a & IH)]; simpl.
  - now exists [].
  - destruct (p c).
    + exists (c :: a). simpl. now f_equal.
    + now exists [].
Qed.

(** [strip] cuts a text out of the middle of its argument. *)
Lemma strip_middle t : exists a z, t = a ++ strip t ++ z.
Proof.
  unfold strip, lstrip, rstrip.
  destruct (dropwhile_suffix isspace (rev t)) as (z & Ez).
  destruct (dropwhile_suffix isspace (rev (dropwhile isspace (rev t))))
    as (a & Ea).
  exists a, (rev z). rewrite app_assoc, <- Ea, <- rev_app_distr, <- Ez.
  now rewrite rev_involutive.
Qed.

Lemma length_strip t : (length (strip t) <= length t)%nat.
Proof.
  destruct (strip_middle t) as (a & z & E).
  rewrite E at 2. rewrite !length_app. lia.
Qed.

Lemma pairs_shorter ps :
  shaped ps -> Forall hit_nonempty ps ->
  forall p, In p (pairs_of ps) ->
  (length (snd p) < length (render (fun m _ => m) ps))%nat.
Proof.
  induction 1 as [g|g m cs ps Hs IH]; intros F p Hp.
  - contradiction.
  - inversion F as [|? ? _ F1]; subst. inversion F1 as [|? ? Hm F2]; subst.
    simpl in Hm.
    rewrite render_gap, render_hit, !length_app.
    assert (0 < length m)%nat by (destruct m; simpl; [contradiction|lia]).
    inv Hs.
    + simpl in Hp. destruct Hp as [<-|[]]. simpl.
      rewrite render_gap, length_app. lia.
    + cbn [pairs_of] in Hp. destruct Hp as [<-|Hp].
      * simpl. rewrite render_gap, length_app. lia.
      * specialize (IH F2 p Hp). lia.
Qed.

Section ExplodeClaims.
Context {U : Unicode}.

Lemma is_marker_ends m : is_marker m ->
  exists m0, m = 40 :: m0 /\ last m 40 = 41.
Proof.
  intros (w1 & ds & w2 & _ & _ & _ & _ & ->). eexists. split; [reflexivity|].
  change (40 :: w1 ++ ds ++ w2 ++ [41]) with ((40 :: w1) ++ ds ++ w2 ++ [41]).
  rewrite !app_assoc. apply last_last.
Qed.

Lemma has_marker_strip t : has_marker t <-> has_marker (strip t).
Proof.
  split.
  - intros (a & m & z & -> & Hm).
    destruct (is_marker_ends Hm) as (m0 & Em & El).
    destruct (@strip_keeps a m z 40 41 m0 Em El eq_refl eq_refl)
      as (a' & z' & ->).
    now exists a', m, z'.
  - intros (a & m & z & E & Hm).
    destruct (strip_middle t) as (a0 & z0 & Et).
    exists (a0 ++ a), m, (z ++ z0). split; auto.
    rewrite Et, E at 1. now rewrite <- !app_assoc.
Qed.

Lemma explode_row_unmarked r : ~ has_marker (text r) -> explode_row r = Some [r].
Proof.
  intros H. rewrite explode_row_pairs.
  rewrite no_marker_pieces by (now rewrite <- has_marker_strip).
  simpl. now destruct (is_pasal_row r).
Qed.

Lemma children_ayat r prs :
  Forall (fun x => section_type x = py "AYAT" /\ text x <> []
                   /\ exists p, In p prs /\ text x = strip (snd p))
    (children r prs).
Proof.
  unfold children. apply Forall_forall. intros x Hx.
  apply in_flat_map in Hx as (p & Hp & Hx). unfold child in Hx.
  destruct (strip (snd p)) eqn:E; [contradiction|].
  destruct Hx as [<-|[]]. simpl. repeat split; eauto. discriminate.
Qed.

Lemma children_blank r prs :
  (forall p, In p prs -> strip (snd p) = []) -> children r prs = [].
Proof.
  induction prs as [|p prs IH]; intros H; auto.
  unfold children. simpl. unfold child at 1. rewrite (H p) by now left.
  apply IH. intros q Hq. apply H. now right.
Qed.

Lemma explode_row_marked r :
  is_pasal_row r = true -> has_marker (text r) ->
  let prs := pairs_of (pieces AYAT_SPLIT_RE (strip (text r))) in
  explode_row r = Some (children r prs) /\ ~ In r (children r prs).
Proof.
  intros Hp Hm prs. rewrite explode_row_pairs, Hp. fold prs.
  apply has_marker_strip in Hm.
  destruct (marker_pieces Hm) as (g0 & m & cs & ps & E).
  pose proof (scan_shaped AYAT_SPLIT_RE (strip (text r)) 0 true []) as Hs.
  pose proof (@scan_hits_nonempty AYAT_SPLIT_RE
                (@nonempty_no_empty_match AYAT_SPLIT_RE AYAT_nonempty)
                (strip (text r)) 0 true []) as Hn.
  fold (pieces AYAT_SPLIT_RE (strip (text r))) in Hs, Hn.
  split.
  - subst prs. rewrite E in *. inv Hs. inv H0; reflexivity.
  - intros Hin.
    pose proof (children_ayat r prs) as F. rewrite Forall_forall in F.
    destruct (F r Hin) as (_ & _ & p & Hq & Et).
    pose proof (pairs_shorter Hs Hn p Hq) as L.
    rewrite pieces_text in L.
    pose proof (length_strip (snd p)). pose proof (length_strip (text r)).
    rewrite <- Et in *. lia.
Qed.

Lemma explode_middle before r after rows :
  explode_row r = Some rows ->
  exists o1 o2,
    explode_ayat_rows_df before = Some o1
    /\ explode_ayat_rows_df after = Some o2
    /\ explode_ayat_rows_df (before ++ r :: after) = Some (o1 ++ rows ++ o2).
Proof.
  intros H.
  destruct (explode_ayat_rows_df before) as [o1|] eqn:E1;
    [|now apply explode_total in E1].
  destruct (explode_ayat_rows_df after) as [o2|] eqn:E2;
    [|now apply explode_total in E2].
  exists o1, o2. repeat split.
  apply explode_app; auto. simpl. now rewrite H, E2.
Qed.
End ExplodeClaims.

(** C1, as amended: in every sequence of rows, a row whose text has no
    substring matching the marker pattern is left as it is, in its place
    (so a Pasal row without markers keeps its empty [ayat_number]).  One
    marker is enough for the explosion. *)
Theorem explode_keeps_unmarked (U : Unicode) before r after :
  ~ has_marker (text r) ->
  exists o1 o2,
    explode_ayat_rows_df before = Some o1
    /\ explode_ayat_rows_df after = Some o2
    /\ explode_ayat_rows_df (before ++ r :: after) = Some (o1 ++ r :: o2).
Proof.
  intros H. apply (@explode_middle U before r after [r] (@explode_row_unmarked U r H)).
Qed.

Lemma latin_no_marker_foo : ~ @has_marker latin (py "Setiap orang berhak.").
Proof.
  intros H. apply marker_pieces in H as (g0 & m & cs & ps & E).
  vm_compute in E. discriminate.
Qed.

Lemma explode_keeps_unmarked_witness :
  let r := pasal_row (py "Setiap orang berhak.") in
  exists o1 o2,
    @explode_ayat_rows_df latin [] = Some o1
    /\ @explode_ayat_rows_df latin [] = Some o2
    /\ @explode_ayat_rows_df latin ([] ++ r :: []) = Some (o1 ++ r :: o2).
Proof.
  exact (@explode_keeps_unmarked latin []
           (pasal_row (py "Setiap orang berhak.")) [] latin_no_marker_foo).
Defined.

(** C1, as stated, fails: the text ["(1) foo"] of a Pasal row without
    [ayat_number] has exactly one match of the marker pattern, fewer than
    two, and the row is exploded into an Ayat row. *)
Lemma one_marker_is_exploded :
  let r := pasal_row (py "(1) foo") in
  length (finditer (@AYAT_SPLIT_RE latin) (text r)) = 1%nat
  /\ @explode_ayat_rows_df latin [r] = Some [set_ayat r (py "1") (py "foo")]
  /\ @explode_ayat_rows_df latin [r] <> Some [r].
Proof. vm_compute. repeat split. discriminate. Qed.

Lemma latin_marker_foo : @has_marker latin (py "foo (1)").
Proof.
  exists (py "foo "), (py "(1)"), []. split; [reflexivity|].
  exists [], (py "1"), []. repeat split; try discriminate; repeat constructor.
Qed.


(** On a sample: the text before the only marker is lost with the
    row. *)
Example explode_foo_1 :
  @explode_ayat_rows_df latin [pasal_row (py "foo (1)")] = Some [].
Proof. reflexivity. Qed.

(** * The blocks of [detect_structure] *)

(** The matches of a scan start one after the other, inside the text. *)
Lemma hits_from_sorted : forall ps pos,
  Forall hit_nonempty ps ->
  Forall (fun h => pos <= m_start h
                   < pos + length (render (fun m _ => m) ps))%nat
    (hits_from pos ps)
  /\ StronglySorted starts_before (hits_from pos ps).
Proof.
  induction ps as [|[g|m cs] ps IH]; intros pos F; simpl.
  - split; constructor.
  - inv F. destruct (IH (pos + length g)%nat H2) as [B S].
    rewrite render_gap, length_app. split; auto.
    eapply Forall_impl; [|exact B]. simpl. intros h. lia.
  - inv F. simpl in H1. destruct (IH (pos + length m)%nat H2) as [B S].
    rewrite render_hit, length_app.
    assert (0 < length m)%nat by (destruct m; simpl; [contradiction|lia]).
    split.
    + constructor; [simpl; lia|].
      eapply Forall_impl; [|exact B]. simpl. intros h. lia.
    + constructor; auto.
      eapply Forall_impl; [|exact B]. unfold starts_before. simpl. intros h. lia.
Qed.

Lemma finditer_sorted r s :
  re_nonempty r = true ->
  Forall (fun h => m_start h < length s)%nat (finditer r s)
  /\ StronglySorted starts_before (finditer r s).
Proof.
  intros N. unfold finditer.
  destruct (@hits_from_sorted (pieces r s) 0) as [B S].
  - apply scan_hits_nonempty. now apply nonempty_no_empty_match.
  - rewrite pieces_text in B. split; auto.
    eapply Forall_impl; [|exact B]. simpl. intros h. lia.
Qed.

Section Spans.
Variable t : str.
Local Abbreviation n := (length t).

Lemma spans_bounds : forall hs,
  StronglySorted starts_before hs ->
  Forall (fun h => m_start h < n)%nat hs ->
  Forall (fun p => fst p < snd p <= n)%nat (spans_of n hs).
Proof.
  induction hs as [|h hs IH]; intros S B; simpl; constructor.
  - inv S. inv B. destruct hs as [|h' hs]; simpl; [lia|].
    inv H2. inv H4. unfold starts_before in *. lia.
  - inv S. inv B. auto.
Qed.

Lemma spans_first hs s e sp' :
  spans_of n hs = (s, e) :: sp' ->
  exists h hs', hs = h :: hs' /\ s = m_start h /\ sp' = spans_of n hs'.
Proof.
  destruct hs as [|h hs]; simpl; [discriminate|].
  intros E. inv E. eauto.
Qed.

Lemma spans_contiguous : forall hs i s e s' e',
  nth_error (spans_of n hs) i = Some (s, e) ->
  nth_error (spans_of n hs) (S i) = Some (s', e') -> e = s'.
Proof.
  induction hs as [|h hs IH]; intros i s e s' e' H1 H2.
  - destruct i; discriminate.
  - destruct i as [|i].
    + simpl in H1, H2. inv H1. destruct hs as [|h' hs]; [discriminate|].
      simpl in H2. now inv H2.
    + simpl in H1, H2. eapply IH; eauto.
Qed.

Lemma spans_last : forall hs s e,
  nth_error (spans_of n hs) (length (spans_of n hs) - 1) = Some (s, e) ->
  e = n.
Proof.
  induction hs as [|h hs IH]; intros s e H; [discriminate|].
  destruct hs as [|h' hs].
  - simpl in H. now inv H.
  - apply (IH s e). simpl in *. now rewrite Nat.sub_0_r in *.
Qed.

Lemma spans_starts : forall hs p,
  In p (spans_of n hs) -> exists x, In x hs /\ fst p = m_start x.
Proof.
  induction hs as [|h hs IH]; simpl; [tauto|].
  intros p [<-|Hin]; [eauto|].
  destruct (IH p Hin) as (x & Hx & E). eauto.
Qed.

Lemma spans_sorted : forall hs,
  StronglySorted starts_before hs ->
  Forall (fun h => m_start h < n)%nat hs ->
  StronglySorted ends_before (spans_of n hs).
Proof.
  induction hs as [|h hs IH]; intros S B; simpl; constructor.
  - inversion S; inversion B; subst; auto.
  - inversion S as [|? ? S' Fh]; subst.
    destruct hs as [|h' hs]; [constructor|].
    apply Forall_forall. intros p Hin. unfold ends_before. simpl.
    destruct (spans_starts _ _ Hin) as (x & Hx & ->).
    destruct Hx as [<-|Hx]; [lia|].
    inversion S' as [|? ? _ Fh']; subst.
    rewrite Forall_forall in Fh'. specialize (Fh' x Hx).
    unfold starts_before in Fh'. lia.
Qed.

Lemma spans_cover : forall hs h hs',
  hs = h :: hs' ->
  StronglySorted starts_before hs ->
  Forall (fun h => m_start h < n)%nat hs ->
  concat (List.map (span_slice t) (spans_of n hs)) = skipn (m_start h) t.
Proof.
  induction hs as [|x hs IH]; intros h hs' E S B; inv E.
  inversion S as [|? ? S' Fh]; subst. inversion B as [|? ? Bh B']; subst.
  destruct hs' as [|h' hs'].
  - simpl. rewrite app_nil_r. unfold span_slice. simpl.
    apply firstn_all2. rewrite length_skipn. fold n. lia.
  - change (spans_of n (h :: h' :: hs'))
      with ((m_start h, m_start h') :: spans_of n (h' :: hs')).
    cbn [List.map concat].
    rewrite (IH h' hs' eq_refl) by auto.
    unfold span_slice. simpl.
    inversion Fh as [|? ? Hlt _]; subst. unfold starts_before in Hlt.
    replace (skipn (m_start h') t)
      with (skipn (m_start h' - m_start h) (skipn (m_start h) t)).
    + apply firstn_skipn.
    + rewrite skipn_skipn. f_equal. lia.
Qed.
End Spans.

Lemma sorted_starts_ascend sp n :
  Forall (fun p => fst p < snd p <= n)%nat sp ->
  StronglySorted ends_before sp -> StronglySorted starts_ascend sp.
Proof.
  induction sp as [|p sp IH]; intros B S; constructor.
  - inversion B; inversion S; subst; auto.
  - inversion B as [|? ? Hp _]; inversion S as [|? ? _ F]; subst.
    eapply Forall_impl; [|exact F]. unfold ends_before, starts_ascend.
    intros q. lia.
Qed.

Section BlockFacts.
Context {U : Unicode}.

Lemma PASAL_nonempty : re_nonempty PASAL_ANY_RE = true.
Proof. reflexivity. Qed.

Lemma spans_starts_map n : forall ms,
  List.map fst (spans_of n ms) = List.map m_start ms.
Proof. induction ms as [|m ms IH]; simpl; congruence. Qed.

Lemma blocks_spans t bk bb bg : forall ms,
  length (blocks_of t bk bb bg ms) = length (spans_of (length t) ms)
  /\ forall i blk s e,
       nth_error (blocks_of t bk bb bg ms) i = Some blk ->
       nth_error (spans_of (length t) ms) i = Some (s, e) ->
       b_text blk = block_text (b_pasal_number blk) (slice t s e).
Proof.
  induction ms as [|m ms [IHl IH]]; simpl; split; auto.
  - intros [|i]; discriminate.
  - intros [|i] blk s e H1 H2; simpl in *.
    + inv H1. inv H2. reflexivity.
    + eauto.
Qed.
End BlockFacts.

(** Every pattern the program scans a text with consumes at least one
    character, so that no scan meets an empty match. *)
Lemma patterns_nonempty (U : Unicode) (label : str) :
  re_nonempty AYAT_SPLIT_RE = true /\ re_nonempty PASAL_ANY_RE = true
  /\ re_nonempty (header_re label) = true
  /\ re_nonempty BLANK_RUN_RE = true /\ re_nonempty HYPHEN_RE = true
  /\ re_nonempty DOTS_RE = true /\ re_nonempty NEWLINES_RE = true
  /\ re_nonempty BLANKS_RE = true /\ re_nonempty DOT_ZERO_RE = true.
Proof. repeat split. Qed.

(** C4: whatever the text, the blocks of [detect_structure] start at the
    matches of the Pasal pattern, in strictly ascending order; each is a
    non-empty span inside the text, none overlaps a later one, each ends
    where the next begins, the last ends with the text, and laid end to
    end they are the text from the first match on (nothing before the
    first match is in a block).  The text of a block is made from its
    span. *)
Theorem block_spans_partition (U : Unicode) (t : str) :
  let sp := block_spans t in
  List.map fst sp = List.map m_start (finditer PASAL_ANY_RE t)
  /\ Forall (fun p => fst p < snd p <= length t)%nat sp
  /\ StronglySorted starts_ascend sp
  /\ StronglySorted ends_before sp
  /\ (forall i s e s' e',
        nth_error sp i = Some (s, e) -> nth_error sp (S i) = Some (s', e') ->
        e = s')
  /\ (forall s e, nth_error sp (length sp - 1) = Some (s, e) -> e = length t)
  /\ (forall s e sp', sp = (s, e) :: sp' ->
        concat (List.map (fun p => slice t (fst p) (snd p)) sp) = skipn s t)
  /\ length (detect_structure t) = length sp
  /\ (forall i blk s e,
        nth_error (detect_structure t) i = Some blk ->
        nth_error sp i = Some (s, e) ->
        b_text blk = block_text (b_pasal_number blk) (slice t s e)).
Proof.
  intros sp. subst sp. unfold block_spans.
  destruct (@finditer_sorted PASAL_ANY_RE t PASAL_nonempty) as [B S].
  pose proof (spans_bounds t S B) as Hb.
  pose proof (spans_sorted t S B) as Hs.
  repeat match goal with |- _ /\ _ => split end.
  - apply spans_starts_map.
  - exact Hb.
  - eapply sorted_starts_ascend; eauto.
  - exact Hs.
  - apply spans_contiguous.
  - apply spans_last.
  - intros s e sp' E.
    destruct (spans_first _ _ E) as (h & hs' & Eh & -> & _).
    apply (spans_cover t Eh S B).
  - unfold detect_structure. exact (proj1 (@blocks_spans U t _ _ _ _)).
  - unfold detect_structure. exact (proj2 (@blocks_spans U t _ _ _ _)).
Qed.

Example block_spans_sample :
  @block_spans latin (doc ["intro"; "Pasal 1"; "Pasal 2"; "foo"]%string)
  = [(6, 14); (14, 25)]%nat.
Proof. vm_compute. reflexivity. Qed.

(** * The records of [build_records_per_pdf] *)

(** C6, as amended: for every entry of [PDF_FILES] and every list of
    blocks, each block gives exactly one record, at the block's position:
    a PASAL row without [ayat_number], titled ["Pasal "] and the block's
    label, with the labels of the block's BUKU, BAB and Bagian tags, the
    metadata of the entry, and as text [minimal_clean] of the block's
    text.  For the blocks of [detect_structure] that text is made from
    the block's span by lines 109 to 111: stripped, the header lines
    removed, stripped again, and every run of spaces and tabs replaced
    by one space; and the record is the one [build_records_per_pdf]
    returns at that position. *)
Theorem build_one_record_per_block (U : Unicode) cfg blocks i blk :
  nth_error blocks i = Some blk ->
  length (build_loop cfg blocks) = length blocks
  /\ exists rec,
       nth_error (build_loop cfg blocks) i = Some rec
       /\ section_type rec = py "PASAL"
       /\ ayat_number rec = None
       /\ title rec = py "Pasal " ++ b_pasal_number blk
       /\ pasal_number rec = b_pasal_number blk
       /\ buku rec = tag_label (b_buku blk)
       /\ bab rec = tag_label (b_bab blk)
       /\ bagian rec = tag_label (b_bagian blk)
       /\ text rec = minimal_clean (b_text blk)
       /\ (uu_code rec, uu_name rec, uu_number rec, year rec)
          = (c_uu_code cfg, c_uu_name cfg, c_uu_number cfg, c_year cfg)
       /\ (valid_from rec, valid_to rec, source_file rec)
          = (c_valid_from cfg, c_valid_to cfg, c_source_file cfg)
       /\ forall raw s e,
            blocks = detect_structure raw ->
            nth_error (block_spans raw) i = Some (s, e) ->
            text rec
            = minimal_clean
                (re_sub BLANK_RUN_RE [SP]
                   (strip (re_sub (header_re (b_pasal_number blk)) []
                             (strip (slice raw s e)))))
            /\ (strip raw <> [] ->
                nth_error (build_records_per_pdf cfg raw) i = Some rec).
Proof.
  intros H. split.
  - clear H. induction blocks as [|b blocks IH]; simpl; congruence.
  - assert (E : nth_error (build_loop cfg blocks) i
                = Some (build_record cfg blk)).
    { revert i H. induction blocks as [|b blocks IH]; intros [|i] H;
        try discriminate.
      - inv H. reflexivity.
      - apply (IH i H). }
    exists (build_record cfg blk).
    repeat match goal with |- _ /\ _ => split end; try reflexivity;
      try exact E.
    intros raw s e -> Hs. split.
    + unfold detect_structure in H. unfold block_spans in Hs.
      change (text (build_record cfg blk)) with (minimal_clean (b_text blk)).
      rewrite (proj2 (@blocks_spans U raw _ _ _ _) i blk s e H Hs).
      reflexivity.
    + intros Hr. unfold build_records_per_pdf.
      destruct raw as [|c raw]; [contradiction|].
      destruct (strip (c :: raw)); [contradiction|exact E].
Qed.

Lemma build_one_record_per_block_witness :
  length (@build_loop latin cfgX [block_1]) = length [block_1]
  /\ exists rec,
       nth_error (@build_loop latin cfgX [block_1]) 0 = Some rec
       /\ section_type rec = py "PASAL"
       /\ ayat_number rec = None
       /\ title rec = py "Pasal " ++ b_pasal_number block_1
       /\ pasal_number rec = b_pasal_number block_1
       /\ buku rec = tag_label (b_buku block_1)
       /\ bab rec = tag_label (b_bab block_1)
       /\ bagian rec = tag_label (b_bagian block_1)
       /\ text rec = @minimal_clean latin (b_text block_1)
       /\ (uu_code rec, uu_name rec, uu_number rec, year rec)
          = (c_uu_code cfgX, c_uu_name cfgX, c_uu_number cfgX, c_year cfgX)
       /\ (valid_from rec, valid_to rec, source_file rec)
          = (c_valid_from cfgX, c_valid_to cfgX, c_source_file cfgX)
       /\ forall raw s e,
            [block_1] = @detect_structure latin raw ->
            nth_error (@block_spans latin raw) 0 = Some (s, e) ->
            text rec
            = @minimal_clean latin
                (re_sub BLANK_RUN_RE [SP]
                   (strip (re_sub (@header_re latin (b_pasal_number block_1))
                             [] (strip (slice raw s e)))))
            /\ (strip raw <> [] ->
                nth_error (@build_records_per_pdf latin cfgX raw) 0
                = Some rec).
Proof.
  exact (@build_one_record_per_block latin cfgX [block_1] 0 block_1 eq_refl).
Defined.

(** C6, as stated, fails: the text of a record is not [minimal_clean] of
    the span without its header line.  Line 111 puts one space for
    every run of spaces and tabs before [minimal_clean] is called, so
    the lone tab of ["a<TAB>b"], which [minimal_clean] keeps, comes out
    as a space. *)
Lemma record_text_is_not_clean_span :
  @block_spans latin raw_tab = [(0, 11)]%nat
  /\ List.map text (@build_records_per_pdf latin cfgX raw_tab)
     = [[97; SP; 98]]
  /\ @minimal_clean latin
       (@span_without_header latin (py "1") (slice raw_tab 0 11))
     = [97; TAB; 98]
  /\ List.map text (@build_records_per_pdf latin cfgX raw_tab)
     <> [@minimal_clean latin
           (@span_without_header latin (py "1") (slice raw_tab 0 11))].
Proof. vm_compute. repeat split. discriminate. Qed.

(** * The Penjelasan filter *)

Lemma startswith_spec p : forall s,
  startswith s p = true <-> exists z, s = p ++ z.
Proof.
  induction p as [|x p IH]; intros s; simpl.
  - split; [intros _; now exists s|now destruct s].
  - destruct s as [|y s].
    + simpl. split; [discriminate|]. intros (z & E). discriminate.
    + simpl. rewrite andb_true_iff, N.eqb_eq, IH. split.
      * intros (-> & z & ->). eauto.
      * intros (z & E). inv E. eauto.
Qed.

Lemma contains_spec p : forall s,
  contains s p = true <-> exists a z, s = a ++ p ++ z.
Proof.
  induction s as [|c s IH]; cbn [contains]; rewrite orb_true_iff, startswith_spec.
  - split.
    + intros [(z & E)|H]; [|discriminate]. exists [], z. exact E.
    + intros (a & z & E). left.
      destruct a; [|discriminate]. exists z. exact E.
  - rewrite IH. split.
    + intros [(z & E)|(a & z & E)].
      * exists [], z. exact E.
      * exists (c :: a), z. simpl. now f_equal.
    + intros (a & z & E). destruct a as [|x a].
      * left. exists z. exact E.
      * right. inv E. eauto.
Qed.

Section FilterFacts.
Context {U : Unicode}.

Lemma is_penjelasan_spec row : is_penjelasan row = true <-> explanatory row.
Proof.
  unfold is_penjelasan, explanatory.
  rewrite <- contains_spec, <- startswith_spec.
  destruct (startswith _ _), (contains _ _); intuition congruence.
Qed.
End FilterFacts.

(** C7: [drop_penjelasan_df] drops a row iff its title, lowercased,
    contains ["penjelasan"] or its text, stripped and lowercased, begins
    with ["cukup jelas"]; the rows it keeps are all the others, in the
    order they had. *)
Theorem drop_penjelasan_spec (U : Unicode) (df : list record) :
  (forall row, is_penjelasan row = true <-> explanatory row)
  /\ drop_penjelasan_df df = filter (fun row => negb (is_penjelasan row)) df
  /\ (forall row, In row (drop_penjelasan_df df)
                  <-> In row df /\ ~ explanatory row).
Proof.
  assert (E : drop_penjelasan_df df
              = filter (fun row => negb (is_penjelasan row)) df).
  { induction df as [|r df IH]; simpl; auto.
    destruct (is_penjelasan r); simpl; congruence. }
  split; [apply is_penjelasan_spec|]. split; [exact E|].
  intros row. rewrite E, filter_In, negb_true_iff, <- is_penjelasan_spec.
  destruct (is_penjelasan row); intuition congruence.
Qed.

Example drop_penjelasan_samples :
  let keep t ti := List.map title
    (@drop_penjelasan_df latin
       [{| uu_code := []; uu_name := []; uu_number := []; year := 0;
           section_type := py "PASAL"; title := ti; pasal_number := py "5";
           ayat_number := None; buku := None; bab := None; bagian := None;
           valid_from := None; valid_to := None; source_file := [];
           text := t |}]) in
  keep (py "Ayat ini jelas.") (py "PENJELASAN Pasal 5") = []
  /\ keep (py "  Cukup jelas.") (py "Pasal 5") = []
  /\ keep (py "Tidak cukup jelas, lihat ayat (2)") (py "Pasal 5")
     = [py "Pasal 5"].
Proof. vm_compute. repeat split. Qed.

(** * Totality and degradation of the main flow *)

Section MainFacts.
Context {U : Unicode}.

Lemma pipeline_total docs : exists rows, pipeline docs = Some rows.
Proof.
  unfold pipeline. destruct (all_records docs) as [|r recs]; eauto.
  destruct (explode_ayat_rows_df (r :: recs)) as [df|] eqn:E; eauto.
  now apply explode_total in E.
Qed.

Lemma blank_text_no_records cfg raw :
  strip raw = [] -> build_records_per_pdf cfg raw = [].
Proof.
  intros H. unfold build_records_per_pdf. destruct raw; auto. now rewrite H.
Qed.

Lemma no_match_no_records cfg raw :
  finditer PASAL_ANY_RE raw = [] ->
  detect_structure raw = [] /\ build_records_per_pdf cfg raw = [].
Proof.
  intros H. assert (E : detect_structure raw = []).
  { unfold detect_structure. now rewrite H. }
  split; auto. unfold build_records_per_pdf. rewrite E.
  destruct raw; auto. now destruct (strip _).
Qed.

Lemma no_records_pipeline cfg raw :
  build_records_per_pdf cfg raw = [] -> pipeline [(cfg, raw)] = Some [].
Proof. intros H. unfold pipeline, all_records. now rewrite H. Qed.
End MainFacts.

(** C8: the main flow is total: for every list of documents it returns
    its rows (the index loop of the explosion never leaves its list);
    a text that is empty or all whitespace gives no record, and a text
    without a match of the Pasal pattern gives no block and no record. *)
Theorem pipeline_total_and_graceful (U : Unicode) :
  (forall docs, exists rows, pipeline docs = Some rows)
  /\ (forall df, exists rows, explode_ayat_rows_df df = Some rows)
  /\ (forall cfg raw, strip raw = [] ->
        build_records_per_pdf cfg raw = [] /\ pipeline [(cfg, raw)] = Some [])
  /\ (forall cfg raw, finditer PASAL_ANY_RE raw = [] ->
        detect_structure raw = [] /\ build_records_per_pdf cfg raw = []
        /\ pipeline [(cfg, raw)] = Some []).
Proof.
  split; [apply pipeline_total|]. split; [|split].
  - intros df. destruct (explode_ayat_rows_df df) eqn:E; eauto.
    now apply explode_total in E.
  - intros cfg raw H. pose proof (blank_text_no_records cfg raw H) as E.
    split; auto. now apply no_records_pipeline.
  - intros cfg raw H. destruct (no_match_no_records cfg raw H) as [E1 E2].
    split; auto. split; auto. now apply no_records_pipeline.
Qed.

Example pipeline_degrades :
  @pipeline latin [(cfgX, [])] = Some []
  /\ @pipeline latin [(cfgX, [SP; LF; TAB; SP])] = Some []
  /\ @pipeline latin [(cfgX, doc ["Menimbang:"; "bahwa Pasal 5 berlaku"]%string)]
     = Some [].
Proof. vm_compute. repeat split. Qed.

(** The whole flow on a small statute: the Ayat of Pasal 1 come out
    under BAB I, and Pasal 2, which only says "cukup jelas", is dropped. *)
Example pipeline_sample :
  option_map
    (List.map (fun r => (section_type r, pasal_number r, ayat_number r,
                         bab r, text r)))
    (@pipeline latin
       [(cfgX, doc ["BAB I KETENTUAN UMUM"; "Pasal 1"; "(1) first.";
                    "(2) second."; "Pasal 2"; "Cukup jelas."]%string)])
  = Some [(py "AYAT", py "1", Some (py "1"), Some (py "I"), py "first.");
          (py "AYAT", py "1", Some (py "2"), Some (py "I"), py "second.")].
Proof. vm_compute. reflexivity. Qed.

(** * Unicode normalisation in [minimal_clean] *)

Section NfkcFacts.
Context {U : Unicode}.

Lemma re_sub_inert r repl s :
  re_within touchable r -> re_nonempty r = true ->
  Forall inert s -> re_sub r repl s = s.
Proof.
  intros W N F. unfold re_sub, pieces. rewrite scan_no_match.
  - simpl. now rewrite app_nil_r.
  - intros a s' b' ->. destruct (match_at r b' s') as [[n g]|] eqn:E; auto.
    exfalso. apply (@match_at_prefix touchable r W N) in E
      as (mm & z & -> & Fm & L & Hn).
    destruct mm as [|x mm]; [simpl in L; lia|].
    apply Forall_app in F as [_ F]. inv F. inv Fm. contradiction.
Qed.

Lemma splitlines_nonspace : forall s cur,
  Forall (fun c => isspace c = false) s ->
  splitlines_aux cur s = match rev s ++ cur with
                         | [] => []
                         | l => [rev l]
                         end.
Proof.
  induction s as [|c s IH]; intros cur F; simpl.
  - now destruct cur.
  - inv F. destruct (is_linebreak c) eqn:Hl.
    + apply linebreak_isspace in Hl. congruence.
    + rewrite IH by auto. now rewrite <- app_assoc.
Qed.

Lemma dropwhile_nonspace s :
  Forall (fun c => isspace c = false) s -> dropwhile isspace s = s.
Proof. intros F. destruct F as [|c s Hc F]; simpl; auto. now rewrite Hc. Qed.

Lemma strip_nonspace s :
  Forall (fun c => isspace c = false) s -> strip s = s.
Proof.
  intros F. unfold strip, lstrip, rstrip.
  rewrite (dropwhile_nonspace (s := rev s)) by now apply Forall_rev.
  rewrite rev_involutive. now apply dropwhile_nonspace.
Qed.

Lemma rstrip_lines_nonspace s :
  Forall (fun c => isspace c = false) s -> rstrip_lines s = s.
Proof.
  intros F. unfold rstrip_lines, splitlines.
  rewrite splitlines_nonspace by auto. rewrite app_nil_r.
  destruct (rev s) eqn:E.
  - apply (f_equal (@rev _)) in E. rewrite rev_involutive in E. now subst.
  - rewrite <- E, rev_involutive. simpl.
    unfold rstrip. rewrite (dropwhile_nonspace (s := rev s))
      by now apply Forall_rev.
    apply rev_involutive.
Qed.

Lemma minimal_clean_inert t :
  Forall inert (normalize NFKC (remove_nul t)) ->
  minimal_clean t = normalize NFKC (remove_nul t).
Proof.
  intros F. unfold minimal_clean.
  pose proof (inert_nonspace F) as Fs.
  rewrite (@re_sub_inert HYPHEN_RE [] _ HYPHEN_RE_within eq_refl F).
  rewrite (@re_sub_inert DOTS_RE [ELLIPSIS] _ DOTS_RE_within eq_refl F).
  rewrite (@rstrip_lines_nonspace _ Fs).
  rewrite (@re_sub_inert NEWLINES_RE [LF; LF] _ NEWLINES_RE_within eq_refl F).
  rewrite (@re_sub_inert BLANKS_RE [SP] _ BLANKS_RE_within eq_refl F).
  now apply strip_nonspace.
Qed.

End NfkcFacts.

(** C9, as amended: step 2 is the compatibility normalisation NFKC:
    whenever the NFKC form of the text (NUL removed) has no whitespace,
    hyphen or full stop for the later steps to work on, the output of
    [minimal_clean] is that NFKC form, compatibility characters replaced
    by their equivalents. *)
Theorem minimal_clean_applies_nfkc (U : Unicode) (t : str) :
  Forall inert (normalize NFKC (remove_nul t)) ->
  minimal_clean t = normalize NFKC (remove_nul t).
Proof. apply minimal_clean_inert. Qed.

Lemma inert_digits_12 : Forall inert (py "12").
Proof. repeat constructor; intros [H|[H|[H|H]]]; discriminate. Qed.

Lemma minimal_clean_applies_nfkc_witness :
  @minimal_clean latin [65297; 65298] = @normalize latin NFKC [65297; 65298].
Proof.
  exact (@minimal_clean_applies_nfkc latin [65297; 65298] inert_digits_12).
Defined.

(** C9, as stated, fails: the fullwidth digit one (U+FF11) has the
    compatibility equivalent ["1"] and no canonical one; [minimal_clean]
    returns ["1"], where canonical composition leaves the character. *)
Lemma nfkc_replaces_fullwidth_digit :
  @minimal_clean latin [65297] = py "1"
  /\ @normalize latin NFC [65297] = [65297]
  /\ @minimal_clean_canonical latin [65297] = [65297]
  /\ str_eqb (@minimal_clean latin [65297])
             (@minimal_clean_canonical latin [65297]) = false.
Proof. vm_compute. repeat split. Qed.

(** * Empty bodies in the output *)

(** C5 fails on the code: a Pasal header directly followed by the next
    one gives a block with empty text; its row is not exploded (no
    marker), not filtered, and reaches the output with an empty body. *)
Lemma pipeline_emits_empty_body :
  option_map (List.map (fun r => (title r, text r)))
    (@pipeline latin [(cfgX, doc ["Pasal 1"; "Pasal 2"; "foo"]%string)])
  = Some [(py "Pasal 1", []); (py "Pasal 2", py "foo")].
Proof. vm_compute. reflexivity. Qed.

(** * The whitespace steps of [minimal_clean] as folds *)

Lemma takewhile_dropwhile p s : s = takewhile p s ++ dropwhile p s.
Proof.
  induction s as [|c s IH]; simpl; auto. destruct (p c); simpl; congruence.
Qed.

Lemma takewhile_all p s : Forall (fun c => p c = true) (takewhile p s).
Proof.
  induction s as [|c s IH]; simpl; auto. destruct (p c) eqn:E; auto.
Qed.

Lemma dropwhile_head p s :
  match dropwhile p s with
  | [] => True
  | d :: _ => p d = false
  end.
Proof.
  induction s as [|c s IH]; simpl; auto. destruct (p c) eqn:E; auto.
Qed.

Section AtLeastFacts.
Variables (p : char -> bool).

Lemma star_greedy (s0 : str) : forall s b cs,
  star p (fun _ s1 cs1 => Some ((length s0 - length s1)%nat, cs1)) b s cs
  = Some ((length s0 - length (dropwhile p s))%nat, cs).
Proof.
  induction s as [|c t IH]; intros b cs; simpl; auto.
  destruct (p c); auto. now rewrite IH.
Qed.

Lemma run_AtLeast (s0 : str) : forall n s b cs,
  run (AtLeast n p) b s cs
    (fun _ s1 cs1 => Some ((length s0 - length s1)%nat, cs1))
  = if (n <=? length (takewhile p s))%nat
    then Some ((length s0 - length (dropwhile p s))%nat, cs) else None.
Proof.
  induction n as [|n IH]; intros s b cs.
  - simpl. apply star_greedy.
  - cbn [AtLeast run]. destruct s as [|c t]; simpl; auto.
    destruct (p c); simpl; auto.
Qed.

Lemma match_at_AtLeast n s b :
  match_at (AtLeast n p) b s
  = if (n <=? length (takewhile p s))%nat
    then Some (length (takewhile p s), []) else None.
Proof.
  unfold match_at. rewrite run_AtLeast.
  destruct (n <=? _)%nat; auto. f_equal. f_equal.
  rewrite (takewhile_dropwhile p s) at 1. rewrite length_app. lia.
Qed.
End AtLeastFacts.

Section Squeeze.
Variables (p : char -> bool) (n : nat) (repl : str).
Hypothesis n_pos : (0 < n)%nat.

Local Abbreviation out := (sub_from (AtLeast n p) repl).

Lemma out_skip : forall s k b, (k <= length s)%nat ->
  exists b', out k b s = out 0 b' (skipn k s).
Proof.
  induction s as [|c t IH]; intros k b Hk.
  - assert (k = O) by (simpl in Hk; lia). subst. now exists b.
  - destruct k as [|k]; [now exists b|]. simpl in Hk.
    destruct (IH k (is_lf c)) as (b' & E); [lia|].
    exists b'. unfold sub_from in *. simpl. exact E.
Qed.

Lemma squeeze_run : forall held acc rest,
  Forall (fun c => p c = true) held ->
  squeeze p n repl acc (held ++ rest) = squeeze p n repl (rev held ++ acc) rest.
Proof.
  induction held as [|c held IH]; intros acc rest F; simpl; auto.
  inversion F as [|? ? Hc F']; subst. rewrite Hc, IH by auto.
  now rewrite <- app_assoc.
Qed.

Lemma flush_nil : flush n repl [] = [].
Proof.
  unfold flush. simpl.
  destruct (n <=? 0)%nat eqn:E; [apply Nat.leb_le in E; lia|]. reflexivity.
Qed.

Lemma squeeze_nil_head rest :
  match rest with [] => True | d :: _ => p d = false end ->
  forall acc, squeeze p n repl acc rest
              = flush n repl (rev acc) ++ squeeze p n repl [] rest.
Proof.
  intros H acc. destruct rest as [|d rest]; simpl.
  - now rewrite flush_nil, app_nil_r.
  - now rewrite H, flush_nil.
Qed.

Lemma out_squeeze : forall m s b, (length s <= m)%nat ->
  out 0 b s = squeeze p n repl [] s.
Proof.
  induction m as [|m IH]; intros s b Hm.
  - destruct s; [|simpl in Hm; lia]. unfold sub_from. simpl. now rewrite flush_nil.
  - destruct s as [|c t].
    + unfold sub_from. simpl. now rewrite flush_nil.
    + simpl in Hm. unfold sub_from. cbn [scan]. rewrite match_at_AtLeast.
      pose proof (takewhile_dropwhile p (c :: t)) as Es.
      pose proof (takewhile_all p (c :: t)) as Fa.
      pose proof (dropwhile_head p (c :: t)) as Hd.
      destruct (n <=? length (takewhile p (c :: t)))%nat eqn:E.
      * apply Nat.leb_le in E.
        destruct (length (takewhile p (c :: t))) as [|k] eqn:Ek; [lia|].
        rewrite render_gap, render_hit. simpl app.
        fold (out k (is_lf c) t).
        assert (Hl : length (c :: t)
                     = (S k + length (dropwhile p (c :: t)))%nat).
        { rewrite Es at 1. now rewrite length_app, Ek. }
        change (length (c :: t)) with (S (length t)) in Hl.
        assert (Hk : (k <= length t)%nat) by lia.
        destruct (out_skip t (is_lf c) Hk) as (b' & ->).
        assert (Et : skipn k t = dropwhile p (c :: t)).
        { assert (skipn (S k) (c :: t) = dropwhile p (c :: t)).
          { rewrite Es at 1. rewrite <- Ek. rewrite skipn_app, Nat.sub_diag.
            rewrite skipn_all. reflexivity. }
          exact H. }
        rewrite Et, IH.
        2:{ lia. }
        rewrite Es at 2. rewrite squeeze_run by auto. rewrite app_nil_r.
        rewrite (squeeze_nil_head _ Hd (rev (takewhile p (c :: t)))), rev_involutive.
        unfold flush. rewrite Ek.
        assert ((n <=? S k)%nat = true) as -> by (apply Nat.leb_le; lia).
        reflexivity.
      * apply Nat.leb_gt in E. rewrite render_scan_gap. simpl rev.
        fold (out 0 (is_lf c) t). rewrite IH by lia.
        simpl in Hd, E |- *. destruct (p c) eqn:Hc.
        2:{ now rewrite flush_nil. }
        simpl in E. set (tw := takewhile p t) in *. set (d := dropwhile p t) in *.
        assert (Et : t = tw ++ d) by apply takewhile_dropwhile.
        assert (Ft : Forall (fun c => p c = true) tw) by apply takewhile_all.
        rewrite Et.
        rewrite (@squeeze_run tw [] d Ft), (@squeeze_run tw [c] d Ft).
        rewrite (squeeze_nil_head _ Hd (rev tw ++ [])).
        rewrite (squeeze_nil_head _ Hd (rev tw ++ [c])).
        rewrite !rev_app_distr, !rev_involutive. simpl.
        unfold flush. simpl length.
        assert ((n <=? S (length tw))%nat = false) as ->
          by (apply Nat.leb_gt; lia).
        assert ((n <=? length tw)%nat = false) as ->
          by (apply Nat.leb_gt; lia).
        reflexivity.
Qed.

Lemma re_sub_squeeze s : re_sub (AtLeast n p) repl s = squeeze p n repl [] s.
Proof.
  rewrite re_sub_render. unfold pieces.
  apply (@out_squeeze (length s) s true (le_n _)).
Qed.
End Squeeze.

Section RunsBelow.
Variables (p : char -> bool) (n : nat).

Lemma runs_below_run : forall a cur rest,
  Forall (fun c => p c = true) a ->
  runs_below p n cur (a ++ rest) <-> runs_below p n (cur + length a) rest.
Proof.
  induction a as [|c a IH]; intros cur rest F; simpl.
  - now rewrite Nat.add_0_r.
  - inversion F as [|? ? Hc F']; subst. rewrite Hc, IH by auto.
    now replace (S cur + length a)%nat with (cur + S (length a))%nat by lia.
Qed.

Lemma runs_below_mono : forall s cur cur',
  (cur <= cur')%nat -> runs_below p n cur' s -> runs_below p n cur s.
Proof.
  induction s as [|c s IH]; simpl; intros cur cur' L H.
  - lia.
  - destruct (p c).
    + apply (IH (S cur) (S cur')); auto. lia.
    + split; [lia|tauto].
Qed.

Lemma runs_below_bound : forall s cur, runs_below p n cur s -> (cur < n)%nat.
Proof.
  induction s as [|c s IH]; simpl; intros cur H; auto.
  destruct (p c); [|tauto]. apply IH in H. lia.
Qed.

Lemma runs_below_prefix : forall s z cur,
  runs_below p n cur (s ++ z) -> runs_below p n cur s.
Proof.
  induction s as [|c s IH]; simpl; intros z cur H.
  - apply (runs_below_bound _ _ H).
  - destruct (p c); [eauto|]. destruct H. eauto.
Qed.

Lemma runs_below_suffix : forall a s cur,
  runs_below p n cur (a ++ s) -> runs_below p n 0 s.
Proof.
  induction a as [|c a IH]; simpl; intros s cur H.
  - apply (runs_below_mono s (Nat.le_0_l cur) H).
  - destruct (p c); [eauto|]. destruct H. eauto.
Qed.

(** A text whose runs are all short is left alone. *)
Lemma squeeze_short repl : forall s held,
  runs_below p n (length held) s -> squeeze p n repl held s = rev held ++ s.
Proof.
  induction s as [|c s IH]; simpl; intros held H.
  - unfold flush. rewrite length_rev.
    assert ((n <=? length held)%nat = false) as -> by (apply Nat.leb_gt; lia).
    now rewrite app_nil_r.
  - destruct (p c).
    + rewrite (IH (c :: held)) by exact H. simpl. now rewrite <- app_assoc.
    + destruct H as [L H]. rewrite (IH []) by exact H. unfold flush.
      rewrite length_rev.
      assert ((n <=? length held)%nat = false) as -> by (apply Nat.leb_gt; lia).
      reflexivity.
Qed.

(** After the substitution every run is short. *)
Lemma squeeze_runs_below repl :
  Forall (fun c => p c = true) repl -> (length repl < n)%nat ->
  forall s held, Forall (fun c => p c = true) held ->
  runs_below p n 0 (squeeze p n repl held s).
Proof.
  intros Fr Lr.
  assert (Fl : forall held, Forall (fun c => p c = true) held ->
            Forall (fun c => p c = true) (flush n repl (rev held))
            /\ (length (flush n repl (rev held)) < n)%nat).
  { intros held F. unfold flush. rewrite length_rev.
    destruct (n <=? length held)%nat eqn:E; [auto|].
    apply Nat.leb_gt in E. rewrite length_rev. split; auto.
    now apply Forall_rev. }
  induction s as [|c s IH]; simpl; intros held F.
  - destruct (Fl held F) as [F1 L1].
    rewrite <- (app_nil_r (flush _ _ _)). apply runs_below_run; auto.
  - destruct (p c) eqn:Hc.
    + apply IH. auto.
    + destruct (Fl held F) as [F1 L1]. apply runs_below_run; auto.
      simpl. rewrite Hc. split; auto.
Qed.
End RunsBelow.

Lemma tidy_mono : forall s prev, tidy prev s -> tidy false s.
Proof. destruct s; simpl; intuition. Qed.

Lemma tidy_prefix : forall s z prev, tidy prev (s ++ z) -> tidy prev s.
Proof.
  induction s as [|c s IH]; simpl; intros z prev H; auto.
  destruct H. eauto.
Qed.

Lemma tidy_suffix : forall a s prev, tidy prev (a ++ s) -> tidy false s.
Proof.
  induction a as [|c a IH]; simpl; intros s prev H.
  - now apply tidy_mono in H.
  - destruct H. eauto.
Qed.

Lemma tidy_lf_run : forall a prev rest,
  a <> [] -> Forall (fun c => is_lf c = true) a ->
  tidy prev (a ++ rest) <-> prev = false /\ tidy false rest.
Proof.
  induction a as [|c a IH]; intros prev rest Ha F; [contradiction|].
  inversion F as [|? ? Hc F']; subst. simpl. rewrite Hc, andb_false_r.
  destruct a as [|d a].
  - simpl. tauto.
  - rewrite IH by (auto; discriminate). tauto.
Qed.

Lemma tidy_blank_run : forall a prev rest,
  a <> [] -> Forall (fun c => blank c = true) a ->
  tidy prev (a ++ rest) <-> tidy true rest.
Proof.
  induction a as [|c a IH]; intros prev rest Ha F; [contradiction|].
  inversion F as [|? ? Hc F']; subst. simpl.
  assert (El : is_lf c = false) by chars.
  assert (Es : isspace c = true) by now apply blank_isspace.
  rewrite El, Es. simpl. destruct a as [|d a].
  - simpl. intuition discriminate.
  - rewrite IH by (auto; discriminate). intuition discriminate.
Qed.

Section SqueezeKeeps.
(** A property of texts that does not see a run of [p] being replaced
    by [repl] holds after the substitution if it held before. *)
Variables (p : char -> bool) (n : nat) (repl : str) (Inv : str -> Prop).
Hypothesis n_pos : (0 < n)%nat.
Hypothesis blind : forall pre a rest,
  a <> [] -> Forall (fun c => p c = true) a ->
  Inv (pre ++ a ++ rest) -> Inv (pre ++ repl ++ rest).

Lemma flush_keeps pre held rest :
  Forall (fun c => p c = true) held ->
  Inv (pre ++ rev held ++ rest) -> Inv (pre ++ flush n repl (rev held) ++ rest).
Proof.
  intros F H. unfold flush. destruct (n <=? length (rev held))%nat eqn:E; auto.
  apply Nat.leb_le in E. apply blind with (a := rev held); auto.
  - destruct (rev held); [simpl in E; lia|discriminate].
  - now apply Forall_rev.
Qed.

Lemma squeeze_keeps_from : forall s pre held,
  Forall (fun c => p c = true) held ->
  Inv (pre ++ rev held ++ s) -> Inv (pre ++ squeeze p n repl held s).
Proof.
  induction s as [|c s IH]; simpl; intros pre held F H.
  - rewrite <- (app_nil_r (flush _ _ _)). now apply flush_keeps.
  - destruct (p c) eqn:Hc.
    + apply IH; auto. simpl. now rewrite <- app_assoc.
    + apply flush_keeps in H; auto.
      replace (pre ++ flush n repl (rev held) ++ c :: squeeze p n repl [] s)
        with ((pre ++ flush n repl (rev held) ++ [c]) ++ squeeze p n repl [] s)
        by (now rewrite <- !app_assoc).
      apply IH; auto. simpl. now rewrite <- !app_assoc.
Qed.

Lemma squeeze_keeps s : Inv s -> Inv (squeeze p n repl [] s).
Proof. intros H. apply (squeeze_keeps_from s [] (Forall_nil _) H). Qed.
End SqueezeKeeps.

Lemma NEWLINES_squeeze s : re_sub NEWLINES_RE [LF; LF] s = squeeze_newlines s.
Proof. apply re_sub_squeeze. lia. Qed.

Lemma BLANKS_squeeze s : re_sub BLANKS_RE [SP] s = squeeze_blanks s.
Proof. apply re_sub_squeeze. lia. Qed.

Lemma Forall_blind (Q : char -> Prop) repl :
  Forall Q repl ->
  forall pre (a : str) rest,
  Forall Q (pre ++ a ++ rest) -> Forall Q (pre ++ repl ++ rest).
Proof.
  intros Fr pre a rest H. apply Forall_app in H as [H1 H2].
  apply Forall_app in H2 as [_ H2]. repeat (apply Forall_app; split); auto.
Qed.

Lemma squeeze_Forall (Q : char -> Prop) p n repl s :
  (0 < n)%nat -> Forall Q repl -> Forall Q s -> Forall Q (squeeze p n repl [] s).
Proof.
  intros Hn Fr. apply squeeze_keeps; auto.
  intros pre a rest _ _. now apply Forall_blind.
Qed.

Lemma tidy_app_state : forall pre prev x y,
  (forall st, tidy st x -> tidy st y) ->
  tidy prev (pre ++ x) -> tidy prev (pre ++ y).
Proof.
  induction pre as [|c pre IH]; simpl; intros prev x y H T; auto.
  destruct T. split; auto. apply IH with (x := x); auto.
Qed.

Lemma squeeze_newlines_tidy s : tidy false s -> tidy false (squeeze_newlines s).
Proof.
  apply squeeze_keeps; [lia|]. intros pre a rest Ha Fa.
  apply tidy_app_state; auto. intros st H.
  apply tidy_lf_run in H; auto.
  apply (@tidy_lf_run [LF; LF] st rest); auto. discriminate.
Qed.

Lemma squeeze_blanks_tidy s : tidy false s -> tidy false (squeeze_blanks s).
Proof.
  apply squeeze_keeps; [lia|]. intros pre a rest Ha Fa.
  apply tidy_app_state; auto. intros st H.
  apply tidy_blank_run in H; auto.
  apply (@tidy_blank_run [SP] st rest); auto. discriminate.
Qed.

Lemma runs_below_app_state p n : forall pre cur x y,
  (forall st, runs_below p n st x -> runs_below p n st y) ->
  runs_below p n cur (pre ++ x) -> runs_below p n cur (pre ++ y).
Proof.
  induction pre as [|c pre IH]; simpl; intros cur x y H T; auto.
  destruct (p c); [eauto|]. destruct T. split; eauto.
Qed.

(** A run of characters outside [q]: the runs of [q] end before it and
    start anew after it. *)
Lemma runs_below_break q n : forall a st rest,
  a <> [] -> Forall (fun c => q c = false) a ->
  runs_below q n st (a ++ rest) <-> (st < n)%nat /\ runs_below q n 0 rest.
Proof.
  induction a as [|c a IH]; intros st rest Ha F; [contradiction|].
  inversion F as [|? ? Hc F']; subst. simpl. rewrite Hc.
  destruct a as [|d a]; [simpl; tauto|].
  rewrite IH by (auto; discriminate). intuition lia.
Qed.

Lemma squeeze_blanks_newline_runs s :
  runs_below is_lf 4 0 s -> runs_below is_lf 4 0 (squeeze_blanks s).
Proof.
  apply squeeze_keeps; [lia|]. intros pre a rest Ha Fa.
  apply runs_below_app_state. intros st H.
  assert (Fq : Forall (fun c => is_lf c = false) a).
  { revert Fa. apply Forall_impl. intros c Hc. chars. }
  apply (proj1 (@runs_below_break is_lf 4 a st rest Ha Fq)) in H.
  apply (proj2 (@runs_below_break is_lf 4 [SP] st rest
                  ltac:(discriminate) ltac:(repeat constructor))).
  exact H.
Qed.

(** * Lines *)

Lemma dropwhile_fixed p s :
  match s with [] => True | c :: _ => p c = false end -> dropwhile p s = s.
Proof. destruct s as [|c s]; simpl; auto. now intros ->. Qed.

Lemma rstrip_fixed s : ends_clean s -> rstrip s = s.
Proof.
  unfold ends_clean, rstrip. intros H.
  rewrite dropwhile_fixed by exact H. apply rev_involutive.
Qed.

Lemma rstrip_ends_clean s : ends_clean (rstrip s).
Proof.
  unfold ends_clean, rstrip. rewrite rev_involutive. apply dropwhile_head.
Qed.

Lemma ends_clean_suffix a s : s <> [] -> ends_clean (a ++ s) -> ends_clean s.
Proof.
  unfold ends_clean. rewrite rev_app_distr. intros Hs.
  destruct (rev s) eqn:E; auto.
Qed.

Lemma strip_clean s : starts_clean (strip s) /\ ends_clean (strip s).
Proof.
  unfold strip, lstrip. split.
  - apply dropwhile_head.
  - destruct (dropwhile_suffix isspace (rstrip s)) as (a & E).
    destruct (dropwhile isspace (rstrip s)) as [|c d] eqn:Ed; [exact I|].
    apply ends_clean_suffix with (a := a); [discriminate|].
    rewrite <- E. apply rstrip_ends_clean.
Qed.

Lemma strip_fixed s : starts_clean s -> ends_clean s -> strip s = s.
Proof.
  intros Hs He. unfold strip, lstrip. rewrite rstrip_fixed by auto.
  now apply dropwhile_fixed.
Qed.

Lemma rstrip_prefix s : exists z, s = rstrip s ++ z.
Proof.
  unfold rstrip. destruct (dropwhile_suffix isspace (rev s)) as (a & E).
  exists (rev a). rewrite <- rev_app_distr, <- E. now rewrite rev_involutive.
Qed.

Lemma splitlines_cons : forall t cur c, splitlines_aux cur (c :: t) <> [].
Proof.
  induction t as [|d t IH]; intros cur c.
  - simpl. destruct (is_linebreak c); discriminate.
  - change (splitlines_aux cur (c :: d :: t))
      with (if is_linebreak c
            then if (c =? CR) && (d =? LF)
                 then rev cur :: splitlines_aux [] t
                 else rev cur :: splitlines_aux [] (d :: t)
            else splitlines_aux (c :: cur) (d :: t)).
    destruct (is_linebreak c).
    + destruct ((c =? CR) && (d =? LF)); discriminate.
    + apply IH.
Qed.

Lemma join_cons sep a l : l <> [] -> join sep (a :: l) = a ++ sep ++ join sep l.
Proof. destruct l; [contradiction|reflexivity]. Qed.

(** The lines of [splitlines] hold the characters of the text, and no
    line boundary. *)
Lemma splitlines_Forall (Q : char -> Prop) : forall n s cur,
  (length s <= n)%nat -> Forall Q s -> Forall Q cur ->
  Forall (Forall Q) (splitlines_aux cur s).
Proof.
  induction n as [|n IH]; intros s cur Hn Fs Fc.
  - destruct s; [|simpl in Hn; lia]. simpl.
    destruct cur; repeat constructor; now apply Forall_rev.
  - destruct s as [|c t]; simpl.
    + destruct cur; repeat constructor; now apply Forall_rev.
    + simpl in Hn. inversion Fs as [|? ? Hc Ft]; subst.
      destruct (is_linebreak c).
      * destruct t as [|d t'].
        -- repeat constructor. now apply Forall_rev.
        -- inversion Ft; subst. simpl in Hn.
           destruct ((c =? CR) && (d =? LF)); constructor;
             try (now apply Forall_rev); apply IH; auto; simpl; lia.
      * apply IH; auto. lia.
Qed.

Lemma splitlines_nonbreak : forall n s cur,
  (length s <= n)%nat -> nonbreak cur ->
  Forall nonbreak (splitlines_aux cur s).
Proof.
  unfold nonbreak.
  induction n as [|n IH]; intros s cur Hn Fc.
  - destruct s; [|simpl in Hn; lia]. simpl.
    destruct cur; repeat constructor; now apply Forall_rev.
  - destruct s as [|c t]; simpl.
    + destruct cur; repeat constructor; now apply Forall_rev.
    + simpl in Hn. destruct (is_linebreak c) eqn:Hl.
      * destruct t as [|d t'].
        -- repeat constructor. now apply Forall_rev.
        -- simpl in Hn.
           destruct ((c =? CR) && (d =? LF)); constructor;
             try (now apply Forall_rev); apply IH; auto; simpl; lia.
      * apply IH; auto. lia.
Qed.

Lemma join_Forall (Q : char -> Prop) sep ls :
  Forall Q sep -> Forall (Forall Q) ls -> Forall Q (join sep ls).
Proof.
  intros Fs. induction 1 as [|l ls Hl F IH]; simpl; auto.
  destruct ls; auto. repeat (apply Forall_app; split); auto.
Qed.

Lemma rstrip_Forall (Q : char -> Prop) l : Forall Q l -> Forall Q (rstrip l).
Proof.
  intros F. destruct (rstrip_prefix l) as (z & E). rewrite E in F.
  now apply Forall_app in F.
Qed.

Lemma rstrip_lines_Forall (Q : char -> Prop) s :
  Q LF -> Forall Q s -> Forall Q (rstrip_lines s).
Proof.
  intros HQ F. unfold rstrip_lines, splitlines. apply join_Forall; auto.
  apply Forall_map. eapply Forall_impl; [apply rstrip_Forall|].
  apply (@splitlines_Forall Q (length s)); auto.
Qed.

Lemma tidy_app : forall a prev rest,
  tidy prev (a ++ rest)
  <-> tidy prev a
      /\ tidy (fold_left (fun _ c => isspace c && negb (is_lf c)) a prev) rest.
Proof.
  induction a as [|c a IH]; simpl; intros prev rest; [tauto|].
  rewrite IH. tauto.
Qed.

Lemma tidy_nonbreak : forall l prev, nonbreak l -> tidy prev l.
Proof.
  induction l as [|c l IH]; simpl; intros prev F; auto.
  inversion F as [|? ? Hc F']; subst. split; auto.
  intros H. exfalso. chars.
Qed.

Lemma state_after_clean l :
  ends_clean l ->
  fold_left (fun _ c => isspace c && negb (is_lf c)) l false = false.
Proof.
  unfold ends_clean. intros H.
  destruct (rev l) as [|c r] eqn:E.
  - apply (f_equal (@rev _)) in E. rewrite rev_involutive in E. now subst.
  - apply (f_equal (@rev _)) in E. rewrite rev_involutive in E. subst l.
    simpl. rewrite fold_left_app. simpl. now rewrite H.
Qed.

Lemma join_tidy ls :
  Forall nonbreak ls -> Forall ends_clean ls -> tidy false (join [LF] ls).
Proof.
  induction ls as [|l ls IH]; intros Fn Fe; simpl; auto.
  inversion Fn as [|? ? Hn Fn']; inversion Fe as [|? ? He Fe']; subst.
  destruct ls as [|l' ls].
  - now apply tidy_nonbreak.
  - apply tidy_app. split; [now apply tidy_nonbreak|].
    rewrite state_after_clean by auto. simpl. split; auto.
Qed.

(** What [rstrip_lines] makes of any text. *)
Lemma rstrip_lines_tidy s :
  only_lf (rstrip_lines s) /\ tidy false (rstrip_lines s).
Proof.
  unfold rstrip_lines, splitlines.
  pose proof (@splitlines_nonbreak (length s) s [] (le_n _) (Forall_nil _))
    as Fn.
  assert (Fn' : Forall nonbreak (List.map rstrip (splitlines_aux [] s))).
  { apply Forall_map. eapply Forall_impl; [|exact Fn].
    intros l. apply rstrip_Forall. }
  split.
  - apply join_Forall; [repeat constructor; auto|].
    eapply Forall_impl; [|exact Fn'].
    intros l. apply Forall_impl. intros c Hc H. congruence.
  - apply join_tidy; auto. apply Forall_map. apply Forall_forall.
    intros l _. apply rstrip_ends_clean.
Qed.

Lemma ws_state_snoc l c : ws_state (l ++ [c]) = isspace c && negb (is_lf c).
Proof. unfold ws_state. now rewrite fold_left_app. Qed.

(** A tidy text with line feeds only, not ending in whitespace, is what
    [rstrip_lines] returns for it. *)
Lemma rstrip_lines_fixed_from : forall y cur,
  nonbreak cur -> only_lf y -> tidy (ws_state (rev cur)) y ->
  ends_clean (rev cur ++ y) ->
  join [LF] (List.map rstrip (splitlines_aux cur y)) = rev cur ++ y.
Proof.
  induction y as [|c t IH]; intros cur Fc Fy T E.
  - rewrite app_nil_r in *. simpl. destruct cur as [|x cur]; auto.
    simpl join. now apply rstrip_fixed.
  - inversion Fy as [|? ? Hc Fy']; subst. destruct T as [T1 T2].
    destruct (is_linebreak c) eqn:Hl.
    + specialize (Hc eq_refl). subst c.
      destruct t as [|d t'].
      * exfalso. unfold ends_clean in E. rewrite rev_app_distr in E.
        simpl in E. discriminate.
      * change (splitlines_aux cur (LF :: d :: t'))
          with (rev cur :: splitlines_aux [] (d :: t')).
        cbn [List.map]. rewrite join_cons.
        2:{ intros H. apply map_eq_nil in H. now apply splitlines_cons in H. }
        rewrite (IH []); auto.
        -- simpl. f_equal. apply rstrip_fixed.
           specialize (T1 eq_refl). unfold ends_clean. rewrite rev_involutive.
           destruct cur as [|x cur]; auto. cbn [rev] in T1.
           rewrite ws_state_snoc in T1. inversion Fc as [|? ? Hx _]; subst.
           assert (is_lf x = false) by chars.
           rewrite H in T1. simpl in T1. now rewrite andb_true_r in T1.
        -- constructor.
        -- apply (@ends_clean_suffix (rev cur ++ [LF]) (d :: t'));
             [discriminate|]. now rewrite <- app_assoc.
    + simpl. rewrite Hl. rewrite (IH (c :: cur)).
      * simpl. now rewrite <- app_assoc.
      * constructor; auto.
      * exact Fy'.
      * cbn [rev]. now rewrite ws_state_snoc.
      * simpl. now rewrite <- app_assoc.
Qed.

Lemma rstrip_lines_fixed y :
  only_lf y -> tidy false y -> ends_clean y -> rstrip_lines y = y.
Proof.
  intros F T E. unfold rstrip_lines, splitlines.
  now apply (rstrip_lines_fixed_from (cur := []) (Forall_nil _) F).
Qed.

(** * The tail of [minimal_clean] *)

Lemma factor_Forall (Q : char -> Prop) (a s z : str) :
  Forall Q (a ++ s ++ z) -> Forall Q s.
Proof.
  intros H. apply Forall_app in H as [_ H]. now apply Forall_app in H.
Qed.

(** The output of the tail is a fixed point of each of its steps. *)
Lemma clean_tail_fixed x :
  let y := clean_tail x in
  rstrip_lines y = y /\ squeeze_newlines y = y /\ squeeze_blanks y = y
  /\ strip y = y.
Proof.
  intros y. subst y. unfold clean_tail.
  set (a := rstrip_lines x).
  set (b := squeeze_newlines a).
  set (c := squeeze_blanks b).
  destruct (rstrip_lines_tidy x) as [La Ta]. fold a in La, Ta.
  assert (Lb : only_lf b).
  { apply squeeze_Forall; [lia| |exact La]. repeat constructor; auto. }
  assert (Tb : tidy false b) by now apply squeeze_newlines_tidy.
  assert (Nb : runs_below is_lf 4 0 b).
  { apply squeeze_runs_below; auto; simpl; lia. }
  assert (Lc : only_lf c).
  { apply squeeze_Forall; [lia| |exact Lb].
    constructor; [intros H; vm_compute in H; discriminate|constructor]. }
  assert (Tc : tidy false c) by now apply squeeze_blanks_tidy.
  assert (Nc : runs_below is_lf 4 0 c) by now apply squeeze_blanks_newline_runs.
  assert (Bc : runs_below blank 2 0 c).
  { apply squeeze_runs_below; auto; simpl; lia. }
  destruct (strip_middle c) as (pre & post & Ec).
  destruct (strip_clean c) as [Hs He].
  set (y := strip c) in *.
  assert (Ly : only_lf y) by (rewrite Ec in Lc; now apply factor_Forall in Lc).
  assert (Ty : tidy false y).
  { rewrite Ec in Tc. apply tidy_suffix in Tc. now apply tidy_prefix in Tc. }
  assert (Ny : runs_below is_lf 4 0 y).
  { rewrite Ec in Nc. apply runs_below_suffix in Nc.
    now apply runs_below_prefix in Nc. }
  assert (By : runs_below blank 2 0 y).
  { rewrite Ec in Bc. apply runs_below_suffix in Bc.
    now apply runs_below_prefix in Bc. }
  repeat match goal with |- _ /\ _ => split end.
  - now apply rstrip_lines_fixed.
  - unfold squeeze_newlines. now rewrite squeeze_short.
  - unfold squeeze_blanks. now rewrite squeeze_short.
  - now apply strip_fixed.
Qed.

Lemma clean_tail_idempotent x : clean_tail (clean_tail x) = clean_tail x.
Proof.
  destruct (clean_tail_fixed x) as (A & B & C & D).
  unfold clean_tail at 1. now rewrite A, B, C, D.
Qed.

(** * [minimal_clean] on plain text *)

Lemma re_sub_absent r repl (x : char) s :
  (forall m, lang r m -> In x m) -> ~ In x s -> re_sub r repl s = s.
Proof.
  intros L H. unfold re_sub, pieces. rewrite scan_no_match.
  - simpl. now rewrite app_nil_r.
  - intros a s' b' ->. destruct (match_at r b' s') as [[n g]|] eqn:E; auto.
    exfalso. apply match_at_sound in E as (b1 & s1 & Hr & _).
    apply rm_lang in Hr as (m & -> & Hm). apply H.
    apply in_or_app. right. apply in_or_app. left. now apply L.
Qed.

Section PlainText.
Context {U : Unicode}.

Lemma HYPHEN_has_hyphen m : lang HYPHEN_RE m -> In 45 m.
Proof.
  unfold HYPHEN_RE, Seqs, Chr. cbn [lang].
  intros (m1 & m2 & -> & (c & -> & Hc) & _).
  apply N.eqb_eq in Hc. subst. now left.
Qed.

Lemma DOTS_has_dot m : lang DOTS_RE m -> In 46 m.
Proof.
  unfold DOTS_RE, Seqs, Chr. cbn [lang].
  intros (m1 & m2 & -> & _ & m3 & m4 & -> & (c & -> & Hc) & _).
  apply N.eqb_eq in Hc. subst. apply in_or_app. right. now left.
Qed.

Lemma plain_no_hyphen s : Forall plain s -> ~ In 45 s /\ ~ In 46 s.
Proof.
  intros F. rewrite Forall_forall in F.
  split; intros H; apply F in H; discriminate.
Qed.

Lemma remove_nul_Forall (Q : char -> Prop) s :
  Forall Q s -> Forall Q (remove_nul s).
Proof.
  intros F. unfold remove_nul. apply Forall_forall. intros c Hc.
  apply filter_In in Hc as [Hc _]. rewrite Forall_forall in F. auto.
Qed.

Lemma remove_nul_fixed s : Forall (fun c => c <> NUL) s -> remove_nul s = s.
Proof.
  induction 1 as [|c s Hc F IH]; simpl; auto.
  destruct (N.eqb_spec c NUL); [contradiction|]. simpl. now rewrite IH.
Qed.

Lemma remove_nul_no_nul s : Forall (fun c => c <> NUL) (remove_nul s).
Proof.
  unfold remove_nul. apply Forall_forall. intros c Hc.
  apply filter_In in Hc as [_ Hc]. apply negb_true_iff in Hc.
  now apply N.eqb_neq in Hc.
Qed.

Lemma clean_tail_Forall (Q : char -> Prop) s :
  Q LF -> Q SP -> Forall Q s -> Forall Q (clean_tail s).
Proof.
  intros HL HS F. unfold clean_tail.
  destruct (strip_middle (squeeze_blanks (squeeze_newlines (rstrip_lines s))))
    as (a & z & E).
  apply factor_Forall with (a := a) (z := z). rewrite <- E.
  apply squeeze_Forall; [lia|repeat constructor; auto|].
  apply squeeze_Forall; [lia|repeat constructor; auto|].
  now apply rstrip_lines_Forall.
Qed.

Hypothesis nfkc_ascii :
  forall s, Forall (fun c => c < 128) s -> normalize NFKC s = s.

(** On plain text without NUL only the tail of [minimal_clean] works. *)
Lemma minimal_clean_plain s :
  Forall plain s -> Forall (fun c => c <> NUL) s ->
  minimal_clean s = clean_tail s.
Proof.
  intros F Fn. unfold minimal_clean. rewrite remove_nul_fixed by auto.
  rewrite nfkc_ascii.
  2:{ revert F. apply Forall_impl. intros c Hc. unfold plain in Hc.
      apply andb_true_iff in Hc as [Hc _]. apply andb_true_iff in Hc as [Hc _].
      now apply N.ltb_lt in Hc. }
  destruct (plain_no_hyphen F) as [H1 H2].
  rewrite (@re_sub_absent HYPHEN_RE [] 45 s HYPHEN_has_hyphen H1).
  rewrite (@re_sub_absent DOTS_RE [ELLIPSIS] 46 s DOTS_has_dot H2).
  now rewrite NEWLINES_squeeze, BLANKS_squeeze.
Qed.

Lemma minimal_clean_plain_nul t :
  Forall plain t -> minimal_clean t = minimal_clean (remove_nul t).
Proof.
  intros F. unfold minimal_clean.
  now rewrite (remove_nul_fixed (remove_nul_no_nul t)).
Qed.

Lemma minimal_clean_twice t :
  Forall plain t -> minimal_clean (minimal_clean t) = minimal_clean t.
Proof.
  intros F. rewrite (minimal_clean_plain_nul F).
  pose proof (remove_nul_Forall F) as Fp.
  pose proof (remove_nul_no_nul t) as Fn.
  rewrite (minimal_clean_plain Fp Fn).
  rewrite minimal_clean_plain.
  - apply clean_tail_idempotent.
  - apply clean_tail_Forall; auto; reflexivity.
  - apply clean_tail_Forall; auto; discriminate.
Qed.
End PlainText.

(** On plain text only steps 5 to 8 work, so there twice is once, for
    every Unicode database whose NFKC leaves ASCII text as it is. *)
Theorem minimal_clean_idempotent_plain (U : Unicode) :
  (forall s, Forall (fun c => c < 128) s -> normalize NFKC s = s) ->
  forall t, Forall plain t ->
  minimal_clean (minimal_clean t) = minimal_clean t.
Proof. intros H t F. now apply minimal_clean_twice. Qed.

Lemma latin_normalize_ascii s :
  Forall (fun c => c < 128) s -> @normalize latin NFKC s = s.
Proof. apply latin_nfkc_ascii. Qed.

Lemma sample_plain_is_plain : Forall plain sample_plain.
Proof. repeat constructor. Qed.

Lemma minimal_clean_idempotent_plain_witness :
  @minimal_clean latin (@minimal_clean latin sample_plain)
  = @minimal_clean latin sample_plain.
Proof.
  exact (@minimal_clean_idempotent_plain latin latin_normalize_ascii
           sample_plain sample_plain_is_plain).
Defined.

(** C3, as stated, fails: in ["a-  \nb"] the hyphen is not directly
    before the line feed, so the first pass only strips the blanks;
    the second pass then finds ["-\n"] and joins the two fragments. *)
Lemma minimal_clean_not_idempotent :
  let t := doc ["a-  "; "b"]%string in
  @minimal_clean latin t = doc ["a-"; "b"]%string
  /\ @minimal_clean latin (@minimal_clean latin t) = py "ab"
  /\ str_eqb (@minimal_clean latin (@minimal_clean latin t))
             (@minimal_clean latin t) = false.
Proof. vm_compute. repeat split. Qed.

(** ** STEP 1: [read_pdf_text]

    The two extraction libraries are outside the program.  What they
    hand over is an argument here: for pypdf the text of each page
    ([None] where [extract_text] returns nothing), for pdfminer the text
    of the document; an outer [None] is an exception of the library. *)

(** * The text [read_pdf_text] returns *)

Lemma remove_cr_no_cr t : Forall (fun c => c <> CR) (remove_cr t).
Proof.
  unfold remove_cr. apply Forall_forall. intros c H.
  apply filter_In in H as [_ H]. apply negb_true_iff in H.
  now apply N.eqb_neq in H.
Qed.

Lemma extract_with_pypdf_no_cr pages :
  Forall (fun c => c <> CR) (extract_with_pypdf pages).
Proof.
  unfold extract_with_pypdf. apply join_Forall.
  - repeat constructor. discriminate.
  - apply Forall_map. apply Forall_forall. intros p _. apply remove_cr_no_cr.
Qed.

(** X1: whatever the libraries return or raise, the text of
    [read_pdf_text] has no carriage return. *)
Theorem read_pdf_text_no_cr pypdf pdfminer :
  Forall (fun c => c <> CR) (read_pdf_text pypdf pdfminer).
Proof.
  unfold read_pdf_text.
  assert (F : Forall (fun c => c <> CR) (try_pypdf pypdf)).
  { destruct pypdf; [apply extract_with_pypdf_no_cr|constructor]. }
  destruct (_ <? 500)%nat; auto. destruct pdfminer as [raw|]; auto.
  destruct (_ <? _)%nat; auto. apply remove_cr_no_cr.
Qed.

(** X2: [read_pdf_text] returns the text of one of the two libraries and
    never less than pypdf gave; a pypdf text of 500 characters or more is
    returned as it is, even when pdfminer would give more; below that,
    the result is as long as the longest text a library gave; and when
    both libraries raise, it is the empty text. *)
Theorem read_pdf_text_longest pypdf pdfminer :
  (length (try_pypdf pypdf) <= length (read_pdf_text pypdf pdfminer))%nat
  /\ ((500 <= length (try_pypdf pypdf))%nat ->
      read_pdf_text pypdf pdfminer = try_pypdf pypdf)
  /\ (forall raw, pdfminer = Some raw ->
        (length (try_pypdf pypdf) < 500)%nat ->
        (length (extract_with_pdfminer raw)
         <= length (read_pdf_text pypdf pdfminer))%nat)
  /\ (read_pdf_text pypdf pdfminer = try_pypdf pypdf
      \/ exists raw, pdfminer = Some raw
                     /\ read_pdf_text pypdf pdfminer
                        = extract_with_pdfminer raw)
  /\ read_pdf_text None None = [].
Proof.
  unfold read_pdf_text. set (txt := try_pypdf pypdf).
  destruct (length txt <? 500)%nat eqn:E.
  - apply Nat.ltb_lt in E. destruct pdfminer as [raw|].
    + destruct (length txt <? length (extract_with_pdfminer raw))%nat eqn:E2.
      * apply Nat.ltb_lt in E2.
        repeat match goal with |- _ /\ _ => split end; try lia; eauto.
        intros raw' H _. inversion H; subst. lia.
      * apply Nat.ltb_ge in E2.
        repeat match goal with |- _ /\ _ => split end; try lia; auto.
        intros raw' H _. inversion H; subst. lia.
    + repeat match goal with |- _ /\ _ => split end; try lia; auto.
      discriminate.
  - apply Nat.ltb_ge in E.
    repeat match goal with |- _ /\ _ => split end; try lia; auto.
Qed.

(** * Line offsets and marks *)

Lemma located_here pre ln rest : located (pre ++ ln ++ rest) (length pre) ln.
Proof.
  unfold located. rewrite skipn_app, Nat.sub_diag, skipn_all. simpl.
  rewrite firstn_app, Nat.sub_diag, firstn_all. simpl. now rewrite app_nil_r.
Qed.

(** Without carriage returns every line boundary is one character, and
    the offsets the loop adds up are where the lines stand. *)
Lemma splitlines_located : forall t cur pre,
  Forall (fun c => c <> CR) t ->
  Forall2 (located (pre ++ rev cur ++ t))
    (line_starts_from (length pre) (splitlines_aux cur t))
    (splitlines_aux cur t).
Proof.
  induction t as [|c t IH]; intros cur pre F.
  - simpl. destruct cur as [|x cur]; constructor; [|constructor].
    rewrite app_nil_r.
    rewrite <- (app_nil_r (rev (x :: cur))) at 1. apply located_here.
  - inversion F as [|? ? Hc F']; subst.
    assert (E : splitlines_aux cur (c :: t)
                = if is_linebreak c then rev cur :: splitlines_aux [] t
                  else splitlines_aux (c :: cur) t).
    { simpl. destruct (is_linebreak c); auto. destruct t as [|d t']; auto.
      assert ((c =? CR) = false) as -> by now apply N.eqb_neq. reflexivity. }
    rewrite E. destruct (is_linebreak c).
    + simpl. constructor.
      * apply located_here.
      * specialize (IH [] (pre ++ rev cur ++ [c]) F').
        rewrite !length_app in IH. simpl in IH.
        rewrite length_rev in *. rewrite Nat.add_assoc in IH.
        rewrite <- !app_assoc in IH. simpl in IH. exact IH.
    + specialize (IH (c :: cur) pre F'). simpl in IH.
      rewrite <- app_assoc in IH. exact IH.
Qed.

Section MarkFacts.
Context {U : Unicode}.

Lemma marks_of_from kind r : forall lines pos,
  Forall (fun m => pos <= fst m)%nat (marks_of kind r pos lines)
  /\ StronglySorted mark_before (marks_of kind r pos lines).
Proof.
  induction lines as [|l lines IH]; intros pos; simpl.
  - split; constructor.
  - destruct (IH (pos + length l + 1)%nat) as [B S].
    assert (B' : Forall (fun m => pos < fst m)%nat
                   (marks_of kind r (pos + length l + 1) lines)).
    { eapply Forall_impl; [|exact B]. simpl. intros m. lia. }
    destruct (match_at r true l) as [[n cs]|].
    + split.
      * constructor; [simpl; lia|]. eapply Forall_impl; [|exact B'].
        simpl. intros m. lia.
      * constructor; auto.
    + split; auto. eapply Forall_impl; [|exact B']. simpl. intros m. lia.
Qed.
End MarkFacts.

Lemma Forall2_nth (A B : Type) (R : A -> B -> Prop) xs ys :
  Forall2 R xs ys ->
  forall i x y, nth_error xs i = Some x -> nth_error ys i = Some y -> R x y.
Proof.
  induction 1 as [|x0 y0 xs ys H0 F IH]; intros [|i] x y Hx Hy;
    simpl in *; try discriminate.
  - inversion Hx; inversion Hy; subst. exact H0.
  - eauto.
Qed.

(** X3: the marks of a kind come in strictly ascending offsets, whatever
    the pattern and the text: the order the early exit of [nearest_tag]
    relies on. *)
Theorem marks_ascending kind r t :
  StronglySorted mark_before (marks_of kind r 0 (splitlines t)).
Proof. apply marks_of_from. Qed.

Lemma nearest_tag_from_spec idx : forall marks prev,
  StronglySorted mark_before marks ->
  (nearest_tag_from prev idx marks = prev
   /\ forall p' tg', In (p', tg') marks -> (idx < p')%nat)
  \/ enclosing idx marks (nearest_tag_from prev idx marks)
     /\ nearest_tag_from prev idx marks <> None.
Proof.
  induction marks as [|[p tg] marks IH]; intros prev S.
  - left. split; auto. intros ? ? [].
  - inversion S as [|? ? S' Fm]; subst. simpl.
    rewrite Forall_forall in Fm.
    destruct (p <=? idx)%nat eqn:E.
    + apply Nat.leb_le in E. right.
      destruct (IH (Some tg) S') as [[-> Hall]|[Henc Hne]].
      * split; [|discriminate]. exists p. repeat split; auto.
        -- now left.
        -- intros p' tg' [H|H] Hle; [inversion H; lia|].
           apply Hall in H. lia.
      * split; auto.
        destruct (nearest_tag_from (Some tg) idx marks) as [tg2|];
          [|contradiction].
        destruct Henc as (p2 & Hin & Hle & Hmax).
        exists p2. repeat split; auto.
        -- now right.
        -- intros p' tg' [H|H] Hle'; [|eauto].
           inversion H; subst. apply Fm in Hin. unfold mark_before in Hin.
           simpl in Hin. lia.
    + apply Nat.leb_gt in E. left. split; auto.
      intros p' tg' [H|H]; [inversion H; lia|].
      apply Fm in H. unfold mark_before in H. simpl in H. lia.
Qed.

Lemma nearest_tag_spec idx marks :
  StronglySorted mark_before marks ->
  enclosing idx marks (nearest_tag idx marks).
Proof.
  intros S. unfold nearest_tag.
  destruct (nearest_tag_from_spec idx None S) as [[-> H]|[H _]]; auto.
Qed.

Section EnclosingFacts.
Context {U : Unicode}.

Lemma blocks_tags t bk bb bg : forall ms i blk s e,
  nth_error (blocks_of t bk bb bg ms) i = Some blk ->
  nth_error (spans_of (length t) ms) i = Some (s, e) ->
  b_buku blk = nearest_tag s bk /\ b_bab blk = nearest_tag s bb
  /\ b_bagian blk = nearest_tag s bg.
Proof.
  induction ms as [|m ms IH]; intros [|i] blk s e H1 H2; simpl in *;
    try discriminate.
  - inversion H1; inversion H2; subst. simpl. auto.
  - eauto.
Qed.
End EnclosingFacts.

(** X5: for every block of [detect_structure], its BUKU, BAB and Bagian tags
    are those of the last heading line of each kind that starts at or
    before the block's start offset; a tag is absent exactly when every
    heading of its kind starts after the block. *)
Theorem blocks_enclosing_tags (U : Unicode) t i blk s e :
  nth_error (detect_structure t) i = Some blk ->
  nth_error (block_spans t) i = Some (s, e) ->
  enclosing s (marks_of (py "BUKU") BUKU_RE 0 (splitlines t)) (b_buku blk)
  /\ enclosing s (marks_of (py "BAB") BAB_RE 0 (splitlines t)) (b_bab blk)
  /\ enclosing s (marks_of (py "BAGIAN") BAGIAN_RE 0 (splitlines t))
       (b_bagian blk).
Proof.
  intros H1 H2. unfold detect_structure in H1. unfold block_spans in H2.
  destruct (blocks_tags _ _ _ _ _ _ H1 H2) as (-> & -> & ->).
  repeat match goal with |- _ /\ _ => split end;
    apply nearest_tag_spec, marks_of_from.
Qed.

Lemma blocks_enclosing_tags_witness :
  let blk := {| b_pasal_number := py "2"; b_text := py "dua";
                b_buku := None; b_bab := Some (py "BAB", py "II", []);
                b_bagian := None |} in
  enclosing 26 (marks_of (py "BUKU") (@BUKU_RE latin) 0
                  (splitlines sample_statute)) (b_buku blk)
  /\ enclosing 26 (marks_of (py "BAB") (@BAB_RE latin) 0
                     (splitlines sample_statute)) (b_bab blk)
  /\ enclosing 26 (marks_of (py "BAGIAN") (@BAGIAN_RE latin) 0
                     (splitlines sample_statute)) (b_bagian blk).
Proof.
  exact (@blocks_enclosing_tags latin sample_statute 1 _ 26 37
           eq_refl eq_refl).
Defined.

(** * The shape of cleaned text *)

Lemma clean_tail_shape x :
  let y := clean_tail x in
  starts_clean y /\ ends_clean y /\ only_lf y /\ tidy false y
  /\ runs_below is_lf 4 0 y /\ runs_below blank 2 0 y.
Proof.
  intros y. subst y. unfold clean_tail.
  set (a := rstrip_lines x).
  set (b := squeeze_newlines a).
  set (c := squeeze_blanks b).
  destruct (rstrip_lines_tidy x) as [La Ta]. fold a in La, Ta.
  assert (Lb : only_lf b).
  { apply squeeze_Forall; [lia| |exact La]. repeat constructor; auto. }
  assert (Tb : tidy false b) by now apply squeeze_newlines_tidy.
  assert (Nb : runs_below is_lf 4 0 b).
  { apply squeeze_runs_below; auto; simpl; lia. }
  assert (Lc : only_lf c).
  { apply squeeze_Forall; [lia| |exact Lb].
    constructor; [intros H; vm_compute in H; discriminate|constructor]. }
  assert (Tc : tidy false c) by now apply squeeze_blanks_tidy.
  assert (Nc : runs_below is_lf 4 0 c) by now apply squeeze_blanks_newline_runs.
  assert (Bc : runs_below blank 2 0 c).
  { apply squeeze_runs_below; auto; simpl; lia. }
  destruct (strip_middle c) as (pre & post & Ec).
  destruct (strip_clean c) as [Hs He].
  set (y := strip c) in *.
  repeat match goal with |- _ /\ _ => split end; auto.
  - rewrite Ec in Lc; now apply factor_Forall in Lc.
  - rewrite Ec in Tc. apply tidy_suffix in Tc. now apply tidy_prefix in Tc.
  - rewrite Ec in Nc. apply runs_below_suffix in Nc.
    now apply runs_below_prefix in Nc.
  - rewrite Ec in Bc. apply runs_below_suffix in Bc.
    now apply runs_below_prefix in Bc.
Qed.

Section CleanShape.
Context {U : Unicode}.

Lemma minimal_clean_tail t :
  minimal_clean t
  = clean_tail (re_sub DOTS_RE [ELLIPSIS]
                  (re_sub HYPHEN_RE [] (normalize NFKC (remove_nul t)))).
Proof.
  unfold minimal_clean, clean_tail.
  now rewrite NEWLINES_squeeze, BLANKS_squeeze.
Qed.

Lemma minimal_clean_shaped t :
  starts_clean (minimal_clean t) /\ ends_clean (minimal_clean t)
  /\ only_lf (minimal_clean t) /\ tidy false (minimal_clean t)
  /\ runs_below is_lf 4 0 (minimal_clean t)
  /\ runs_below blank 2 0 (minimal_clean t).
Proof.
  rewrite minimal_clean_tail. apply clean_tail_shape.
Qed.

Lemma minimal_clean_stripped t : strip (minimal_clean t) = minimal_clean t.
Proof.
  destruct (minimal_clean_shaped t) as (A & B & _).
  apply strip_fixed; [exact A|exact B].
Qed.
End CleanShape.

(** X8: whatever the text, [minimal_clean] returns a text that neither begins
    nor ends with whitespace, whose only line boundary is the line feed,
    with no space, tab or other whitespace right before a line feed, at
    most three line feeds in a row and never two blanks (space or tab) in
    a row; steps 5 to 8 applied to it again change nothing. *)
Theorem minimal_clean_shape (U : Unicode) (t : str) :
  starts_clean (minimal_clean t) /\ ends_clean (minimal_clean t)
  /\ only_lf (minimal_clean t) /\ tidy false (minimal_clean t)
  /\ runs_below is_lf 4 0 (minimal_clean t)
  /\ runs_below blank 2 0 (minimal_clean t)
  /\ clean_tail (minimal_clean t) = minimal_clean t.
Proof.
  destruct (minimal_clean_shaped t) as (A & B & C & D & E & F).
  split; [exact A|]. split; [exact B|]. split; [exact C|].
  split; [exact D|]. split; [exact E|]. split; [exact F|].
  rewrite minimal_clean_tail. apply clean_tail_idempotent.
Qed.

(** * The text of a block *)

Lemma BLANK_RUN_squeeze s :
  re_sub BLANK_RUN_RE [SP] s = squeeze blank 1 [SP] [] s.
Proof. apply (@re_sub_squeeze blank 1 [SP]). lia. Qed.

Lemma flush_one held :
  Forall (fun c => blank c = true) held ->
  flush 1 [SP] (rev held) = [] /\ held = []
  \/ flush 1 [SP] (rev held) = [SP].
Proof.
  intros F. unfold flush. rewrite length_rev. destruct held; simpl; auto.
Qed.

Lemma squeeze_one_no_tab : forall s held,
  Forall (fun c => blank c = true) held ->
  ~ In TAB (squeeze blank 1 [SP] held s).
Proof.
  induction s as [|c s IH]; simpl; intros held F.
  - destruct (flush_one F) as [[-> _]| ->]; simpl; [tauto|].
    intros [H|[]]. discriminate.
  - destruct (blank c) eqn:Hc.
    + apply IH. auto.
    + intros H. apply in_app_or in H as [H|[H|H]].
      * destruct (flush_one F) as [[E _]|E]; rewrite E in H;
          [contradiction|]. destruct H as [H|[]]. discriminate.
      * subst c. discriminate.
      * revert H. apply IH. constructor.
Qed.

Lemma squeeze_one_runs : forall s held,
  Forall (fun c => blank c = true) held ->
  runs_below blank 2 0 (squeeze blank 1 [SP] held s).
Proof.
  induction s as [|c s IH]; simpl; intros held F.
  - destruct (flush_one F) as [[-> _]| ->]; simpl; lia.
  - destruct (blank c) eqn:Hc.
    + apply IH. auto.
    + assert (T : runs_below blank 2 0 (squeeze blank 1 [SP] [] s))
        by (apply IH; constructor).
      destruct (flush_one F) as [[-> _]| ->]; simpl; rewrite Hc;
        repeat split; auto; lia.
Qed.

Lemma starts_clean_blind pre (a : str) rest :
  a <> [] -> Forall (fun c => blank c = true) a ->
  starts_clean (pre ++ a ++ rest) -> starts_clean (pre ++ [SP] ++ rest).
Proof.
  intros Ha Fa. destruct pre as [|c pre]; simpl; auto.
  destruct a as [|d a]; [contradiction|]. simpl.
  inversion Fa as [|? ? Hd _]; subst. apply blank_isspace in Hd. congruence.
Qed.

Lemma ends_clean_blind pre (a : str) rest :
  a <> [] -> Forall (fun c => blank c = true) a ->
  ends_clean (pre ++ a ++ rest) -> ends_clean (pre ++ [SP] ++ rest).
Proof.
  intros Ha Fa. unfold ends_clean. rewrite !rev_app_distr.
  destruct (rev rest) as [|c r] eqn:E; simpl; auto.
  destruct (rev a) as [|d a'] eqn:Ea.
  - apply (f_equal (@rev char)) in Ea. rewrite rev_involutive in Ea.
    subst a. contradiction.
  - simpl. apply Forall_rev in Fa. rewrite Ea in Fa.
    inversion Fa as [|? ? Hd _]; subst. apply blank_isspace in Hd. congruence.
Qed.

(** X7: the text of every block [detect_structure] returns neither begins nor
    ends with whitespace, holds no tab, and never two spaces in a row. *)
Theorem block_text_shape (U : Unicode) (label span : str) :
  starts_clean (block_text label span) /\ ends_clean (block_text label span)
  /\ ~ In TAB (block_text label span)
  /\ runs_below blank 2 0 (block_text label span).
Proof.
  unfold block_text. rewrite BLANK_RUN_squeeze.
  set (body := strip (re_sub (header_re label) [] (strip span))).
  destruct (strip_clean (re_sub (header_re label) [] (strip span)))
    as [Hs He]. fold body in Hs, He.
  repeat match goal with |- _ /\ _ => split end.
  - apply (@squeeze_keeps blank 1 [SP] starts_clean);
      [lia|apply starts_clean_blind|exact Hs].
  - apply (@squeeze_keeps blank 1 [SP] ends_clean);
      [lia|apply ends_clean_blind|exact He].
  - apply squeeze_one_no_tab. constructor.
  - apply squeeze_one_runs. constructor.
Qed.

(** * Where the rows of the explosion come from *)

Lemma str_eqb_eq : forall a b, str_eqb a b = true -> a = b.
Proof.
  induction a as [|x a IH]; destruct b as [|y b]; simpl; intros H;
    try discriminate; auto.
  apply andb_true_iff in H as [H1 H2]. apply N.eqb_eq in H1.
  f_equal; auto.
Qed.

Section ExplodeOrigin.
Context {U : Unicode}.

Lemma children_origin r prs :
  is_pasal_row r = true ->
  prs = pairs_of (pieces AYAT_SPLIT_RE (strip (text r))) ->
  Forall (ayat_of r) (children r prs).
Proof.
  intros Hp E. apply Forall_forall. intros x Hx. unfold children in Hx.
  apply in_flat_map in Hx as (p & Hin & Hx). unfold child in Hx.
  destruct (strip (snd p)) as [|c body] eqn:Es; [contradiction|].
  destruct Hx as [<-|[]]. split; auto. simpl.
  repeat match goal with |- _ /\ _ => split end.
  - now exists (strip (fst p)).
  - discriminate.
  - exists (snd p). split; auto. unfold runs. rewrite <- E. now apply in_map.
Qed.

Lemma explode_row_origin r :
  exists rows, explode_row r = Some rows
               /\ Forall (fun x => x = r \/ ayat_of r x) rows.
Proof.
  rewrite explode_row_pairs. eexists. split; [reflexivity|].
  destruct (is_pasal_row r) eqn:Hp; [|repeat constructor; auto].
  destruct (pairs_of (pieces AYAT_SPLIT_RE (strip (text r)))) as [|p prs] eqn:E;
    [repeat constructor; auto|].
  eapply Forall_impl; [|apply (@children_origin r (p :: prs) Hp)]; auto.
Qed.

Lemma explode_origin df :
  exists o, explode_ayat_rows_df df = Some o
            /\ Forall (fun x => In x df \/ exists r, In r df /\ ayat_of r x) o.
Proof.
  induction df as [|r df (o & E & F)]; simpl.
  - exists []. auto.
  - destruct (explode_row_origin r) as (rows & Er & Fr). rewrite Er, E.
    eexists. split; [reflexivity|]. apply Forall_app. split.
    + eapply Forall_impl; [|exact Fr]. simpl. intros x [->|H]; eauto.
    + eapply Forall_impl; [|exact F]. simpl.
      intros x [H|(r' & H & H')]; eauto.
Qed.

Lemma ayat_not_pasal r x :
  upper (py "AYAT") <> py "PASAL" -> ayat_of r x -> is_pasal_row x = false.
Proof.
  intros Hu (_ & (ay & E) & _). rewrite E. unfold is_pasal_row.
  destruct (str_eqb (upper (section_type (set_ayat r ay (text x))))
              (py "PASAL")) eqn:Eq; auto.
  apply str_eqb_eq in Eq. simpl in Eq. contradiction.
Qed.

Lemma explode_row_fixed r :
  upper (py "AYAT") <> py "PASAL" ->
  exists rows, explode_row r = Some rows
               /\ Forall (fun x => explode_row x = Some [x]) rows.
Proof.
  intros Hu. rewrite explode_row_pairs. eexists. split; [reflexivity|].
  destruct (is_pasal_row r) eqn:Hp.
  - destruct (pairs_of (pieces AYAT_SPLIT_RE (strip (text r))))
      as [|p prs] eqn:Ep.
    + repeat constructor. now rewrite explode_row_pairs, Hp, Ep.
    + eapply Forall_impl;
        [|apply (@children_origin r (p :: prs) Hp (eq_sym Ep))].
      intros x H. simpl.
      now rewrite explode_row_pairs, (ayat_not_pasal Hu H).
  - repeat constructor. now rewrite explode_row_pairs, Hp.
Qed.

Lemma explode_fixed rows :
  Forall (fun x => explode_row x = Some [x]) rows ->
  explode_ayat_rows_df rows = Some rows.
Proof.
  induction 1 as [|x rows Hx _ IH]; simpl; auto. now rewrite Hx, IH.
Qed.
End ExplodeOrigin.

(** X10: a row that is not a Pasal row without [ayat_number] (an Ayat
    row, say, or a row of another section type) is never exploded,
    whatever markers its text has: it stays as it is, in its place. *)
Theorem explode_keeps_other_rows (U : Unicode) before r after :
  is_pasal_row r = false ->
  exists o1 o2,
    explode_ayat_rows_df before = Some o1
    /\ explode_ayat_rows_df after = Some o2
    /\ explode_ayat_rows_df (before ++ r :: after) = Some (o1 ++ r :: o2).
Proof.
  intros H. apply (@explode_middle U before r after [r]).
  now rewrite explode_row_pairs, H.
Qed.

Lemma explode_keeps_other_rows_witness :
  @is_pasal_row latin
    (set_ayat (pasal_row (py "(1) satu")) (py "3") (py "(1) satu")) = false
  /\ exists o1 o2,
       @explode_ayat_rows_df latin [] = Some o1
       /\ @explode_ayat_rows_df latin [] = Some o2
       /\ @explode_ayat_rows_df latin
            ([] ++ set_ayat (pasal_row (py "(1) satu")) (py "3")
                     (py "(1) satu") :: [])
          = Some (o1 ++ set_ayat (pasal_row (py "(1) satu")) (py "3")
                          (py "(1) satu") :: o2).
Proof.
  split; [reflexivity|].
  apply (@explode_keeps_other_rows latin []
           (set_ayat (pasal_row (py "(1) satu")) (py "3") (py "(1) satu")) []).
  reflexivity.
Defined.

(** X11: the explosion is idempotent: its output has no row left to
    explode, so a second run returns it as it is (given that the upper
    case of AYAT is not PASAL). *)
Theorem explode_idempotent (U : Unicode) (df : list record) :
  upper (py "AYAT") <> py "PASAL" ->
  exists o, explode_ayat_rows_df df = Some o
            /\ explode_ayat_rows_df o = Some o.
Proof.
  intros Hu. induction df as [|r df (o & E & F)]; simpl.
  - exists []. auto.
  - destruct (explode_row_fixed r Hu) as (rows & Er & Fr). rewrite Er, E.
    eexists. split; [reflexivity|].
    apply explode_app; auto. now apply explode_fixed.
Qed.

Lemma explode_idempotent_witness :
  @upper latin (py "AYAT") <> py "PASAL"
  /\ exists o,
       @explode_ayat_rows_df latin
         [pasal_row (py "(1) satu (2) dua"); pasal_row (py "tiga")] = Some o
       /\ @explode_ayat_rows_df latin o = Some o.
Proof.
  split; [discriminate|].
  apply (@explode_idempotent latin
           [pasal_row (py "(1) satu (2) dua"); pasal_row (py "tiga")]).
  discriminate.
Defined.

(** * How the filter composes *)

Section FilterCompose.
Context {U : Unicode}.

Lemma drop_app a b :
  drop_penjelasan_df (a ++ b) = drop_penjelasan_df a ++ drop_penjelasan_df b.
Proof.
  induction a as [|r a IH]; simpl; auto.
  destruct (is_penjelasan r); simpl; now rewrite IH.
Qed.

Lemma drop_kept df :
  Forall (fun r => is_penjelasan r = false) (drop_penjelasan_df df).
Proof.
  induction df as [|r df IH]; simpl; auto.
  destruct (is_penjelasan r) eqn:E; auto.
Qed.

Lemma drop_fixed df :
  Forall (fun r => is_penjelasan r = false) df -> drop_penjelasan_df df = df.
Proof.
  induction 1 as [|r df Hr _ IH]; simpl; auto. now rewrite Hr, IH.
Qed.

Lemma is_penjelasan_numbers r p a :
  is_penjelasan (set_numbers r p a) = is_penjelasan r.
Proof. reflexivity. Qed.

Lemma drop_normalize df :
  drop_penjelasan_df (List.map normalize_numbers df)
  = List.map normalize_numbers (drop_penjelasan_df df).
Proof.
  induction df as [|r df IH]; simpl; auto.
  unfold normalize_numbers at 1. rewrite is_penjelasan_numbers.
  destruct (is_penjelasan r); simpl; now rewrite IH.
Qed.
End FilterCompose.

(** X12: the filter judges each row on its own: it is idempotent, the rows it
    keeps of two tables laid end to end are the rows it keeps of each,
    and it never returns more rows than it was given. *)
Theorem drop_penjelasan_composes (U : Unicode) :
  (forall df, drop_penjelasan_df (drop_penjelasan_df df)
              = drop_penjelasan_df df)
  /\ (forall a b, drop_penjelasan_df (a ++ b)
                  = drop_penjelasan_df a ++ drop_penjelasan_df b)
  /\ (forall df, (length (drop_penjelasan_df df) <= length df)%nat).
Proof.
  repeat match goal with |- _ /\ _ => split end.
  - intros df. apply drop_fixed, drop_kept.
  - apply drop_app.
  - induction df as [|r df IH]; simpl; auto.
    destruct (is_penjelasan r); simpl; lia.
Qed.

(** X13: the filter reads the title and the text only, so it commutes
    with the rewriting of the two number columns in [main]: dropping
    first and normalising the numbers afterwards gives the same table. *)
Theorem drop_commutes_with_numbers (U : Unicode) (df : list record) :
  drop_penjelasan_df (List.map normalize_numbers df)
  = List.map normalize_numbers (drop_penjelasan_df df).
Proof. apply drop_normalize. Qed.

(** X14: the rewriting of the number columns leaves a row as it is when
    its two numbers are strings without a full stop, as the labels and
    digits the patterns capture from ASCII text are. *)
Theorem normalize_numbers_keeps_plain (r : record) (a : str) :
  ayat_number r = Some a -> ~ In 46 (pasal_number r) -> ~ In 46 a ->
  normalize_numbers r = r.
Proof.
  intros Ea Hp Ha.
  assert (L : forall m, lang DOT_ZERO_RE m -> In 46 m).
  { unfold DOT_ZERO_RE, Seqs, Chr. cbn [lang].
    intros m (m1 & m2 & -> & (c & -> & Hc) & _).
    apply N.eqb_eq in Hc. subst. now left. }
  unfold normalize_numbers. rewrite Ea. simpl.
  rewrite !(@re_sub_absent DOT_ZERO_RE [] 46) by auto.
  destruct r. simpl in *. now subst.
Qed.

Lemma normalize_numbers_keeps_plain_witness :
  ayat_number (set_ayat (pasal_row (py "satu")) (py "2") (py "satu"))
  = Some (py "2")
  /\ normalize_numbers (set_ayat (pasal_row (py "satu")) (py "2") (py "satu"))
     = set_ayat (pasal_row (py "satu")) (py "2") (py "satu").
Proof.
  split; [reflexivity|].
  apply (@normalize_numbers_keeps_plain
           (set_ayat (pasal_row (py "satu")) (py "2") (py "satu")) (py "2")).
  - reflexivity.
  - simpl. intros [H|[]]. discriminate.
  - simpl. intros [H|[]]. discriminate.
Defined.

(** * The main flow, document by document *)

Section MainCompose.
Context {U : Unicode}.

Lemma all_records_app d1 d2 :
  all_records (d1 ++ d2) = all_records d1 ++ all_records d2.
Proof.
  induction d1 as [|[cfg raw] d1 IH]; simpl; auto.
  now rewrite IH, app_assoc.
Qed.

Lemma pipeline_eq docs :
  pipeline docs
  = option_map (fun df => drop_penjelasan_df (List.map normalize_numbers df))
      (explode_ayat_rows_df (all_records docs)).
Proof.
  unfold pipeline. destruct (all_records docs) as [|r recs] eqn:E; auto.
Qed.

Lemma pipeline_app d1 d2 :
  exists o1 o2, pipeline d1 = Some o1 /\ pipeline d2 = Some o2
                /\ pipeline (d1 ++ d2) = Some (o1 ++ o2).
Proof.
  rewrite !pipeline_eq, all_records_app.
  destruct (explode_ayat_rows_df (all_records d1)) as [a|] eqn:E1;
    [|now apply explode_total in E1].
  destruct (explode_ayat_rows_df (all_records d2)) as [b|] eqn:E2;
    [|now apply explode_total in E2].
  rewrite (explode_app _ _ E1 E2). simpl.
  do 2 eexists. repeat split. now rewrite map_app, drop_app.
Qed.
End MainCompose.

(** X15: documents are processed independently: the rows [main] produces for
    a list of documents are the rows it produces for any first part of
    the list followed by the rows it produces for the rest. *)
Theorem pipeline_documents_independent (U : Unicode) d1 d2 :
  exists o1 o2, pipeline d1 = Some o1 /\ pipeline d2 = Some o2
                /\ pipeline (d1 ++ d2) = Some (o1 ++ o2).
Proof. apply pipeline_app. Qed.

(** * The rows [main] writes *)

Section MainRows.
Context {U : Unicode}.

Lemma build_loop_In cfg blocks rec :
  In rec (build_loop cfg blocks) ->
  exists blk, In blk blocks /\ rec = build_record cfg blk.
Proof.
  induction blocks as [|b blocks IH]; simpl; [tauto|].
  intros [<-|H]; eauto. destruct (IH H) as (blk & Hb & E). eauto.
Qed.

Lemma build_records_In cfg raw rec :
  In rec (build_records_per_pdf cfg raw) ->
  strip raw <> []
  /\ exists blk, In blk (detect_structure raw) /\ rec = build_record cfg blk.
Proof.
  unfold build_records_per_pdf. destruct raw as [|c raw]; [intros []|].
  destruct (strip (c :: raw)) eqn:E; [intros []|]. intros H.
  split; [discriminate|]. now apply build_loop_In.
Qed.

Lemma all_records_In docs rec :
  In rec (all_records docs) ->
  exists cfg raw, In (cfg, raw) docs /\ In rec (build_records_per_pdf cfg raw).
Proof.
  induction docs as [|[cfg raw] docs IH]; simpl; [tauto|].
  intros H. apply in_app_or in H as [H|H]; eauto.
  destruct (IH H) as (cfg' & raw' & Hd & Hr). eauto.
Qed.

Lemma drop_In df x :
  In x (drop_penjelasan_df df) -> In x df /\ is_penjelasan x = false.
Proof.
  induction df as [|r df IH]; simpl; [tauto|].
  destruct (is_penjelasan r) eqn:E.
  - intros H. apply IH in H. tauto.
  - intros [<-|H]; auto. apply IH in H. tauto.
Qed.

Lemma normalize_numbers_keeps y :
  text (normalize_numbers y) = text y
  /\ title (normalize_numbers y) = title y
  /\ section_type (normalize_numbers y) = section_type y
  /\ row_origin (normalize_numbers y) = row_origin y
  /\ (buku (normalize_numbers y), bab (normalize_numbers y),
      bagian (normalize_numbers y)) = (buku y, bab y, bagian y)
  /\ pasal_number (normalize_numbers y)
     = re_sub DOT_ZERO_RE [] (pasal_number y).
Proof. repeat split. Qed.

(** What the explosion and the rewriting of the numbers leave of a
    record of [build_record]. *)
Lemma made_from_block docs cfg raw blk y :
  In (cfg, raw) docs -> strip raw <> [] -> In blk (detect_structure raw) ->
  y = build_record cfg blk \/ ayat_of (build_record cfg blk) y ->
  starts_clean (text (normalize_numbers y))
  /\ ends_clean (text (normalize_numbers y))
  /\ made_from docs (normalize_numbers y).
Proof.
  intros Hd Hs Hb Hy.
  destruct (normalize_numbers_keeps y) as (Et & Eti & Est & Eo & El & Ep).
  rewrite Et.
  destruct (minimal_clean_shaped (b_text blk)) as (A & B & _).
  assert (K : text y = minimal_clean (b_text blk)
              /\ section_type y = py "PASAL"
              \/ section_type y = py "AYAT" /\ text y <> []
                 /\ exists held,
                      In held (runs (minimal_clean (b_text blk)))
                      /\ text y = strip held).
  { destruct Hy as [->|(_ & (ay & Ey) & Hne & held & Hh & Eh)].
    - left. split; reflexivity.
    - right. split; [rewrite Ey; reflexivity|]. split; [exact Hne|].
      exists held. split; [|exact Eh].
      change (text (build_record cfg blk)) with (minimal_clean (b_text blk))
        in Hh.
      rewrite minimal_clean_stripped in Hh. exact Hh. }
  assert (F : row_origin y = config_origin cfg
              /\ title y = py "Pasal " ++ b_pasal_number blk
              /\ pasal_number y = b_pasal_number blk
              /\ (buku y, bab y, bagian y)
                 = (tag_label (b_buku blk), tag_label (b_bab blk),
                    tag_label (b_bagian blk))).
  { destruct Hy as [->|(_ & (ay & ->) & _)]; repeat split. }
  destruct F as (F1 & F2 & F3 & F4).
  assert (S : starts_clean (text y) /\ ends_clean (text y)).
  { destruct K as [[-> _]|(_ & _ & held & _ & ->)].
    - split; [exact A|exact B].
    - apply strip_clean. }
  destruct S as [S1 S2]. split; [exact S1|]. split; [exact S2|].
  exists cfg, raw, blk.
  split; [exact Hd|]. split; [exact Hs|]. split; [exact Hb|].
  split; [rewrite Eo; exact F1|]. split; [rewrite Eti; exact F2|].
  split; [rewrite Ep, F3; reflexivity|]. split; [rewrite El; exact F4|].
  rewrite Est, Et.
  destruct K as [[K1 K2]|K]; [left; split; assumption|right; exact K].
Qed.

Lemma pipeline_rows docs :
  exists rows,
    pipeline docs = Some rows
    /\ Forall (fun x => is_penjelasan x = false
                        /\ starts_clean (text x) /\ ends_clean (text x)
                        /\ made_from docs x) rows.
Proof.
  rewrite pipeline_eq.
  destruct (explode_origin (all_records docs)) as (o & -> & F).
  cbn [option_map].
  eexists. split; [reflexivity|]. apply Forall_forall. intros x Hx.
  apply drop_In in Hx as [Hx Hp]. split; [exact Hp|].
  apply in_map_iff in Hx as (y & <- & Hy).
  rewrite Forall_forall in F. apply F in Hy.
  assert (Hrec : forall rec, In rec (all_records docs) ->
            exists cfg raw blk, In (cfg, raw) docs /\ strip raw <> []
              /\ In blk (detect_structure raw) /\ rec = build_record cfg blk).
  { intros rec Hr. apply all_records_In in Hr as (cfg & raw & Hd & Hr).
    apply build_records_In in Hr as (Hs & blk & Hb & E).
    exists cfg, raw, blk. repeat split; assumption. }
  destruct Hy as [Hy|(r & Hr & Ha)].
  - apply Hrec in Hy as (cfg & raw & blk & Hd & Hs & Hb & E).
    apply (@made_from_block docs cfg raw blk y Hd Hs Hb). now left.
  - apply Hrec in Hr as (cfg & raw & blk & Hd & Hs & Hb & E). subst r.
    apply (@made_from_block docs cfg raw blk y Hd Hs Hb). now right.
Qed.
End MainRows.

(** X16: every row [main] hands to the writer comes from a block of one of
    the documents, whose text was not blank: it carries that document's
    metadata and the block's title and labels; it is the block's Pasal
    row with the cleaned text, or an Ayat row with a non-empty run of
    that text; its text neither begins nor ends with whitespace; and it
    is not explanatory. *)
Theorem pipeline_rows_made_from_blocks (U : Unicode) docs :
  exists rows,
    pipeline docs = Some rows
    /\ Forall (fun x => ~ explanatory x
                        /\ starts_clean (text x) /\ ends_clean (text x)
                        /\ made_from docs x) rows.
Proof.
  destruct (pipeline_rows docs) as (rows & E & F). exists rows. split; auto.
  eapply Forall_impl; [|exact F]. simpl. intros x (A & B).
  split; auto. rewrite <- is_penjelasan_spec. congruence.
Qed.

(** * Captured groups *)

Section CaptureFacts.
Variable R : Type.

Lemma run_langc r : forall b s cs (k : cont R) x,
  run r b s cs k = Some x ->
  exists m b' s' new,
    s = m ++ s' /\ rm r b s b' s' /\ langc r m new
    /\ k b' s' (new ++ cs) = Some x.
Proof.
  induction r; simpl; intros b s cs k x H.
  - exists [], b, s, []. auto.
  - destruct s as [|c t]; [discriminate|].
    destruct (p c) eqn:Hp; [|discriminate].
    exists [c], (is_lf c), t, []. repeat split; eauto.
  - apply star_sound in H as (b' & s' & Hr & Hk).
    destruct (rm_lang Hr) as (m & -> & L). exists m, b', s', []. auto.
  - apply IHr1 in H as (m1 & b1 & s1 & n1 & -> & R1 & L1 & H).
    apply IHr2 in H as (m2 & b2 & s2 & n2 & -> & R2 & L2 & H).
    exists (m1 ++ m2), b2, s2, (n2 ++ n1).
    rewrite <- !app_assoc. repeat split; eauto. now exists m1, m2, n1, n2.
  - destruct (run r1 b s cs k) eqn:H1.
    + inversion H; subst.
      apply IHr1 in H1 as (m & b' & s' & new & E & Hr & L & Hk).
      exists m, b', s', new. auto.
    + apply IHr2 in H as (m & b' & s' & new & E & Hr & L & Hk).
      exists m, b', s', new. auto.
  - apply IHr in H as (m & b' & s' & new & -> & Hr & L & Hk).
    rewrite length_app, Nat.add_sub, firstn_app, Nat.sub_diag, firstn_all in Hk.
    simpl in Hk. rewrite app_nil_r in Hk.
    exists m, b', s', ((i, m) :: new). repeat split; eauto.
  - destruct b; [|discriminate]. exists [], true, s, []. auto.
  - destruct s as [|c t]; [exists [], b, [], []; auto|].
    destruct (is_lf c) eqn:Hc; [|discriminate]. exists [], b, (c :: t), []. auto.
  - destruct s as [|c [|d t]]; [exists [], b, [], []; auto| |discriminate].
    destruct (is_lf c) eqn:Hc; [|discriminate]. exists [], b, [c], []. auto.
Qed.
End CaptureFacts.

Lemma match_at_langc r b s n cs :
  match_at r b s = Some (n, cs) ->
  exists m s' b', s = m ++ s' /\ n = length m /\ rm r b s b' s'
                  /\ langc r m cs.
Proof.
  unfold match_at. intros H.
  apply run_langc in H as (m & b' & s' & new & -> & Hr & L & Hk).
  inversion Hk; subst. rewrite app_nil_r, length_app, Nat.add_sub.
  exists m, s', b'. auto.
Qed.

Lemma scan_hits_langc r : forall s k b gap,
  Forall (hit_langc r) (scan r k b gap s).
Proof.
  induction s as [|c t IH]; intros k b gap; simpl.
  - repeat constructor.
  - destruct k as [|k]; auto.
    destruct (match_at r b (c :: t)) as [[[|n] g]|] eqn:E; auto.
    + apply match_at_langc in E as (m & s' & b' & E & Hn & _ & L).
      destruct m; [|discriminate]. repeat constructor; auto.
    + apply match_at_langc in E as (m & s' & b' & E & Hn & _ & L).
      repeat constructor; auto. simpl.
      change (c :: firstn n t) with (firstn (S n) (c :: t)).
      now rewrite E, Hn, firstn_app, Nat.sub_diag, firstn_all, app_nil_r.
Qed.

Lemma langc_lang r : forall m new, langc r m new -> lang r m.
Proof.
  induction r; simpl; intros m new H; try tauto.
  - destruct H as (m1 & m2 & n1 & n2 & -> & L1 & L2 & _).
    exists m1, m2. split; [reflexivity|]. split; [eapply IHr1|eapply IHr2]; eauto.
  - destruct H as [H|H]; [left; eapply IHr1|right; eapply IHr2]; eauto.
  - destruct H as (n1 & L & _). eapply IHr; eauto.
Qed.

(** * Gaps hold no match *)

Lemma gaps_fail_mono r ps e e' :
  (e <= e')%nat -> gaps_fail r e ps -> gaps_fail r e' ps.
Proof.
  destruct ps as [|[g|m cs] rest]; simpl; auto.
  intros L [H1 H2]. split; auto.
  intros a c s' E La. apply (H1 a c s' E). lia.
Qed.

Lemma app_same_length (A : Type) : forall (a b x y : list A),
  length a = length b -> a ++ x = b ++ y -> a = b /\ x = y.
Proof.
  induction a as [|u a IH]; destruct b as [|v b]; simpl; intros x y L E;
    try discriminate; auto.
  inversion E; subst. destruct (IH b x y) as [-> ->]; auto.
Qed.

Lemma scan_gaps_fail r :
  (forall b s g, match_at r b s <> Some (O, g)) ->
  forall s k b gap, (k = O \/ gap = []) ->
  gaps_fail r (length gap) (scan r k b gap s).
Proof.
  intros N. induction s as [|c t IH]; intros k b gap Hk.
  - simpl. split; auto. intros a c s' E La.
    apply (f_equal (@length char)) in E.
    rewrite length_rev, length_app in E. simpl in E. lia.
  - simpl. destruct k as [|k].
    + destruct (match_at r b (c :: t)) as [[[|n] g]|] eqn:E.
      * now apply N in E.
      * split.
        -- intros a c' s' Ea La. apply (f_equal (@length char)) in Ea.
           rewrite length_rev, length_app in Ea. simpl in Ea. lia.
        -- apply (IH n (is_lf c) []). auto.
      * pose proof (IH O (is_lf c) (c :: gap) (or_introl eq_refl)) as H.
        pose proof (@scan_text r t O (is_lf c) (c :: gap) (or_introl eq_refl))
          as Ht.
        destruct (scan r 0 (is_lf c) (c :: gap) t) as [|[g|m cs] rest];
          auto.
        destruct H as [H1 H2]. split; auto.
        intros a c' s' Ea La.
        destruct (Nat.eq_dec (length a) (length gap)) as [El|Nl].
        -- exists b. rewrite render_gap, Ea in Ht. simpl in Ht.
           rewrite <- !app_assoc in Ht. simpl in Ht.
           apply app_same_length in Ht as [_ Ht];
             [|now rewrite length_rev].
           rewrite Ht. exact E.
        -- apply (H1 a c' s' Ea). simpl. lia.
    + destruct Hk as [Hk| ->]; [discriminate|].
      apply gaps_fail_mono with (e := O); [lia|].
      apply (IH k (is_lf c) []). auto.
Qed.

(** * The number and the run of an Ayat row *)

Section Layout.
Context {U : Unicode}.

Lemma AYAT_langc m cs :
  langc AYAT_SPLIT_RE m cs -> marker_of (group_or_empty 1 cs) m.
Proof.
  unfold AYAT_SPLIT_RE, Seqs, Plus, Chr, ws, digit, marker_of. cbn [langc].
  intros (m1 & r1 & n1 & k1 & -> & ((c1 & -> & H1) & ->)
          & (w1 & r2 & n2 & k2 & -> & (F1 & ->)
             & (m3 & r3 & n3 & k3 & ->
                & (n4 & (md & ds & n5 & k5 & -> & ((d & -> & Hd) & ->)
                         & (Fd & ->) & ->) & ->)
                & (w2 & m5 & n6 & k6 & -> & (F2 & ->)
                   & ((c2 & -> & H2) & ->) & ->) & ->) & ->) & ->).
  apply N.eqb_eq in H1, H2. subst. unfold group_or_empty, group. simpl.
  exists w1, w2. repeat split; auto; try discriminate.
Qed.

Lemma gap_no_marker g rest :
  gap_fail AYAT_SPLIT_RE 0 g rest -> ~ has_marker g.
Proof.
  intros H (a & m & z & -> & Hm).
  destruct (is_marker_ends Hm) as (m0 & Em & _).
  destruct (H a 40 (m0 ++ z)) as (b' & E); [|lia|].
  - now rewrite Em.
  - destruct (AYAT_complete (z ++ rest) b' Hm) as (b1 & Hr).
    apply match_at_complete in Hr. apply Hr.
    rewrite Em. simpl. now rewrite <- app_assoc in E.
Qed.

Lemma pairs_layout ps :
  shaped ps -> Forall (hit_langc AYAT_SPLIT_RE) ps ->
  gaps_fail AYAT_SPLIT_RE 0 ps ->
  forall p, In p (pairs_of ps) ->
  exists a m z,
    render (fun m _ => m) ps = a ++ m ++ snd p ++ z
    /\ marker_of (fst p) m /\ ~ has_marker (snd p) /\ at_marker z.
Proof.
  induction 1 as [g|g m cs ps Hs IH]; intros F G p Hp.
  - contradiction.
  - inversion F as [|? ? _ F1]; subst. inversion F1 as [|? ? Hm F2]; subst.
    simpl in Hm. apply AYAT_langc in Hm.
    destruct G as [_ G]. cbn [gaps_fail] in G.
    inversion Hs as [g'|g' m' cs' ps' Hs']; subst.
    + simpl in Hp. destruct Hp as [<-|[]].
      destruct G as [G _]. apply gap_no_marker in G.
      exists g, m, [].
      split; [|split; [exact Hm|split; [exact G|now left]]].
      unfold render. simpl. now rewrite !app_nil_r.
    + change (pairs_of (Gap g :: Hit m cs :: Gap g' :: Hit m' cs' :: ps'))
        with ((group_or_empty 1 cs, g')
                :: pairs_of (Gap g' :: Hit m' cs' :: ps')) in Hp.
      destruct Hp as [<-|Hp].
      * destruct G as [G _]. apply gap_no_marker in G.
        exists g, m, (m' ++ render (fun m _ => m) ps').
        split; [reflexivity|]. split; [exact Hm|]. split; [exact G|].
        right. inversion F2 as [|? ? _ F3]; subst.
        inversion F3 as [|? ? Hm' _]; subst. simpl in Hm'.
        apply AYAT_langc in Hm'.
        exists (group_or_empty 1 cs'), m', (render (fun m _ => m) ps').
        split; [exact Hm'|reflexivity].
      * destruct (IH F2 G p Hp) as (a & m0 & z & E & Hk).
        exists (g ++ m ++ a), m0, z. split; [|exact Hk].
        rewrite render_gap, render_hit, E. cbn beta.
        now rewrite <- !app_assoc.
Qed.

Lemma children_layout r :
  Forall (ayat_at r)
    (children r (pairs_of (pieces AYAT_SPLIT_RE (strip (text r))))).
Proof.
  apply Forall_forall. intros x Hx. unfold children in Hx.
  apply in_flat_map in Hx as (p & Hin & Hx). unfold child in Hx.
  destruct (strip (snd p)) as [|c body] eqn:Es; [contradiction|].
  destruct Hx as [<-|[]].
  destruct (@pairs_layout (pieces AYAT_SPLIT_RE (strip (text r)))
              (scan_shaped _ _ _ _ _) (scan_hits_langc _ _ _ _ _)
              (@scan_gaps_fail AYAT_SPLIT_RE
                 (nonempty_no_empty_match AYAT_SPLIT_RE AYAT_nonempty)
                 (strip (text r)) 0 true [] (or_introl eq_refl)) p Hin)
    as (a & m & z & E & Hm & Hg & Hz).
  rewrite pieces_text in E.
  exists a, (fst p), m, (snd p), z. rewrite Es.
  repeat split; auto. discriminate.
Qed.

Lemma explode_row_layout r :
  exists rows, explode_row r = Some rows
               /\ Forall (fun x => x = r \/ is_pasal_row r = true /\ ayat_at r x)
                    rows.
Proof.
  rewrite explode_row_pairs. eexists. split; [reflexivity|].
  destruct (is_pasal_row r) eqn:Hp; [|repeat constructor; auto].
  destruct (pairs_of (pieces AYAT_SPLIT_RE (strip (text r)))) as [|p prs] eqn:E;
    [repeat constructor; auto|].
  rewrite <- E. eapply Forall_impl; [|apply children_layout]; auto.
Qed.
End Layout.

(** X9: every row the explosion returns is a row it was given, or an Ayat
    row of a Pasal row it was given, made for one marker of that row's
    stripped text: the row's [ayat_number] are the digits of the marker
    (stripped), its text the run of text from the marker to the next
    marker or the end (stripped, never empty, and with no marker in it),
    its section type AYAT, and every other column is the Pasal row's. *)
Theorem explode_rows_layout (U : Unicode) (df : list record) :
  exists o,
    explode_ayat_rows_df df = Some o
    /\ Forall (fun x => In x df
                        \/ exists r, In r df /\ is_pasal_row r = true
                                     /\ ayat_at r x) o.
Proof.
  induction df as [|r df (o & E & F)]; simpl.
  - exists []. auto.
  - destruct (explode_row_layout r) as (rows & Er & Fr). rewrite Er, E.
    eexists. split; [reflexivity|]. apply Forall_app. split.
    + eapply Forall_impl; [|exact Fr]. simpl. intros x [->|[H1 H2]].
      * left. now left.
      * right. exists r. split; [now left|]. split; assumption.
    + eapply Forall_impl; [|exact F]. simpl.
      intros x [H|(r' & H & H')].
      * left. now right.
      * right. exists r'. split; [now right|exact H'].
Qed.

(** * Header lines and heading lines *)

Lemma rm_ends_eol r b s b' s' :
  rm r b s b' s' -> ends_eol r = true -> at_line_end s'.
Proof.
  induction 1; simpl; intros E; try discriminate; auto.
  - apply andb_true_iff in E as [E1 E2]. auto.
  - apply andb_true_iff in E as [E1 E2]. auto.
Qed.

Lemma langc_no_grp r : no_grp r = true ->
  forall m new, langc r m new -> new = [].
Proof.
  induction r; simpl; intros N m new H; try discriminate; try tauto.
  - apply andb_true_iff in N as [N1 N2].
    destruct H as (m1 & m2 & n1 & n2 & _ & L1 & L2 & ->).
    now rewrite (IHr1 N1 _ _ L1), (IHr2 N2 _ _ L2).
  - apply andb_true_iff in N as [N1 N2]. destruct H; eauto.
Qed.

Section HeaderFacts.
Context {U : Unicode}.

Lemma iword_cons c d w : iword (c :: d :: w) = Seq (ichr c) (iword (d :: w)).
Proof. reflexivity. Qed.

Lemma iword_no_grp w : no_grp (iword w) = true.
Proof.
  induction w as [|c [|d w] IH]; [reflexivity|reflexivity|exact IH].
Qed.

Lemma iword_lang w : forall m, lang (iword w) m -> spelled m w.
Proof.
  induction w as [|c [|d w] IH]; intros m H.
  - simpl in H. subst. constructor.
  - destruct H as (x & -> & Hx). repeat constructor. exact Hx.
  - rewrite iword_cons in H. destruct H as (m1 & m2 & -> & (x & -> & Hx) & L).
    constructor; auto. apply IH. exact L.
Qed.

Lemma iword_langc w m new : langc (iword w) m new -> spelled m w /\ new = [].
Proof.
  intros H. split.
  - apply iword_lang. eapply langc_lang; eauto.
  - eapply langc_no_grp; eauto. apply iword_no_grp.
Qed.

Lemma NUM_lang g :
  lang (Alt (Grp 2 (Seq (Plus digit) (Opt (iset letters))))
            (Grp 3 (Plus (iset (py "IVXLCM"))))) g ->
  pasal_label g.
Proof.
  unfold Plus, Opt, digit. cbn [lang].
  intros [(md & l & -> & (c & ds & -> & (d & -> & Hd) & Fd) & Hl)
         |(c & ms & -> & (d & -> & Hd) & Fd)].
  - left. exists (d :: ds), l. repeat split; auto; try discriminate.
    destruct Hl as [(x & -> & Hx)| ->]; eauto.
  - right. split; [discriminate|]. constructor; auto.
Qed.

Lemma PASAL_langc m cs :
  langc PASAL_ANY_RE m cs -> pasal_header (group_or_empty 1 cs) m.
Proof.
  unfold PASAL_ANY_RE, Seqs.
  set (IW := iword _). set (NUM := Alt _ _). unfold Plus, ws. cbn [langc].
  intros (m0 & r0 & n0 & k0 & -> & (-> & ->)
          & (w0 & r1 & n1 & k1 & -> & (F0 & ->)
             & (kw & r2 & n2 & k2 & -> & Lkw
                & (mp & r3 & n3 & k3 & ->
                   & (c1 & s1 & n4 & k4 & -> & ((c & -> & Hc) & ->)
                      & (F1 & ->) & ->)
                   & (g & r4 & n5 & k5 & -> & (n6 & Lg & ->)
                      & (w2 & me & n7 & k7 & -> & (F2 & ->) & (-> & ->) & ->)
                      & ->) & ->) & ->) & ->) & ->).
  apply iword_langc in Lkw as [Hkw ->]. apply langc_lang, NUM_lang in Lg.
  simpl. exists w0, kw, (c :: s1), w2. rewrite !app_nil_r.
  repeat split; auto; try discriminate. constructor; auto.
Qed.

Lemma heading_langc word numerals m cs :
  langc (heading_re word numerals) m cs ->
  heading_line word numerals (group_or_empty 1 cs) (group_or_empty 2 cs) m.
Proof.
  unfold heading_re, Seqs.
  set (IW := iword _). unfold Plus, ws. cbn [langc].
  intros (m0 & r0 & n0 & k0 & -> & (-> & ->)
          & (w0 & r1 & n1 & k1 & -> & (F0 & ->)
             & (kw & r2 & n2 & k2 & -> & Lkw
                & (mp & r3 & n3 & k3 & ->
                   & (c1 & s1 & n4 & k4 & -> & ((c & -> & Hc) & ->)
                      & (F1 & ->) & ->)
                   & (g & r4 & n5 & k5 & ->
                      & (n6 & (d1 & ds & n8 & k8 & -> & ((d & -> & Hd) & ->)
                               & (Fd & ->) & ->) & ->)
                      & (w2 & r5 & n7 & k7 & -> & (F2 & ->)
                         & (ti & me & n9 & k9 & -> & (n10 & (Ft & ->) & ->)
                            & (-> & ->) & ->) & ->)
                      & ->) & ->) & ->) & ->) & ->).
  apply iword_langc in Lkw as [Hkw ->].
  simpl. exists w0, kw, (c :: s1), w2. rewrite !app_nil_r.
  repeat split; auto; try discriminate; constructor; auto.
Qed.
End HeaderFacts.

Lemma scan_hits_ok r :
  (forall b s g, match_at r b s <> Some (O, g)) ->
  forall s k b gap, (k = O \/ gap = []) -> hits_ok r (scan r k b gap s).
Proof.
  intros N. induction s as [|c t IH]; intros k b gap Hk; simpl; auto.
  destruct k as [|k].
  - destruct (match_at r b (c :: t)) as [[[|n] g]|] eqn:E.
    + now apply N in E.
    + split; [|apply IH; auto].
      apply match_at_langc in E as (m & s' & b' & E & Hn & Hr & L).
      rewrite scan_text by auto. simpl.
      change (c :: firstn n t) with (firstn (S n) (c :: t)).
      change (skipn n t) with (skipn (S n) (c :: t)).
      rewrite E in *. rewrite Hn.
      rewrite firstn_app, Nat.sub_diag, firstn_all, app_nil_r.
      rewrite skipn_app, Nat.sub_diag, skipn_all. simpl.
      split; eauto.
    + apply IH. auto.
  - destruct Hk as [Hk| ->]; [discriminate|]. apply IH. auto.
Qed.

Lemma hits_from_sound r : forall ps pos,
  hits_ok r ps ->
  Forall (fun h => exists pre z,
            render (fun m _ => m) ps = pre ++ m_text h ++ z
            /\ m_start h = (pos + length pre)%nat
            /\ hit_sound r (m_text h) (m_groups h) z)
    (hits_from pos ps).
Proof.
  induction ps as [|[g|m cs] ps IH]; intros pos H; simpl.
  - constructor.
  - eapply Forall_impl; [|apply (IH (pos + length g)%nat H)]. simpl.
    intros h (pre & z & E & Hs & Hh). exists (g ++ pre), z.
    rewrite render_gap, E, length_app, <- app_assoc.
    split; [reflexivity|]. split; [lia|exact Hh].
  - destruct H as [H1 H2]. constructor.
    + exists [], (render (fun m _ => m) ps). simpl.
      rewrite render_hit, Nat.add_0_r.
      split; [reflexivity|]. split; [reflexivity|exact H1].
    + eapply Forall_impl; [|apply (IH (pos + length m)%nat H2)]. simpl.
      intros h (pre & z & E & Hs & Hh). exists (m ++ pre), z.
      rewrite render_hit, E, length_app. cbn beta. rewrite <- app_assoc.
      split; [reflexivity|]. split; [lia|exact Hh].
Qed.

Lemma hits_from_apart : forall ps pos,
  Forall (fun h => pos <= m_start h
                   /\ m_start h + length (m_text h)
                      <= pos + length (render (fun m _ => m) ps))%nat
    (hits_from pos ps)
  /\ forall i h h',
       nth_error (hits_from pos ps) i = Some h ->
       nth_error (hits_from pos ps) (S i) = Some h' ->
       (m_start h + length (m_text h) <= m_start h')%nat.
Proof.
  induction ps as [|[g|m cs] ps IH]; intros pos; simpl.
  - split; [constructor|]. intros [|i]; discriminate.
  - destruct (IH (pos + length g)%nat) as [B A]. split; auto.
    rewrite render_gap, length_app.
    eapply Forall_impl; [|exact B]. simpl. intros h. lia.
  - destruct (IH (pos + length m)%nat) as [B A]. split.
    + rewrite render_hit, length_app. constructor; [simpl; lia|].
      eapply Forall_impl; [|exact B]. simpl. intros h. lia.
    + intros [|i] h h' H1 H2; simpl in H1, H2; [|eauto].
      inversion H1; subst. simpl.
      destruct (hits_from (pos + length m) ps) as [|x l]; [discriminate|].
      simpl in H2. inversion H2; subst. inversion B; subst. lia.
Qed.

Section BlockHeaders.
Context {U : Unicode}.

Lemma blocks_nth t bk bb bg : forall ms i blk s e,
  nth_error (blocks_of t bk bb bg ms) i = Some blk ->
  nth_error (spans_of (length t) ms) i = Some (s, e) ->
  exists h,
    nth_error ms i = Some h /\ s = m_start h
    /\ b_pasal_number blk = strip (group_or_empty 1 (m_groups h))
    /\ (e = length t \/ exists h', nth_error ms (S i) = Some h'
                                   /\ e = m_start h').
Proof.
  induction ms as [|m ms IH]; intros [|i] blk s e H1 H2; simpl in *;
    try discriminate.
  - inversion H1; inversion H2; subst. simpl. exists m.
    repeat split; auto. destruct ms as [|m' ms]; eauto.
  - eauto.
Qed.

Lemma at_line_end_firstn k z : at_line_end z -> at_line_end (firstn k z).
Proof. destruct k, z; simpl; auto. Qed.

Lemma blocks_headers t i blk s e :
  nth_error (detect_structure t) i = Some blk ->
  nth_error (block_spans t) i = Some (s, e) ->
  exists g hd rest,
    slice t s e = hd ++ rest /\ pasal_header g hd /\ at_line_end rest
    /\ b_pasal_number blk = strip g.
Proof.
  intros H1 H2. unfold detect_structure in H1. unfold block_spans in H2.
  destruct (blocks_nth _ _ _ _ _ _ H1 H2) as (h & Hh & -> & El & He).
  unfold finditer in Hh, He.
  pose proof (@scan_hits_ok PASAL_ANY_RE
                (nonempty_no_empty_match PASAL_ANY_RE PASAL_nonempty)
                t 0 true [] (or_introl eq_refl)) as Ok.
  fold (pieces PASAL_ANY_RE t) in Ok.
  pose proof (hits_from_sound PASAL_ANY_RE (pieces PASAL_ANY_RE t) 0 Ok) as Fs.
  destruct (hits_from_apart (pieces PASAL_ANY_RE t) 0) as [B A].
  rewrite pieces_text in Fs, B.
  rewrite Forall_forall in Fs, B.
  pose proof (nth_error_In _ _ Hh) as Hin.
  destruct (Fs h Hin) as (pre & z & Et & Hs & L & bb0 & bb1 & Hr).
  destruct (B h Hin) as [_ Hb]. simpl in Hs, Hb.
  assert (Le : (m_start h + length (m_text h) <= e)%nat).
  { destruct He as [->|(h' & Hh' & ->)]; [lia|]. eapply A; eauto. }
  exists (group_or_empty 1 (m_groups h)), (m_text h),
    (firstn (e - m_start h - length (m_text h)) z).
  repeat split; auto.
  - unfold slice. rewrite Et at 1. rewrite Hs.
    rewrite skipn_app, Nat.sub_diag, skipn_all. simpl.
    rewrite firstn_app, firstn_all2 by lia. reflexivity.
  - now apply PASAL_langc.
  - apply at_line_end_firstn. eapply rm_ends_eol; eauto.
Qed.
End BlockHeaders.

(** X6: the span of every block begins with the header that opened it:
    optional whitespace, the word Pasal in any case, whitespace, a label
    (digits with at most one letter, or roman numeral letters), optional
    whitespace, and then the end of a line; the block's Pasal number is
    that label, stripped. *)
Theorem blocks_start_with_header (U : Unicode) t i blk s e :
  nth_error (detect_structure t) i = Some blk ->
  nth_error (block_spans t) i = Some (s, e) ->
  exists g hd rest,
    slice t s e = hd ++ rest /\ pasal_header g hd /\ at_line_end rest
    /\ b_pasal_number blk = strip g.
Proof. apply blocks_headers. Qed.

Lemma blocks_start_with_header_witness :
  exists g hd rest,
    slice sample_statute 26 37 = hd ++ rest
    /\ @pasal_header latin g hd /\ at_line_end rest
    /\ py "2" = strip g.
Proof.
  exact (@blocks_start_with_header latin sample_statute 1
           {| b_pasal_number := py "2"; b_text := py "dua";
              b_buku := None; b_bab := Some (py "BAB", py "II", []);
              b_bagian := None |} 26 37 eq_refl eq_refl).
Defined.

Lemma marks_of_caps kind r : forall lines pos p tg,
  In (p, tg) (marks_of kind r pos lines) ->
  exists i ln k cs,
    nth_error lines i = Some ln
    /\ nth_error (line_starts_from pos lines) i = Some p
    /\ match_at r true ln = Some (k, cs)
    /\ tg = (kind, strip (group_or_empty 1 cs), strip (group_or_empty 2 cs)).
Proof.
  induction lines as [|l lines IH]; simpl; intros pos p tg H; [contradiction|].
  destruct (match_at r true l) as [[k cs]|] eqn:E.
  - destruct H as [H|H].
    + inversion H; subst. exists O, l, k, cs. auto.
    + destruct (IH _ _ _ H) as (i & ln & k' & cs' & H1 & H2 & H3 & H4).
      exists (S i), ln, k', cs'. auto.
  - destruct (IH _ _ _ H) as (i & ln & k' & cs' & H1 & H2 & H3 & H4).
    exists (S i), ln, k', cs'. auto.
Qed.

Lemma line_end_nonbreak ln m s' :
  nonbreak ln -> ln = m ++ s' -> at_line_end s' -> s' = [].
Proof.
  intros F -> H. destruct s' as [|c s']; auto. simpl in H.
  apply Forall_app in F as [_ F]. inversion F as [|? ? Hc _]; subst.
  exfalso. chars.
Qed.

(** X4: in a text without carriage return (as [read_pdf_text] returns
    it), every BUKU, BAB or Bagian mark stands for a line of the text at the
    mark's offset that reads, from its first to its last character:
    optional whitespace, the word in any case, whitespace, a numeral,
    optional whitespace, a title; the mark's tag is the kind, the
    numeral and the title, both stripped. *)
Theorem heading_marks_spell_lines (U : Unicode) word numerals kind t p tg :
  Forall (fun c => c <> CR) t ->
  In (p, tg) (marks_of kind (heading_re word numerals) 0 (splitlines t)) ->
  exists ln g ti,
    In ln (splitlines t) /\ located t p ln
    /\ heading_line word numerals g ti ln
    /\ tg = (kind, strip g, strip ti).
Proof.
  intros F H. apply marks_of_caps in H as (i & ln & k & cs & H1 & H2 & H3 & ->).
  exists ln, (group_or_empty 1 cs), (group_or_empty 2 cs).
  assert (Hin : In ln (splitlines t)) by (eapply nth_error_In; eauto).
  repeat split; auto.
  - pose proof (@splitlines_located t [] [] F) as L. simpl in L.
    apply (@Forall2_nth _ _ _ _ _ L i p ln H2 H1).
  - apply match_at_langc in H3 as (m & s' & b' & E & _ & Hr & L).
    pose proof (@splitlines_nonbreak (length t) t [] (le_n _) (Forall_nil _))
      as Fn.
    fold (splitlines t) in Fn. rewrite Forall_forall in Fn.
    assert (Es : s' = []).
    { apply (@line_end_nonbreak ln m s' (Fn ln Hin) E).
      eapply rm_ends_eol; eauto. }
    subst s'. rewrite app_nil_r in E. subst m. now apply heading_langc.
Qed.

Lemma heading_marks_spell_lines_witness :
  exists ln g ti,
    In ln (splitlines sample_statute) /\ located sample_statute 19 ln
    /\ @heading_line latin (py "BAB") (py "IVXLC") g ti ln
    /\ (py "BAB", py "II", []) = (py "BAB", strip g, strip ti).
Proof.
  apply (@heading_marks_spell_lines latin (py "BAB") (py "IVXLC") (py "BAB")
           sample_statute 19 (py "BAB", py "II", [])).
  - repeat constructor; discriminate.
  - vm_compute. auto.
Defined.

(** * A Pasal row, marker by marker *)

Section Marked.
Context {U : Unicode}.

Lemma pairs_of_segs ps :
  pairs_of ps = List.map (fun s : seg => (snd (fst s), snd s)) (segs_of ps).
Proof.
  induction ps as [|[g|m cs] ps IH]; simpl; auto.
  destruct ps as [|[g|m' cs'] ps']; auto.
  change (segs_of (Gap g :: ps')) with (segs_of ps') in *.
  change (pairs_of (Gap g :: ps')) with (pairs_of ps') in *.
  simpl. now rewrite IH.
Qed.

Lemma children_segs r segs :
  children r (List.map (fun s : seg => (snd (fst s), snd s)) segs)
  = flat_map (seg_rows r) segs.
Proof.
  unfold children. induction segs as [|s segs IH]; simpl; auto.
  now rewrite IH.
Qed.

Lemma shaped_laid_out ps :
  shaped ps -> Forall (hit_langc AYAT_SPLIT_RE) ps ->
  gaps_fail AYAT_SPLIT_RE 0 ps ->
  exists g0 rest,
    ps = Gap g0 :: rest
    /\ laid_out (render (fun m _ => m) ps) g0 (segs_of ps).
Proof.
  induction 1 as [g|g m cs ps Hs IH]; intros F G.
  - exists g, []. split; [reflexivity|]. destruct G as [G _].
    apply gap_no_marker in G. split; [|split; [exact G|constructor]].
    unfold render. simpl. reflexivity.
  - inversion F as [|? ? _ F1]; subst. inversion F1 as [|? ? Hm F2]; subst.
    simpl in Hm. apply AYAT_langc in Hm.
    destruct G as [G0 G]. cbn [gaps_fail] in G. apply gap_no_marker in G0.
    destruct (IH F2 G) as (g' & rest & -> & E & Hg & Fs).
    exists g, (Hit m cs :: Gap g' :: rest). split; [reflexivity|].
    change (segs_of (Gap g :: Hit m cs :: Gap g' :: rest))
      with ((m, group_or_empty 1 cs, g') :: segs_of (Gap g' :: rest)).
    split; [|split; [exact G0|]].
    + rewrite render_gap, render_hit, E. cbn [List.map concat].
      unfold seg_text. cbn [fst snd]. cbn beta.
      now rewrite <- !app_assoc.
    + constructor; [|exact Fs]. split; [exact Hm|exact Hg].
Qed.

Lemma explode_row_segs r :
  is_pasal_row r = true ->
  exists g0 segs,
    laid_out (strip (text r)) g0 segs
    /\ explode_row r
       = Some (match segs with
               | [] => [r]
               | _ :: _ => flat_map (seg_rows r) segs
               end).
Proof.
  intros Hp.
  destruct (@shaped_laid_out (pieces AYAT_SPLIT_RE (strip (text r)))
              (scan_shaped _ _ _ _ _) (scan_hits_langc _ _ _ _ _)
              (@scan_gaps_fail AYAT_SPLIT_RE
                 (nonempty_no_empty_match AYAT_SPLIT_RE AYAT_nonempty)
                 (strip (text r)) 0 true [] (or_introl eq_refl)))
    as (g0 & rest & _ & L).
  rewrite pieces_text in L.
  exists g0, (segs_of (pieces AYAT_SPLIT_RE (strip (text r)))).
  split; [exact L|].
  rewrite explode_row_pairs, Hp, pairs_of_segs.
  destruct (segs_of (pieces AYAT_SPLIT_RE (strip (text r)))) as [|s segs];
    [reflexivity|].
  rewrite <- children_segs. reflexivity.
Qed.
End Marked.

(** X17: the stripped text of a Pasal row without [ayat_number] reads as
    a text without marker, then marker after marker, each followed by a
    run without marker.  Without any marker the row stays as it is;
    otherwise its place is taken, in the order of the markers, by one
    Ayat row for each marker whose run is not blank, numbered by the
    marker's digits and holding the stripped run. *)
Theorem explode_row_by_markers (U : Unicode) before r after :
  is_pasal_row r = true ->
  exists g0 segs o1 o2,
    laid_out (strip (text r)) g0 segs
    /\ explode_ayat_rows_df before = Some o1
    /\ explode_ayat_rows_df after = Some o2
    /\ explode_ayat_rows_df (before ++ r :: after)
       = Some (o1
               ++ match segs with
                  | [] => [r]
                  | _ :: _ => flat_map (seg_rows r) segs
                  end
               ++ o2).
Proof.
  intros Hp. destruct (explode_row_segs r Hp) as (g0 & segs & L & E).
  destruct (@explode_middle U before r after _ E) as (o1 & o2 & E1 & E2 & E3).
  exists g0, segs, o1, o2.
  split; [exact L|]. split; [exact E1|]. split; [exact E2|exact E3].
Qed.

Lemma explode_row_by_markers_witness :
  exists g0 segs o1 o2,
    @laid_out latin (strip (text (pasal_row (py "(1) satu (2) dua")))) g0 segs
    /\ @explode_ayat_rows_df latin [] = Some o1
    /\ @explode_ayat_rows_df latin [] = Some o2
    /\ @explode_ayat_rows_df latin
         ([] ++ pasal_row (py "(1) satu (2) dua") :: [])
       = Some (o1
               ++ match segs with
                  | [] => [pasal_row (py "(1) satu (2) dua")]
                  | _ :: _ =>
                      flat_map (seg_rows (pasal_row (py "(1) satu (2) dua")))
                        segs
                  end
               ++ o2).
Proof.
  exact (@explode_row_by_markers latin []
           (pasal_row (py "(1) satu (2) dua")) [] eq_refl).
Defined.

(** * The rows of a marked Pasal row *)

Section MarkedRows.
Context {U : Unicode}.

Lemma seg_rows_blank r segs :
  (forall s, In s segs -> strip (snd s) = []) ->
  flat_map (seg_rows r) segs = [].
Proof.
  induction segs as [|s segs IH]; intros H; [reflexivity|].
  cbn [flat_map]. rewrite IH by (intros x Hx; apply H; now right).
  unfold seg_rows, child. cbn [snd]. rewrite (H s) by now left. reflexivity.
Qed.

Lemma explode_row_marked_segs r :
  is_pasal_row r = true -> has_marker (text r) ->
  exists g0 segs,
    segs <> [] /\ laid_out (strip (text r)) g0 segs
    /\ explode_row r = Some (flat_map (seg_rows r) segs)
    /\ ~ In r (flat_map (seg_rows r) segs)
    /\ Forall (fun x => section_type x = py "AYAT" /\ text x <> [])
         (flat_map (seg_rows r) segs).
Proof.
  intros Hp Hm.
  destruct (@shaped_laid_out U (pieces AYAT_SPLIT_RE (strip (text r)))
              (scan_shaped _ _ _ _ _) (scan_hits_langc _ _ _ _ _)
              (@scan_gaps_fail AYAT_SPLIT_RE
                 (nonempty_no_empty_match AYAT_SPLIT_RE AYAT_nonempty)
                 (strip (text r)) 0 true [] (or_introl eq_refl)))
    as (g0 & rest & _ & L).
  rewrite pieces_text in L.
  destruct (explode_row_marked r Hp Hm) as [E N].
  rewrite pairs_of_segs, children_segs in E, N.
  exists g0, (segs_of (pieces AYAT_SPLIT_RE (strip (text r)))).
  split; [|split; [exact L|split; [exact E|split; [exact N|]]]].
  - intros Es. rewrite Es in L. destruct L as (Et & Hg & _).
    simpl in Et. rewrite app_nil_r in Et. apply Hg. rewrite <- Et.
    apply (proj1 (has_marker_strip (text r))). exact Hm.
  - rewrite <- children_segs, <- pairs_of_segs.
    eapply Forall_impl; [|apply children_ayat]. simpl. tauto.
Qed.
End MarkedRows.

(** C10, as amended: a Pasal row without [ayat_number] whose text has at
    least one marker is always exploded, wherever it stands.  Its
    stripped text reads as a text without marker and then one or more
    markers, each followed by a run without marker; the place of the row
    is taken, in the order of the markers, by exactly one Ayat row for
    each marker whose run is not blank, numbered by the marker's digits
    and holding the stripped run.  None of these rows is the row itself,
    and when every run is blank nothing is left of the row, the text
    before its first marker included. *)
Theorem explode_drops_marked (U : Unicode) before r after :
  is_pasal_row r = true -> has_marker (text r) ->
  exists g0 segs o1 o2,
    segs <> [] /\ laid_out (strip (text r)) g0 segs
    /\ explode_ayat_rows_df before = Some o1
    /\ explode_ayat_rows_df after = Some o2
    /\ explode_ayat_rows_df (before ++ r :: after)
       = Some (o1 ++ flat_map (seg_rows r) segs ++ o2)
    /\ ~ In r (flat_map (seg_rows r) segs)
    /\ Forall (fun x => section_type x = py "AYAT" /\ text x <> [])
         (flat_map (seg_rows r) segs)
    /\ ((forall s, In s segs -> strip (snd s) = []) ->
        flat_map (seg_rows r) segs = []).
Proof.
  intros Hp Hm.
  destruct (explode_row_marked_segs r Hp Hm) as (g0 & segs & Hn & L & E & N & F).
  destruct (@explode_middle U before r after _ E) as (o1 & o2 & E1 & E2 & E3).
  exists g0, segs, o1, o2.
  split; [exact Hn|]. split; [exact L|]. split; [exact E1|].
  split; [exact E2|]. split; [exact E3|]. split; [exact N|].
  split; [exact F|]. apply seg_rows_blank.
Qed.

Lemma latin_marker_1_foo : @has_marker latin (py "x (1) foo").
Proof.
  exists (py "x "), (py "(1)"), (py " foo"). split; [reflexivity|].
  exists [], (py "1"), []. repeat split; try discriminate; repeat constructor.
Qed.

Lemma explode_drops_marked_witness :
  exists g0 segs o1 o2,
    segs <> []
    /\ @laid_out latin (strip (text (pasal_row (py "x (1) foo")))) g0 segs
    /\ @explode_ayat_rows_df latin [] = Some o1
    /\ @explode_ayat_rows_df latin [] = Some o2
    /\ @explode_ayat_rows_df latin ([] ++ pasal_row (py "x (1) foo") :: [])
       = Some (o1 ++ flat_map (seg_rows (pasal_row (py "x (1) foo"))) segs
                  ++ o2)
    /\ ~ In (pasal_row (py "x (1) foo"))
           (flat_map (seg_rows (pasal_row (py "x (1) foo"))) segs)
    /\ Forall (fun x => section_type x = py "AYAT" /\ text x <> [])
         (flat_map (seg_rows (pasal_row (py "x (1) foo"))) segs)
    /\ ((forall s, In s segs -> strip (snd s) = []) ->
        flat_map (seg_rows (pasal_row (py "x (1) foo"))) segs = []).
Proof.
  exact (@explode_drops_marked latin [] (pasal_row (py "x (1) foo")) []
           eq_refl latin_marker_1_foo).
Defined.

(** C10, as stated, fails: it leaves out the guard of line 181.  A PASAL
    row that already has an [ayat_number] is not exploded, although its
    text has a marker: it stays as it is. *)
Lemma numbered_row_is_kept :
  section_type numbered_row = py "PASAL"
  /\ ayat_number numbered_row = Some (py "3")
  /\ length (finditer (@AYAT_SPLIT_RE latin) (text numbered_row)) = 1%nat
  /\ @explode_ayat_rows_df latin [numbered_row] = Some [numbered_row].
Proof. vm_compute. repeat split. Qed.

(** * [minimal_clean] twice *)

Section StarFacts.
Variable R : Type.
Variables (p : char -> bool) (k : cont R).
Hypothesis k_flag : forall b1 b2 s cs, k b1 s cs = k b2 s cs.
Hypothesis k_fails : forall b c t cs, p c = true -> k b (c :: t) cs = None.

(** When what follows cannot start with a character of the class, the
    star takes the whole run. *)
Lemma star_takes_all : forall s b cs,
  star p k b s cs = k b (dropwhile p s) cs.
Proof.
  induction s as [|c t IH]; intros b cs; simpl; [reflexivity|].
  destruct (p c) eqn:Hc; [|reflexivity].
  rewrite IH. rewrite (k_flag (is_lf c) b).
  destruct (k b (dropwhile p t) cs) eqn:E; [reflexivity|].
  now apply k_fails.
Qed.
End StarFacts.

Lemma DOTS_is_dots_re : DOTS_RE = dots_re 3.
Proof. reflexivity. Qed.

Lemma ws_not_dot c : ws c = true -> (46 =? c) = false.
Proof. unfold ws. intros H. chars. Qed.

Lemma run_dots (s0 : str) : forall n s b cs,
  run (dots_re n) b s cs
    (fun _ s1 cs1 => Some ((length s0 - length s1)%nat, cs1))
  = match dsplit n s with
    | Some rest => Some ((length s0 - length rest)%nat, cs)
    | None => None
    end.
Proof.
  induction n as [|n IH]; intros s b cs.
  - simpl. apply star_greedy.
  - cbn [dots_re run dsplit].
    rewrite star_takes_all.
    + destruct (dropwhile ws s) as [|c t]; [reflexivity|].
      unfold Chr. cbn [run]. destruct (46 =? c); [apply IH|reflexivity].
    + intros b1 b2 s1 cs1. unfold Chr. cbn [run]. reflexivity.
    + intros b1 c t cs1 Hc. unfold Chr. cbn [run].
      now rewrite (ws_not_dot _ Hc).
Qed.

Lemma match_at_dots b s :
  match_at DOTS_RE b s
  = match dsplit 3 s with
    | Some rest => Some ((length s - length rest)%nat, [])
    | None => None
    end.
Proof. unfold match_at. rewrite DOTS_is_dots_re. apply run_dots. Qed.

(** ** What [dsplit] returns *)

Lemma dropwhile_suffix_of p (s : str) : exists m, s = m ++ dropwhile p s.
Proof. exists (takewhile p s). apply takewhile_dropwhile. Qed.

Lemma dsplit_rest : forall n s rest,
  dsplit n s = Some rest ->
  starts_ws rest = false
  /\ exists m, s = m ++ rest /\ (n <= length m)%nat.
Proof.
  induction n as [|n IH]; intros s rest H; cbn [dsplit] in H.
  - inversion H; subst. split.
    + pose proof (dropwhile_head ws s) as Hd. unfold starts_ws.
      destruct (dropwhile ws s); auto.
    + destruct (dropwhile_suffix_of ws s) as (m & E). exists m. split; [exact E|lia].
  - destruct (dropwhile_suffix_of ws s) as (m0 & E0).
    destruct (dropwhile ws s) as [|c t]; [discriminate|].
    destruct (46 =? c); [|discriminate].
    destruct (IH t rest H) as (Hs & m & -> & L). split; [exact Hs|].
    exists (m0 ++ c :: m). rewrite E0, <- app_assoc. split; [reflexivity|].
    rewrite length_app. simpl. lia.
Qed.

Lemma dots_ahead_dropwhile s : dots_ahead (dropwhile ws s) = dots_ahead s.
Proof.
  induction s as [|c t IH]; cbn [dropwhile dots_ahead]; [reflexivity|].
  unfold ws in *. destruct (isspace c) eqn:Hc.
  - assert ((c =? 46) = false) as -> by chars. exact IH.
  - cbn [dots_ahead]. now rewrite Hc.
Qed.

Lemma dsplit_none : forall n s,
  dsplit n s = None <-> (dots_ahead s < n)%nat.
Proof.
  induction n as [|n IH]; intros s; cbn [dsplit].
  - split; [discriminate|lia].
  - rewrite <- (dots_ahead_dropwhile s).
    pose proof (dropwhile_head ws s) as Hd.
    destruct (dropwhile ws s) as [|c t]; cbn [dots_ahead].
    + split; [lia|reflexivity].
    + unfold ws in Hd. rewrite Hd. rewrite (N.eqb_sym 46 c).
      destruct (c =? 46).
      * rewrite IH. lia.
      * split; [lia|reflexivity].
Qed.

(** ** [re.sub] by [DOTS_RE], step by step *)

Lemma scan_dots_flag : forall s k b b' gap,
  scan DOTS_RE k b gap s = scan DOTS_RE k b' gap s.
Proof.
  destruct s as [|c t]; intros k b b' gap; cbn [scan]; [reflexivity|].
  destruct k; [|reflexivity].
  now rewrite (match_at_dots b), (match_at_dots b').
Qed.

Lemma dsub_flag k b s :
  sub_from DOTS_RE [ELLIPSIS] k b s = sub_from DOTS_RE [ELLIPSIS] k true s.
Proof. unfold sub_from. now rewrite (scan_dots_flag s k b true). Qed.

Lemma sub_from_skip r repl : forall s k b, (k <= length s)%nat ->
  exists b', sub_from r repl k b s = sub_from r repl 0 b' (skipn k s).
Proof.
  induction s as [|c t IH]; intros k b Hk.
  - assert (k = O) by (simpl in Hk; lia). subst. now exists b.
  - destruct k as [|k]; [now exists b|]. simpl in Hk.
    destruct (IH k (is_lf c)) as (b' & E); [lia|].
    exists b'. unfold sub_from in *. simpl. exact E.
Qed.

Lemma re_sub_dsub s : re_sub DOTS_RE [ELLIPSIS] s = dsub s.
Proof. reflexivity. Qed.

Lemma dsub_nil : dsub [] = [].
Proof. reflexivity. Qed.

Lemma dsub_gap c t :
  dsplit 3 (c :: t) = None -> dsub (c :: t) = c :: dsub t.
Proof.
  intros H. unfold dsub, sub_from. cbn [scan].
  rewrite match_at_dots, H, render_scan_gap. cbn [rev app].
  fold (sub_from DOTS_RE [ELLIPSIS] 0 (is_lf c) t).
  now rewrite dsub_flag.
Qed.

Lemma dsub_hit s rest :
  dsplit 3 s = Some rest -> dsub s = ELLIPSIS :: dsub rest.
Proof.
  intros H. destruct (dsplit_rest 3 s H) as (_ & m & E & L).
  destruct s as [|c t].
  { destruct m; [simpl in L; lia|discriminate]. }
  unfold dsub, sub_from. cbn [scan]. rewrite match_at_dots, H.
  assert (El : (length (c :: t) - length rest)%nat = length m).
  { rewrite E, length_app. lia. }
  rewrite El. destruct m as [|x m]; [simpl in L; lia|]. cbn [length].
  rewrite render_gap, render_hit. cbn [rev app].
  fold (sub_from DOTS_RE [ELLIPSIS] (length m) (is_lf c) t).
  inversion E; subst.
  destruct (@sub_from_skip DOTS_RE [ELLIPSIS] (m ++ rest) (length m) (is_lf x))
    as (b' & ->); [rewrite length_app; lia|].
  rewrite skipn_app, Nat.sub_diag, skipn_all. cbn [skipn app].
  now rewrite dsub_flag.
Qed.

(** ** Cleaned text is left alone by the ellipsis step *)

Lemma isspace_not_ellipsis c : isspace c = true -> (c =? ELLIPSIS) = false.
Proof. intros H. chars. Qed.

Lemma isspace_not_46 c : isspace c = true -> (c =? 46) = false.
Proof. intros H. chars. Qed.

Lemma starts_ws_expand z : starts_ws (expand_all z) = starts_ws z.
Proof.
  destruct z as [|c z]; [reflexivity|]. unfold expand_all. cbn [flat_map].
  unfold expand. destruct (c =? ELLIPSIS) eqn:E; [|reflexivity].
  apply N.eqb_eq in E. subst. reflexivity.
Qed.

Lemma dropwhile_starts s : starts_ws s = false -> dropwhile ws s = s.
Proof.
  destruct s as [|c s]; [reflexivity|]. unfold starts_ws, ws. cbn [dropwhile].
  now intros ->.
Qed.

Lemma dots_ahead_expand : forall z prev,
  normal prev z ->
  prev = true \/ (forall z', z <> ELLIPSIS :: z') ->
  dots_ahead (expand_all z) = dots_ahead z.
Proof.
  induction z as [|c z IH]; intros prev N H; [reflexivity|].
  cbn [normal] in N. destruct N as [Nc N].
  destruct (c =? ELLIPSIS) eqn:Ec.
  - apply N.eqb_eq in Ec. subst c. destruct Nc as [Hp _].
    destruct H as [H|H]; [congruence|]. now contradiction (H z).
  - unfold expand_all. cbn [flat_map]. unfold expand at 1. rewrite Ec.
    cbn [app dots_ahead]. fold (expand_all z).
    destruct (c =? 46) eqn:E46.
    + f_equal. apply (IH (wsdot c) N). left. unfold wsdot.
      now rewrite E46, orb_true_r.
    + destruct (isspace c) eqn:Es; [|reflexivity].
      apply (IH (wsdot c) N). left. unfold wsdot. now rewrite Es.
Qed.

(** The ellipsis step undoes what NFKC does to cleaned text. *)
Lemma dsub_expand : forall z prev,
  normal prev z -> dsub (expand_all z) = z.
Proof.
  induction z as [|c z IH]; intros prev N; [reflexivity|].
  pose proof N as N0. cbn [normal] in N. destruct N as [Nc N].
  destruct (c =? ELLIPSIS) eqn:Ec.
  - apply N.eqb_eq in Ec. subst c. destruct Nc as [_ Hs].
    change (expand_all (ELLIPSIS :: z)) with (46 :: 46 :: 46 :: expand_all z).
    rewrite (@dsub_hit _ (expand_all z)).
    + f_equal. apply (IH _ N).
    + cbn. rewrite dropwhile_starts; [reflexivity|].
      now rewrite starts_ws_expand.
  - assert (E : expand_all (c :: z) = c :: expand_all z).
    { unfold expand_all. cbn [flat_map]. unfold expand at 1. now rewrite Ec. }
    rewrite E, dsub_gap.
    + f_equal. apply (IH _ N).
    + apply dsplit_none. rewrite <- E.
      rewrite (@dots_ahead_expand (c :: z) prev N0).
      * exact Nc.
      * right. intros z' Ez. inversion Ez; subst.
        rewrite N.eqb_refl in Ec. discriminate.
Qed.

(** ** The ellipsis step leaves normal text *)

Lemma dots_ahead_dsub : forall s,
  (dots_ahead s < 3)%nat -> dots_ahead (dsub s) = dots_ahead s.
Proof.
  induction s as [|c t IH]; intros L; [reflexivity|].
  rewrite dsub_gap by (now apply dsplit_none).
  cbn [dots_ahead] in *. destruct (c =? 46).
  - f_equal. apply IH. lia.
  - destruct (isspace c); [apply IH; lia|reflexivity].
Qed.

Lemma starts_ws_dsub s : starts_ws s = false -> starts_ws (dsub s) = false.
Proof.
  destruct s as [|c t]; intros H; [reflexivity|].
  destruct (dsplit 3 (c :: t)) as [rest|] eqn:E.
  - rewrite (dsub_hit _ E). reflexivity.
  - rewrite (dsub_gap _ _ E). exact H.
Qed.

Lemma dsub_normal : forall n h prev,
  (length h <= n)%nat ->
  Forall (fun c => c <> ELLIPSIS) h ->
  (dsplit 3 h <> None -> prev = false) ->
  normal prev (dsub h).
Proof.
  induction n as [|n IH]; intros h prev Ln F Hp.
  - destruct h; [exact I|simpl in Ln; lia].
  - destruct h as [|c t]; [exact I|]. simpl in Ln.
    inversion F as [|? ? Hc Ft]; subst.
    destruct (dsplit 3 (c :: t)) as [rest|] eqn:E.
    + rewrite (dsub_hit _ E).
      destruct (dsplit_rest 3 _ E) as (Hs & m & Em & Lm).
      cbn [normal]. rewrite N.eqb_refl. split.
      * split; [apply Hp; discriminate|]. now apply starts_ws_dsub.
      * apply IH.
        -- apply (f_equal (@length char)) in Em.
           rewrite length_app in Em. simpl in Em. lia.
        -- rewrite Em in F. now apply Forall_app in F.
        -- intros _. reflexivity.
    + rewrite (dsub_gap _ _ E). cbn [normal].
      assert ((c =? ELLIPSIS) = false) as -> by now apply N.eqb_neq.
      pose proof (proj1 (dsplit_none 3 (c :: t)) E) as Ld.
      split.
      * rewrite <- (dsub_gap _ _ E). now rewrite dots_ahead_dsub.
      * apply IH; [lia|exact Ft|].
        intros Ht. destruct (wsdot c) eqn:Ew; [|reflexivity].
        exfalso. apply Ht. apply dsplit_none.
        cbn [dots_ahead] in Ld. unfold wsdot in Ew.
        destruct (c =? 46); [lia|].
        rewrite orb_false_r in Ew. rewrite Ew in Ld. lia.
Qed.

(** ** Properties that do not see how much whitespace there is *)

Lemma rstrip_split s : exists z, s = rstrip s ++ z /\ spaces z.
Proof.
  unfold rstrip. exists (rev (takewhile isspace (rev s))). split.
  - rewrite <- rev_app_distr, <- takewhile_dropwhile. now rewrite rev_involutive.
  - apply Forall_rev. apply takewhile_all.
Qed.

Lemma strip_split s :
  exists a z, s = a ++ strip s ++ z /\ spaces a /\ spaces z.
Proof.
  destruct (rstrip_split s) as (z & E & Fz).
  exists (takewhile isspace (rstrip s)), z. split; [|split; [|exact Fz]].
  - unfold strip, lstrip. rewrite app_assoc, <- takewhile_dropwhile. exact E.
  - apply takewhile_all.
Qed.

Section Blind.
(** [Inv] holds of a text whatever whitespace stands where some
    whitespace stands, and whatever whitespace is taken from its ends. *)
Variable Inv : str -> Prop.
Hypothesis swap : forall pre a a' rest,
  a <> [] -> a' <> [] -> spaces a -> spaces a' ->
  Inv (pre ++ a ++ rest) -> Inv (pre ++ a' ++ rest).
Hypothesis drop_tail : forall pre a, spaces a -> Inv (pre ++ a) -> Inv pre.
Hypothesis drop_head : forall a s, spaces a -> Inv (a ++ s) -> Inv s.

Lemma blind_squeeze p n repl s :
  (0 < n)%nat -> (forall c, p c = true -> isspace c = true) ->
  repl <> [] -> spaces repl ->
  Inv s -> Inv (squeeze p n repl [] s).
Proof.
  intros Hn Hp Hr Fr. apply squeeze_keeps; [exact Hn|].
  intros pre a rest Ha Fa. apply swap; auto.
  eapply Forall_impl; [|exact Fa]. exact Hp.
Qed.

Lemma blind_line pre cur rest :
  rest <> [] -> spaces rest ->
  Inv (pre ++ rev cur ++ rest) -> Inv (pre ++ rstrip (rev cur)).
Proof.
  intros Hr Fr H. destruct (rstrip_split (rev cur)) as (z & E & Fz).
  rewrite E, <- app_assoc, app_assoc in H.
  apply drop_tail in H; [exact H|]. apply Forall_app. now split.
Qed.

Lemma blind_line_feed pre cur brk rest :
  brk <> [] -> spaces brk ->
  Inv (pre ++ rev cur ++ brk ++ rest) ->
  Inv ((pre ++ rstrip (rev cur) ++ [LF]) ++ rest).
Proof.
  intros Hb Fb H. destruct (rstrip_split (rev cur)) as (z & E & Fz).
  rewrite E in H.
  replace (pre ++ (rstrip (rev cur) ++ z) ++ brk ++ rest)
    with ((pre ++ rstrip (rev cur)) ++ (z ++ brk) ++ rest) in H
    by (now rewrite <- !app_assoc).
  apply swap with (a' := [LF]) in H.
  - now rewrite <- !app_assoc in *.
  - destruct z; [simpl; exact Hb|discriminate].
  - discriminate.
  - apply Forall_app. now split.
  - repeat constructor.
Qed.

Lemma splitlines_nil_iff s : splitlines_aux [] s = [] <-> s = [].
Proof.
  split; [|now intros ->]. destruct s as [|c t]; [reflexivity|].
  intros H. now apply splitlines_cons in H.
Qed.

Lemma join_lines_cons l ls :
  ls <> [] ->
  join [LF] (List.map rstrip (l :: ls))
  = rstrip l ++ [LF] ++ join [LF] (List.map rstrip ls).
Proof.
  intros H. cbn [List.map]. apply join_cons.
  destruct ls; [contradiction|discriminate].
Qed.

Lemma blind_rstrip_lines_from : forall n s cur pre,
  (length s <= n)%nat ->
  Inv (pre ++ rev cur ++ s) ->
  Inv (pre ++ join [LF] (List.map rstrip (splitlines_aux cur s))).
Proof.
  induction n as [|n IH]; intros s cur pre Ln H.
  - destruct s; [|simpl in Ln; lia]. cbn [splitlines_aux].
    destruct cur as [|x cur].
    + simpl in *. exact H.
    + cbn [List.map join]. rewrite app_nil_r in H.
      destruct (rstrip_split (rev (x :: cur))) as (z & E & Fz).
      rewrite E, app_assoc in H. now apply drop_tail in H.
  - destruct s as [|c t].
    { apply (IH [] cur pre); [simpl; lia|exact H]. }
    simpl in Ln. cbn [splitlines_aux].
    destruct (is_linebreak c) eqn:Hc.
    + assert (Sc : isspace c = true) by now apply linebreak_isspace.
      destruct t as [|d t'].
      * cbn [List.map join].
        apply (@blind_line pre cur [c]); [discriminate|repeat constructor; auto|].
        exact H.
      * destruct ((c =? CR) && (d =? LF)) eqn:Ecr.
        -- apply andb_true_iff in Ecr as [_ Ed]. apply N.eqb_eq in Ed. subst d.
           destruct t' as [|x t''].
           ++ cbn [splitlines_aux List.map join].
              apply (@blind_line pre cur [c; LF]);
                [discriminate|repeat constructor; auto|exact H].
           ++ rewrite join_lines_cons by apply splitlines_cons.
              rewrite !app_assoc. rewrite <- (app_assoc pre).
              apply (IH (x :: t'') [] _); [simpl in *; lia|].
              cbn [rev app].
              apply (@blind_line_feed pre cur [c; LF] (x :: t''));
                [discriminate|repeat constructor; auto|exact H].
        -- rewrite join_lines_cons by apply splitlines_cons.
           rewrite !app_assoc. rewrite <- (app_assoc pre).
           apply (IH (d :: t') [] _); [simpl in *; lia|].
           cbn [rev app].
           apply (@blind_line_feed pre cur [c] (d :: t'));
             [discriminate|repeat constructor; auto|exact H].
    + apply (IH t (c :: cur) pre); [lia|].
      cbn [rev]. now rewrite <- !app_assoc.
Qed.

Lemma blind_rstrip_lines s : Inv s -> Inv (rstrip_lines s).
Proof.
  intros H. unfold rstrip_lines, splitlines.
  apply (@blind_rstrip_lines_from (length s) s [] [] (le_n _)). exact H.
Qed.

Lemma blind_strip s : Inv s -> Inv (strip s).
Proof.
  intros H. destruct (strip_split s) as (a & z & E & Fa & Fz).
  rewrite E in H. apply drop_head in H; [|exact Fa].
  now apply drop_tail in H.
Qed.

Lemma blind_clean_tail s : Inv s -> Inv (clean_tail s).
Proof.
  intros H. unfold clean_tail, squeeze_blanks, squeeze_newlines.
  apply blind_strip.
  apply blind_squeeze;
    [lia|apply blank_isspace|discriminate|repeat constructor|].
  apply blind_squeeze;
    [lia|apply lf_isspace|discriminate|repeat constructor|].
  now apply blind_rstrip_lines.
Qed.
End Blind.

(** ** Normal text stays normal through steps 5 to 8 *)

Lemma dots_ahead_spaces a rest :
  spaces a -> dots_ahead (a ++ rest) = dots_ahead rest.
Proof.
  induction 1 as [|c a Hc _ IH]; [reflexivity|].
  cbn [app dots_ahead]. now rewrite (isspace_not_46 _ Hc), Hc.
Qed.

Lemma dots_ahead_swap a a' rest : forall pre,
  spaces a -> spaces a' ->
  dots_ahead (pre ++ a ++ rest) = dots_ahead (pre ++ a' ++ rest).
Proof.
  intros pre Fa Fa'. induction pre as [|c pre IH].
  - cbn [app]. now rewrite !dots_ahead_spaces.
  - cbn [app dots_ahead]. now rewrite IH.
Qed.

Lemma dots_ahead_app_le : forall s x,
  (dots_ahead s <= dots_ahead (s ++ x))%nat.
Proof.
  induction s as [|c s IH]; intros x; cbn [app dots_ahead]; [lia|].
  destruct (c =? 46); [specialize (IH x); lia|].
  destruct (isspace c); [apply IH|lia].
Qed.

Lemma wsdot_space c : isspace c = true -> wsdot c = true.
Proof. intros H. unfold wsdot. now rewrite H. Qed.

(** After whitespace, only what follows it counts. *)
Lemma normal_spaces : forall a prev rest,
  a <> [] -> spaces a ->
  (normal prev (a ++ rest)
   <-> (dots_ahead rest < 3)%nat /\ normal true rest).
Proof.
  induction a as [|x a IH]; intros prev rest Ha Fa; [contradiction|].
  inversion Fa as [|? ? Hx Fa']; subst.
  cbn [app normal]. rewrite (isspace_not_ellipsis _ Hx), (wsdot_space _ Hx).
  change (x :: a ++ rest) with ((x :: a) ++ rest).
  rewrite (dots_ahead_spaces rest Fa).
  destruct a as [|y a].
  - cbn [app]. tauto.
  - rewrite (IH true rest) by (auto; discriminate). tauto.
Qed.

Lemma starts_ws_app_spaces a rest :
  a <> [] -> spaces a -> starts_ws (a ++ rest) = true.
Proof.
  intros Ha Fa. destruct a as [|x a]; [contradiction|].
  inversion Fa; subst. assumption.
Qed.

Lemma normal_swap a a' rest : forall pre prev,
  a <> [] -> a' <> [] -> spaces a -> spaces a' ->
  normal prev (pre ++ a ++ rest) -> normal prev (pre ++ a' ++ rest).
Proof.
  induction pre as [|c pre IH]; intros prev Ha Ha' Fa Fa' H.
  - cbn [app] in *. apply (normal_spaces prev rest Ha' Fa').
    now apply (normal_spaces prev rest Ha Fa).
  - cbn [app normal] in *. destruct H as [Hc H]. split; [|now apply IH].
    destruct (c =? ELLIPSIS).
    + destruct Hc as [Hp Hs]. split; [exact Hp|].
      destruct pre as [|d pre]; [|exact Hs].
      cbn [app] in Hs. rewrite (starts_ws_app_spaces rest Ha Fa) in Hs.
      discriminate.
    + change (c :: pre ++ a' ++ rest) with ((c :: pre) ++ a' ++ rest).
      rewrite <- (dots_ahead_swap rest (c :: pre) Fa Fa'). exact Hc.
Qed.

Lemma normal_drop_tail : forall pre prev a,
  normal prev (pre ++ a) -> normal prev pre.
Proof.
  induction pre as [|c pre IH]; intros prev a H; [exact I|].
  cbn [app normal] in *. destruct H as [Hc H]. split; [|now apply (IH _ a)].
  destruct (c =? ELLIPSIS).
  - destruct Hc as [Hp Hs]. split; [exact Hp|].
    destruct pre; [reflexivity|exact Hs].
  - pose proof (dots_ahead_app_le (c :: pre) a) as L.
    cbn [app] in L. lia.
Qed.

Lemma normal_weaken s prev : normal prev s -> normal false s.
Proof.
  destruct s as [|c s]; [auto|]. cbn [normal]. intros [Hc H]. split; [|exact H].
  destruct (c =? ELLIPSIS); [|exact Hc]. split; [reflexivity|apply Hc].
Qed.

Lemma normal_drop_head : forall a prev s,
  normal prev (a ++ s) -> normal false s.
Proof.
  induction a as [|c a IH]; intros prev s H.
  - now apply normal_weaken in H.
  - cbn [app normal] in H. destruct H as [_ H]. now apply IH in H.
Qed.

Lemma clean_tail_normal s : normal false s -> normal false (clean_tail s).
Proof.
  apply (@blind_clean_tail (normal false)).
  - intros pre a a' rest Ha Ha' Fa Fa'. now apply normal_swap.
  - intros pre a _. apply normal_drop_tail.
  - intros a s0 _. apply normal_drop_head.
Qed.

(** ** Texts without a hyphen before a line feed *)

Lemma has_hl_spec : forall s,
  has_hl s = true <-> exists a z, s = a ++ 45 :: LF :: z.
Proof.
  induction s as [|c t IH]; cbn [has_hl].
  - split; [discriminate|]. intros (a & z & E). now destruct a.
  - rewrite orb_true_iff, IH. split.
    + intros [H|(a & z & ->)].
      * apply andb_true_iff in H as [H1 H2]. apply N.eqb_eq in H1. subst c.
        destruct t as [|d t]; [discriminate|]. apply N.eqb_eq in H2. subst d.
        now exists [], t.
      * now exists (c :: a), z.
    + intros (a & z & E). destruct a as [|x a].
      * inversion E; subst. left. reflexivity.
      * inversion E; subst. right. now exists a, z.
Qed.

Lemma has_hl_expand : forall s, has_hl (expand_all s) = has_hl s.
Proof.
  induction s as [|c t IH]; [reflexivity|].
  unfold expand_all. cbn [flat_map]. fold (expand_all t).
  unfold expand at 1. destruct (c =? ELLIPSIS) eqn:Ec.
  - apply N.eqb_eq in Ec. subst c. cbn [app has_hl]. rewrite IH.
    reflexivity.
  - cbn [app has_hl]. rewrite IH. f_equal. f_equal.
    destruct t as [|d t]; [reflexivity|].
    unfold expand_all. cbn [flat_map]. unfold expand at 1.
    destruct (d =? ELLIPSIS) eqn:Ed; [|reflexivity].
    apply N.eqb_eq in Ed. subst d. reflexivity.
Qed.

Lemma HYPHEN_starts m :
  lang HYPHEN_RE m -> exists w, m = 45 :: LF :: w.
Proof.
  unfold HYPHEN_RE, Seqs, Chr. cbn [lang].
  intros (m1 & m2 & -> & (c & -> & Hc) & m3 & m4 & -> & (d & -> & Hd) & _).
  apply N.eqb_eq in Hc, Hd. subst. now exists m4.
Qed.

Lemma hyphen_step_idle s :
  has_hl s = false -> re_sub HYPHEN_RE [] s = s.
Proof.
  intros H. unfold re_sub, pieces. rewrite scan_no_match.
  - simpl. now rewrite app_nil_r.
  - intros a s' b' ->. destruct (match_at HYPHEN_RE b' s') as [[n g]|] eqn:E;
      [|reflexivity].
    exfalso. apply match_at_sound in E as (b1 & s1 & Hr & _).
    apply rm_lang in Hr as (m & -> & Hm). apply HYPHEN_starts in Hm as (w & ->).
    assert (T : has_hl (a ++ (45 :: LF :: w) ++ s1) = true).
    { apply has_hl_spec. exists a, (w ++ s1). reflexivity. }
    exact (eq_true_false_abs _ T H).
Qed.

(** ** The characters of the text through the steps *)

Lemma render_Forall (Q : char -> Prop) repl ps :
  Forall Q repl ->
  Forall Q (render (fun m _ => m) ps) ->
  Forall Q (render (fun _ _ => repl) ps).
Proof.
  intros Fr. induction ps as [|[g|m cs] ps IH]; intros F.
  - constructor.
  - rewrite render_gap in *. apply Forall_app in F as [F1 F2].
    apply Forall_app. split; auto.
  - rewrite render_hit in *. apply Forall_app in F as [F1 F2].
    apply Forall_app. split; auto.
Qed.

Lemma re_sub_Forall (Q : char -> Prop) r repl s :
  Forall Q repl -> Forall Q s -> Forall Q (re_sub r repl s).
Proof.
  intros Fr F. rewrite re_sub_render. apply render_Forall; [exact Fr|].
  now rewrite pieces_text.
Qed.

Lemma expand_all_Forall (Q : char -> Prop) s :
  Q 46 -> Forall (fun c => c = ELLIPSIS \/ Q c) s -> Forall Q (expand_all s).
Proof.
  intros Hd. induction 1 as [|c s Hc _ IH]; [constructor|].
  unfold expand_all. cbn [flat_map]. fold (expand_all s). apply Forall_app.
  split; [|exact IH]. unfold expand. destruct (c =? ELLIPSIS) eqn:E.
  - repeat constructor; exact Hd.
  - constructor; [|constructor]. destruct Hc as [->|Hc]; [|exact Hc].
    rewrite N.eqb_refl in E. discriminate.
Qed.

(** ** Twice is once *)

Section Twice.
Context {U : Unicode}.
Hypothesis nfkc : nfkc_on_ascii.

Lemma ascii_or_ellipsis_cases c :
  ascii_or_ellipsis c = true -> c = ELLIPSIS \/ c < 128.
Proof.
  unfold ascii_or_ellipsis. intros H. apply orb_true_iff in H as [H|H].
  - right. now apply N.ltb_lt.
  - left. now apply N.eqb_eq.
Qed.

(** The first pass: the cleaned text is normal, and made of ellipses
    and ASCII characters other than NUL. *)
Lemma minimal_clean_normal t :
  Forall (fun c => ascii_or_ellipsis c = true) t ->
  normal false (minimal_clean t)
  /\ Forall (fun c => c = ELLIPSIS \/ (c < 128 /\ c <> NUL)) (minimal_clean t).
Proof.
  intros F. rewrite minimal_clean_tail.
  set (w := remove_nul t).
  assert (Fw : Forall (fun c => c = ELLIPSIS \/ (c < 128 /\ c <> NUL)) w).
  { pose proof (remove_nul_Forall F) as F1.
    pose proof (remove_nul_no_nul t) as F2. fold w in F1, F2.
    rewrite Forall_forall in *. intros c Hc.
    destruct (@ascii_or_ellipsis_cases c (F1 c Hc)) as [E|E]; auto. }
  assert (Ew : normalize NFKC w = expand_all w).
  { apply nfkc. eapply Forall_impl; [|exact Fw]. simpl.
    intros c [->|[H _]]; [reflexivity|].
    unfold ascii_or_ellipsis. apply orb_true_iff. left. now apply N.ltb_lt. }
  rewrite Ew.
  assert (Fe : Forall (fun c => c < 128 /\ c <> NUL) (expand_all w)).
  { apply expand_all_Forall; [split; [reflexivity|discriminate]|exact Fw]. }
  set (h := re_sub HYPHEN_RE [] (expand_all w)).
  assert (Fh : Forall (fun c => c < 128 /\ c <> NUL) h).
  { apply re_sub_Forall; [constructor|exact Fe]. }
  rewrite re_sub_dsub. split.
  - apply clean_tail_normal. apply (@dsub_normal (length h) h false (le_n _)).
    + eapply Forall_impl; [|exact Fh]. simpl. intros c [H _] ->.
      vm_compute in H. discriminate.
    + reflexivity.
  - apply clean_tail_Forall.
    + right. split; [reflexivity|discriminate].
    + right. split; [reflexivity|discriminate].
    + rewrite <- re_sub_dsub. apply re_sub_Forall.
      * constructor; [now left|constructor].
      * eapply Forall_impl; [|exact Fh]. simpl. auto.
Qed.

Lemma minimal_clean_twice_ascii t :
  Forall (fun c => ascii_or_ellipsis c = true) t ->
  has_hl (minimal_clean t) = false ->
  minimal_clean (minimal_clean t) = minimal_clean t.
Proof.
  intros F Hh. destruct (minimal_clean_normal F) as [Hn Fy].
  assert (Ey : minimal_clean t = clean_tail (minimal_clean t)).
  { rewrite minimal_clean_tail at 2. rewrite clean_tail_idempotent.
    apply minimal_clean_tail. }
  remember (minimal_clean t) as y eqn:Dy. clear Dy F.
  rewrite (minimal_clean_tail y).
  rewrite remove_nul_fixed.
  2:{ eapply Forall_impl; [|exact Fy]. simpl.
      intros c [->|[_ H]]; [discriminate|exact H]. }
  rewrite nfkc.
  2:{ eapply Forall_impl; [|exact Fy]. simpl.
      intros c [->|[H _]]; [reflexivity|].
      unfold ascii_or_ellipsis. apply orb_true_iff. left. now apply N.ltb_lt. }
  rewrite hyphen_step_idle by (now rewrite has_hl_expand).
  rewrite re_sub_dsub, (@dsub_expand y false Hn). symmetry. exact Ey.
Qed.
End Twice.

(** C3, as amended: [minimal_clean] is idempotent on every text of ASCII
    characters and ellipses whose cleaned form has no hyphen right before
    a line feed, full stops, ellipses and hyphens included: a second pass
    changes nothing.  (The NFKC tables are taken to leave ASCII
    characters alone and to write the ellipsis as three full stops, as
    the Unicode tables do.)  The condition is what the hyphen step needs:
    the cleaned form has such a hyphen when trailing whitespace stood
    between a hyphen and its line break. *)
Theorem minimal_clean_idempotent_ascii (U : Unicode) (t : str) :
  nfkc_on_ascii ->
  Forall (fun c => ascii_or_ellipsis c = true) t ->
  ~ (exists a z, minimal_clean t = a ++ 45 :: LF :: z) ->
  minimal_clean (minimal_clean t) = minimal_clean t.
Proof.
  intros Hn F H. apply (minimal_clean_twice_ascii Hn F).
  destruct (has_hl (minimal_clean t)) eqn:E; [|reflexivity].
  exfalso. apply H. now apply has_hl_spec.
Qed.

Lemma latin_nfkc_on_ascii : @nfkc_on_ascii latin.
Proof.
  intros s F. induction F as [|c s Hc _ IH]; [reflexivity|].
  change (normalize NFKC (c :: s)) with (Latin.nfkc_char c ++ normalize NFKC s).
  rewrite IH. unfold expand_all. cbn [flat_map]. f_equal.
  unfold Latin.nfkc_char, expand. unfold ascii_or_ellipsis in Hc.
  apply orb_true_iff in Hc as [Hc|Hc].
  - apply N.ltb_lt in Hc.
    assert (in_range 65281 65374 c = false) as -> by chars.
    assert (((c =? 160) || in_range 8192 8202 c || (c =? 8239)
             || (c =? 8287) || (c =? 12288)) = false) as -> by chars.
    assert ((c =? ELLIPSIS) = false) as -> by chars.
    assert ((c =? 64257) = false) as -> by chars.
    reflexivity.
  - apply N.eqb_eq in Hc. subst c. reflexivity.
Qed.

Lemma sample_dots_clean :
  ~ (exists a z, @minimal_clean latin sample_dots = a ++ 45 :: LF :: z).
Proof.
  intros H. apply has_hl_spec in H. vm_compute in H. discriminate.
Qed.

Lemma minimal_clean_idempotent_ascii_witness :
  @minimal_clean latin sample_dots
  = py "haknya" ++ [ELLIPSIS] ++ py "dan a-b" ++ [ELLIPSIS] ++ py ". x"
    ++ [LF] ++ py "y"
  /\ @minimal_clean latin (@minimal_clean latin sample_dots)
     = @minimal_clean latin sample_dots.
Proof.
  split; [vm_compute; reflexivity|].
  apply (@minimal_clean_idempotent_ascii latin sample_dots
           latin_nfkc_on_ascii).
  - repeat constructor.
  - exact sample_dots_clean.
Defined.
